(** * chimerascan: classification of paired-end fragments

    Shallow embedding of [chimerascan/pipeline/find_discordant_reads.py]
    (multimap counter, reference/cluster binner, pair classifier and the
    per-fragment dispatcher) together with the properties of the
    specification that concern this code.

    Python objects that are mutated in place ([AlignedRead] records, whose
    [tags] are reassigned) live in an explicit object store; the Python
    variables that hold them are references into that store.  Exceptions are
    an error result. *)

From Stdlib Require Import ZArith Lia.
From stdpp Require Import base option list gmap strings.

Open Scope Z_scope.

(** ** Data model *)

(** [DiscordantTags] of [chimerascan.lib.chimera]: the values written under
    [DISCORDANT_TAG_NAME] by this file. *)
Inductive DiscordantTags :=
| CONCORDANT_TX
| DISCORDANT_STRAND_TX
| CONCORDANT_GENE
| DISCORDANT_STRAND_GENE
| DISCORDANT_GENE.

#[global] Instance DiscordantTags_eq_dec : EqDecision DiscordantTags.
Proof. solve_decision. Defined.

(** One entry of [r.tags], a list of (name, value) pairs.  The two names this
    file writes are kept apart from the tags the aligner put there. *)
Inductive tag :=
| DiscordantTag (d : DiscordantTags)     (* (DISCORDANT_TAG_NAME, d) *)
| OrientationTag (o : Z)                 (* (ORIENTATION_TAG, o) *)
| AlignerTag (name : string) (value : Z).

#[global] Instance tag_eq_dec : EqDecision tag.
Proof. solve_decision. Defined.

(** The attributes of a pysam [AlignedRead] that this file reads or writes. *)
Record AlignedRead := mkRead {
  tid : Z;
  pos : Z;
  aend : Z;
  is_reverse : bool;
  is_unmapped : bool;
  alignment_score : Z;
  tags : list tag
}.

#[global] Instance AlignedRead_eq_dec : EqDecision AlignedRead.
Proof. solve_decision. Defined.

#[global] Instance AlignedRead_inhabited : Inhabited AlignedRead :=
  populate (mkRead (-1) 0 0 false true 0 []).

Definition set_tags (r : AlignedRead) (ts : list tag) : AlignedRead :=
  mkRead (tid r) (pos r) (aend r) (is_reverse r) (is_unmapped r)
         (alignment_score r) ts.

(** [r.tags = r.tags + ts] *)
Definition add_tags (ts : list tag) (r : AlignedRead) : AlignedRead :=
  set_tags r (tags r ++ ts).

(** The part of a transcript record that the binner reads. *)
Record TranscriptFeature := mkTranscript {
  cluster_id : Z
}.

Definition library_type := string.

(** Exceptions that the modelled code can raise. *)
Inductive exn :=
| AssertionError
| TypeError
| AttributeError
| KeyError.

Inductive result (A : Type) :=
| Ok (a : A)
| Raise (e : exn).
Arguments Ok {A} a.
Arguments Raise {A} e.

(** ** Object store *)

(** A reference is the position of the object in the store; objects are never
    freed, and a new object goes to the end. *)
Definition ref := nat.
Definition heap := list AlignedRead.

Definition deref (h : heap) (r : ref) : AlignedRead := h !!! r.

(** A fragment as [parse_pe_reads] yields it: the alignments of mate 1 and
    those of mate 2. *)
Definition fragment := (list ref * list ref)%type.

Definition mates (pe : fragment) : list (list ref) := [pe.1; pe.2].

(** ** State and error monad *)

Definition M (S A : Type) := S -> result (A * S).

Definition ret {S A} (a : A) : M S A := fun s => Ok (a, s).

Definition bind {S A B} (m : M S A) (k : A -> M S B) : M S B :=
  fun s => match m s with
           | Ok (a, s') => k a s'
           | Raise e => Raise e
           end.

Definition raise {S A} (e : exn) : M S A := fun _ => Raise e.

Definition gets {S A} (f : S -> A) : M S A := fun s => Ok (f s, s).

Definition modify {S} (f : S -> S) : M S unit := fun s => Ok (tt, f s).

Notation "'do' x <- m ; k" := (bind m (fun x => k))
  (at level 10, x name, m at level 100, k at level 200).
Notation "'do' ' p <- m ; k" := (bind m (fun x => match x with p => k end))
  (at level 10, p pattern, m at level 100, k at level 200).
Notation "'exec' m ; k" := (bind m (fun _ => k))
  (at level 10, m at level 100, k at level 200).

(** [for x in l: acc = body(acc, x)] *)
Fixpoint for_each {S A B} (l : list A) (body : B -> A -> M S B) (acc : B)
  : M S B :=
  match l with
  | [] => ret acc
  | x :: l' => do acc' <- body acc x; for_each l' body acc'
  end.

(** ** Output channels and the dispatcher's state *)

(** The four output handles opened by [find_discordant_fragments]. *)
Inductive samfile := pairedfh | discordantfh | unpairedfh | multimapfh.

#[global] Instance samfile_eq_dec : EqDecision samfile.
Proof. solve_decision. Defined.

(** The object store and, per output file, the records written to it so far
    (a record is written as it is at the time of the call). *)
Record world := mkWorld {
  objects : heap;
  paired_bam : list AlignedRead;
  discordant_bam : list AlignedRead;
  unpaired_bam : list AlignedRead;
  multimap_bam : list AlignedRead
}.

(** The values that reach the two parameters of [write_pe_reads]: a sequence
    of read lists, or an output handle. *)
Inductive pyobj :=
| PyReads (pe_reads : list (list ref))
| PySamfile (fh : samfile).

(** ** External collaborators

    Functions of other modules of the package that this file calls and whose
    result it does not constrain. *)
Class Collaborators := {
  (** values of [tid_tx_genome_map] *)
  genome_entry : Type;
  (** [transcript_to_genome_pos(tid, pos, tid_tx_genome_map)]: genome
      reference, strand and genome position *)
  transcript_to_genome_pos : Z -> Z -> gmap Z genome_entry -> Z * bool * Z;
  (** [LibraryTypes.same_strand(library_type)] *)
  same_strand : library_type -> bool;
  (** [ORIENTATION_5P] *)
  ORIENTATION_5P : Z;
  (** [get_orientation(r, library_type)] *)
  get_orientation : AlignedRead -> library_type -> Z;
  (** [for reads in fh] on a pysam handle opened for writing: the number of
      records the iteration yields, or the exception it raises *)
  iter_output_samfile : samfile -> result nat
}.

Section Classifier.
Context {collab : Collaborators}.

(** ** Multimap resolver *)

Definition locus_key (m : gmap Z genome_entry) (r : AlignedRead)
  : Z * Z * Z :=
  let '(left_tid, _, left_pos) := transcript_to_genome_pos (tid r) (pos r) m in
  let '(_, _, right_pos) := transcript_to_genome_pos (tid r) (aend r - 1) m in
  (left_tid, left_pos, right_pos).

(** The loop of [count_transcriptome_multimaps]; [hits] is the set built so
    far. *)
Fixpoint count_loop (h : heap) (m : gmap Z genome_entry)
    (reads : list ref) (hits : gset (Z * Z * Z)) : result nat :=
  match reads with
  | [] => Ok (size hits)
  | r :: reads' =>
      if is_unmapped (deref h r) then Ok 0%nat
      else match m !! tid (deref h r) with
           | None => Raise AssertionError
           | Some _ => count_loop h m reads' ({[locus_key m (deref h r)]} ∪ hits)
           end
  end.

Definition count_transcriptome_multimaps (h : heap) (reads : list ref)
    (tid_tx_genome_map : gmap Z genome_entry) : result nat :=
  count_loop h tid_tx_genome_map reads ∅.

(** ** Reference/cluster binner *)

(** [collections.defaultdict(lambda: ([], []))].  The entries are kept in the
    order in which the keys were first used; Python leaves the order of
    [iteritems()] open, and no statement below depends on it. *)
Definition bins := list (Z * (list ref * list ref)).

(** [pairs[readnum].append(r)] for [readnum] 0 or 1 *)
Definition append_mate (readnum : nat) (r : ref) (pairs : list ref * list ref)
  : list ref * list ref :=
  match readnum with
  | O => (pairs.1 ++ [r], pairs.2)
  | S _ => (pairs.1, pairs.2 ++ [r])
  end.

(** [d[key][readnum].append(r)], creating the entry when the key is new *)
Fixpoint bin_append (key : Z) (readnum : nat) (r : ref) (d : bins) : bins :=
  match d with
  | [] => [(key, append_mate readnum r ([], []))]
  | (k, pairs) :: d' =>
      if decide (k = key) then (k, append_mate readnum r pairs) :: d'
      else (k, pairs) :: bin_append key readnum r d'
  end.

Definition enumerate {A} (l : list A) : list (nat * A) :=
  zip (seq 0 (length l)) l.

(** The body of the inner loop of [map_reads_to_references] (lines 43-53). *)
Definition bin_read (tid_tx_map : gmap Z TranscriptFeature) (readnum : nat)
    (dicts : bins * bins) (r : ref) : M heap (bins * bins) :=
  let '(refdict, clusterdict) := dicts in
  do rd <- gets (fun h => deref h r);
  if is_unmapped rd then ret (refdict, clusterdict)
  else match tid_tx_map !! tid rd with
       | None => raise AssertionError
       | Some tx =>
           let clusterdict := bin_append (cluster_id tx) readnum r clusterdict in
           let refdict := bin_append (tid rd) readnum r refdict in
           ret (refdict, clusterdict)
       end.

Definition map_reads_to_references (pe_reads : fragment)
    (tid_tx_map : gmap Z TranscriptFeature) : M heap (bins * bins) :=
  for_each (enumerate (mates pe_reads))
    (fun dicts '(readnum, reads) =>
       for_each reads (bin_read tid_tx_map readnum) dicts)
    ([], []).

(** ** Helpers of [chimerascan.lib.sam] *)

(** Modelled from the spec: [copy_read] is not in the sources at hand.  It
    returns a new record with the attributes of [r]. *)
Definition copy_read (r : ref) : M heap ref :=
  fun h => Ok (length h, h ++ [deref h r]).

(** Modelled from the spec: [pair_reads] is not in the sources at hand.  It
    writes the given tags into the tag list of both records (section 4.3,
    side effect); [tags] defaults to the empty list. *)
Definition pair_reads (r1 r2 : ref) (ts : list tag) : M heap unit :=
  exec modify (fun h => <[r1 := add_tags ts (deref h r1)]> h);
  modify (fun h => <[r2 := add_tags ts (deref h r2)]> h).

Definition pair_score (h : heap) (p : ref * ref) : Z :=
  alignment_score (deref h p.1) + alignment_score (deref h p.2).

Definition max_score (scores : list Z) : Z :=
  match scores with
  | [] => 0
  | s :: ss => fold_left Z.max ss s
  end.

(** Modelled from the spec: [select_best_scoring_pairs] is not in the sources
    at hand.  Given candidate pairs, each scored by the sum of its mates'
    alignment scores, it returns those that reach the maximum, ties kept
    (section 6). *)
Definition select_best_scoring_pairs (pairs : list (ref * ref))
  : M heap (list (ref * ref)) :=
  gets (fun h =>
          let best := max_score (map (pair_score h) pairs) in
          filter (fun p => pair_score h p = best) pairs).

(** ** Cross-gene pairing *)

(** The body of the loop of [classify_unpaired_reads] (lines 60-70). *)
Definition classify_unpaired_read (lt : library_type)
    (hits : list ref * list ref) (r : ref) : M heap (list ref * list ref) :=
  let '(gene_hits_5p, gene_hits_3p) := hits in
  do rd <- gets (fun h => deref h r);
  let orientation := get_orientation rd lt in
  let hits :=
    if decide (orientation = ORIENTATION_5P)
    then (gene_hits_5p ++ [r], gene_hits_3p)
    else (gene_hits_5p, gene_hits_3p ++ [r]) in
  exec modify (fun h =>
         <[r := add_tags [DiscordantTag DISCORDANT_GENE;
                          OrientationTag orientation] (deref h r)]> h);
  ret hits.

Definition classify_unpaired_reads (reads : list ref) (lt : library_type)
  : M heap (list ref * list ref) :=
  for_each reads (classify_unpaired_read lt) ([], []).

(** The body of the innermost loop of [find_discordant_pairs] (lines
    90-93). *)
Definition copy_pair (gene_pairs : list (ref * ref)) (r1 r2 : ref)
  : M heap (list (ref * ref)) :=
  do cr1 <- copy_read r1;
  do cr2 <- copy_read r2;
  exec pair_reads cr1 cr2 [];
  ret (gene_pairs ++ [(cr1, cr2)]).

Definition find_discordant_pairs (pe_reads : fragment) (lt : library_type)
  : M heap (list (ref * ref)) :=
  do '(r1_5p_gene_hits, r1_3p_gene_hits) <- classify_unpaired_reads pe_reads.1 lt;
  do '(r2_5p_gene_hits, r2_3p_gene_hits) <- classify_unpaired_reads pe_reads.2 lt;
  let combos := [(r1_5p_gene_hits, r2_3p_gene_hits);
                 (r1_3p_gene_hits, r2_5p_gene_hits)] in
  for_each combos
    (fun gene_pairs '(r1_list, r2_list) =>
       for_each r1_list
         (fun gene_pairs r1 =>
            for_each r2_list (fun gene_pairs r2 => copy_pair gene_pairs r1 r2)
                     gene_pairs)
         gene_pairs)
    [].

(** ** Pair classifier *)

(** The loop variables of a pairing stage: [found_pair] and the stage's two
    pair lists. *)
Definition stage_state := (bool * list (ref * ref) * list (ref * ref))%type.

(** [same_strand == (r1.is_reverse == r2.is_reverse)] (lines 131, 158) *)
Definition strand_compatible (same_strand_lib : bool) (rd1 rd2 : AlignedRead)
  : bool :=
  eqb same_strand_lib (eqb (is_reverse rd1) (is_reverse rd2)).

(** The body of the innermost loop (lines 130-146 and 157-169): the candidate
    [(r1, r2)] is copied, filed as concordant or strand-discordant and
    tagged. *)
Definition pair_candidate (same_strand_lib : bool)
    (concordant_tag discordant_tag : DiscordantTags)
    (st : stage_state) (r1 r2 : ref) : M heap stage_state :=
  let '(_, concordant_pairs, discordant_pairs) := st in
  do rd1 <- gets (fun h => deref h r1);
  do rd2 <- gets (fun h => deref h r2);
  let strand_match := strand_compatible same_strand_lib rd1 rd2 in
  do cr1 <- copy_read r1;
  do cr2 <- copy_read r2;
  if strand_match then
    exec pair_reads cr1 cr2 [DiscordantTag concordant_tag];
    ret (true, concordant_pairs ++ [(cr1, cr2)], discordant_pairs)
  else
    exec pair_reads cr1 cr2 [DiscordantTag discordant_tag];
    ret (true, concordant_pairs, discordant_pairs ++ [(cr1, cr2)]).

(** One pairing stage: the loop over [refdict.iteritems()] (lines 123-146) or
    over [clusterdict.iteritems()] (lines 150-169). *)
Definition pair_stage (same_strand_lib : bool)
    (concordant_tag discordant_tag : DiscordantTags)
    (d : bins) (st : stage_state) : M heap stage_state :=
  for_each d
    (fun st '(_, bin_pe_reads) =>
       if (length bin_pe_reads.1 =? 0)%nat || (length bin_pe_reads.2 =? 0)%nat
       then ret st
       else
         for_each bin_pe_reads.1
           (fun st r1 =>
              for_each bin_pe_reads.2
                (fun st r2 =>
                   pair_candidate same_strand_lib concordant_tag
                                  discordant_tag st r1 r2)
                st)
           st)
    st.

(** States 1 and 2 (lines 120-169): the four pair lists, in the order
    concordant transcript, discordant transcript, concordant cluster,
    discordant cluster. *)
Definition pairing_stages (pe_reads : fragment) (lt : library_type)
    (tid_tx_map : gmap Z TranscriptFeature)
  : M heap (list (ref * ref) * list (ref * ref)
            * list (ref * ref) * list (ref * ref)) :=
  let same_strand_lib := same_strand lt in
  do '(refdict, clusterdict) <- map_reads_to_references pe_reads tid_tx_map;
  do '(found_pair, concordant_tx_pairs, discordant_tx_pairs) <-
    pair_stage same_strand_lib CONCORDANT_TX DISCORDANT_STRAND_TX
               refdict (false, [], []);
  if negb found_pair then
    do '(_, concordant_cluster_pairs, discordant_cluster_pairs) <-
      pair_stage same_strand_lib CONCORDANT_GENE DISCORDANT_STRAND_GENE
                 clusterdict (found_pair, [], []);
    ret (concordant_tx_pairs, discordant_tx_pairs,
         concordant_cluster_pairs, discordant_cluster_pairs)
  else
    ret (concordant_tx_pairs, discordant_tx_pairs, [], []).

(** [gene_pairs = []; if len(a) > 0: gene_pairs = a; elif len(b) > 0:
    gene_pairs = b] *)
Definition first_nonempty {A} (a b : list A) : list A :=
  if (0 <? length a)%nat then a
  else if (0 <? length b)%nat then b
  else [].

(** The result is the pair list and the unpaired reads: the latter is [[]] or
    [pe_reads] itself. *)
Definition classify_read_pairs (pe_reads : fragment) (max_isize : Z)
    (lt : library_type) (tid_tx_map : gmap Z TranscriptFeature)
  : M heap (list (ref * ref) * list (list ref)) :=
  do '(concordant_tx_pairs, discordant_tx_pairs,
       concordant_cluster_pairs, discordant_cluster_pairs) <-
    pairing_stages pe_reads lt tid_tx_map;
  let gene_pairs := first_nonempty concordant_tx_pairs concordant_cluster_pairs in
  if (0 <? length gene_pairs)%nat then ret (gene_pairs, [])
  else
    let gene_pairs :=
      first_nonempty discordant_tx_pairs discordant_cluster_pairs in
    if (0 <? length gene_pairs)%nat then ret (gene_pairs, [])
    else
      do gene_pairs <- find_discordant_pairs pe_reads lt;
      if (0 <? length gene_pairs)%nat then
        do gene_pairs <- select_best_scoring_pairs gene_pairs;
        ret (gene_pairs, [])
      else ret ([], mates pe_reads).

(** ** Fragment dispatcher *)

(** Run a classifier computation on the object store of the world. *)
Definition on_objects {A} (m : M heap A) : M world A :=
  fun w => match m (objects w) with
           | Ok (a, h) =>
               Ok (a, mkWorld h (paired_bam w) (discordant_bam w)
                              (unpaired_bam w) (multimap_bam w))
           | Raise e => Raise e
           end.

(** Evaluate a function that only reads the object store. *)
Definition reading {A} (f : heap -> result A) : M world A :=
  fun w => match f (objects w) with
           | Ok a => Ok (a, w)
           | Raise e => Raise e
           end.

(** [fh.write(r)] *)
Definition samfile_write (fh : samfile) (r : ref) : M world unit :=
  modify (fun w =>
    let rd := deref (objects w) r in
    match fh with
    | pairedfh =>
        mkWorld (objects w) (paired_bam w ++ [rd]) (discordant_bam w)
                (unpaired_bam w) (multimap_bam w)
    | discordantfh =>
        mkWorld (objects w) (paired_bam w) (discordant_bam w ++ [rd])
                (unpaired_bam w) (multimap_bam w)
    | unpairedfh =>
        mkWorld (objects w) (paired_bam w) (discordant_bam w)
                (unpaired_bam w ++ [rd]) (multimap_bam w)
    | multimapfh =>
        mkWorld (objects w) (paired_bam w) (discordant_bam w)
                (unpaired_bam w) (multimap_bam w ++ [rd])
    end).

(** [def write_pe_reads(pe_reads, bamfh)] (line 207).  Python checks neither
    argument: the outer loop iterates whatever [pe_reads] is, and
    [bamfh.write] is looked up when the first record is reached.  A record
    that an iterated handle yields is not itself iterable. *)
Definition write_pe_reads (pe_reads bamfh : pyobj) : M world unit :=
  match pe_reads with
  | PyReads lists =>
      for_each lists
        (fun _ reads =>
           for_each reads
             (fun _ r =>
                match bamfh with
                | PySamfile fh => samfile_write fh r
                | PyReads _ => raise AttributeError
                end)
             tt)
        tt
  | PySamfile fh =>
      match iter_output_samfile fh with
      | Raise e => raise e
      | Ok O => ret tt
      | Ok (S _) => raise TypeError
      end
  end.

(** [r.opt(DISCORDANT_TAG_NAME)]: the value of the first tag of that name *)
Fixpoint opt_discordant (ts : list tag) : result DiscordantTags :=
  match ts with
  | [] => Raise KeyError
  | DiscordantTag d :: _ => Ok d
  | _ :: ts' => opt_discordant ts'
  end.

Definition write_pairs (pairs : list (ref * ref))
    (paired_out discordant_out : samfile) : M world unit :=
  for_each pairs
    (fun _ '(r1, r2) =>
       do dr1 <- reading (fun h => opt_discordant (tags (deref h r1)));
       do dr2 <- reading (fun h => opt_discordant (tags (deref h r2)));
       if negb (bool_decide (dr1 = DISCORDANT_GENE))
          || negb (bool_decide (dr2 = DISCORDANT_GENE))
       then exec samfile_write paired_out r1; samfile_write paired_out r2
       else exec samfile_write discordant_out r1;
            samfile_write discordant_out r2)
    tt.

(** The body of the loop over [parse_pe_reads(bamfh)] (lines 262-284). *)
Definition dispatch_fragment (tid_tx_map : gmap Z TranscriptFeature)
    (tid_tx_genome_map : gmap Z genome_entry)
    (max_isize max_multihits : Z) (lt : library_type)
    (pe_reads : fragment) : M world unit :=
  do hits0 <- reading (fun h =>
                count_transcriptome_multimaps h pe_reads.1 tid_tx_genome_map);
  do hits1 <- reading (fun h =>
                count_transcriptome_multimaps h pe_reads.2 tid_tx_genome_map);
  if (Nat.min hits0 hits1 =? 0)%nat then
    write_pe_reads (PySamfile unpairedfh) (PyReads (mates pe_reads))
  else if max_multihits <? Z.of_nat (Nat.max hits0 hits1) then
    write_pe_reads (PySamfile multimapfh) (PyReads (mates pe_reads))
  else
    do '(gene_pairs, unpaired_reads) <-
      on_objects (classify_read_pairs pe_reads max_isize lt tid_tx_map);
    if (0 <? length gene_pairs)%nat then
      write_pairs gene_pairs pairedfh discordantfh
    else
      write_pe_reads (PyReads unpaired_reads) (PySamfile unpairedfh).

(** The loop of [find_discordant_fragments] over the fragments that
    [parse_pe_reads] yields. *)
Definition find_discordant_fragments (tid_tx_map : gmap Z TranscriptFeature)
    (tid_tx_genome_map : gmap Z genome_entry)
    (max_isize max_multihits : Z) (lt : library_type)
    (fragments : list fragment) : M world unit :=
  for_each fragments
    (fun _ pe_reads =>
       dispatch_fragment tid_tx_map tid_tx_genome_map max_isize
                         max_multihits lt pe_reads)
    tt.

End Classifier.

(** ** Vocabulary of the statements *)

(** A record is mapped and its reference id is in the table. *)
Definition known_in {V} (m : gmap Z V) (h : heap) (r : ref) : Prop :=
  is_unmapped (deref h r) = false ∧ is_Some (m !! tid (deref h r)).

(** A record is mapped and its reference id is not in the table. *)
Definition missing_in {V} (m : gmap Z V) (h : heap) (r : ref) : Prop :=
  is_unmapped (deref h r) = false ∧ m !! tid (deref h r) = None.

(** The invariant of section 3: a mapped record has its reference id in the
    table. *)
Definition covered_by {V} (m : gmap Z V) (h : heap) (r : ref) : Prop :=
  is_unmapped (deref h r) = false → is_Some (m !! tid (deref h r)).

(** Both records of a pair exist and the tag written last into each is
    [(DISCORDANT_TAG_NAME, t)]. *)
Definition pair_tagged (h : heap) (t : DiscordantTags) (p : ref * ref)
  : Prop :=
  (p.1 < length h)%nat ∧ (p.2 < length h)%nat
  ∧ last (tags (deref h p.1)) = Some (DiscordantTag t)
  ∧ last (tags (deref h p.2)) = Some (DiscordantTag t).

(** What a pairing stage keeps true of its loop variables: the objects that
    existed at [h0] are as they were and two objects were added per filed
    pair, [found_pair] is set exactly when a pair has been filed, and the
    filed pairs carry the tag of their list. *)
Definition stage_invariant (h0 : heap) (c d : DiscordantTags)
    (st : stage_state) (h : heap) : Prop :=
  (∃ ext, h = h0 ++ ext
          ∧ length ext = (2 * length (st.1.2 ++ st.2))%nat)
  ∧ (st.1.1 = true ↔ st.1.2 ++ st.2 ≠ [])
  ∧ Forall (pair_tagged h c) st.1.2
  ∧ Forall (pair_tagged h d) st.2.

(** [r.is_reverse = not r.is_reverse] on the record *)
Definition negate_strand (rd : AlignedRead) : AlignedRead :=
  mkRead (tid rd) (pos rd) (aend rd) (negb (is_reverse rd)) (is_unmapped rd)
         (alignment_score rd) (tags rd).

(** The store in which the strand bit of object [r] is negated. *)
Definition negate_strand_at (r : ref) (h : heap) : heap :=
  <[r := negate_strand (deref h r)]> h.

(** Every record of the fragment is an object of the store, and no object
    occurs twice in the fragment (the reader builds one object per alignment
    line). *)
Definition fragment_wf (h : heap) (pe : fragment) : Prop :=
  NoDup (pe.1 ++ pe.2) ∧ Forall (λ r, (r < length h)%nat) (pe.1 ++ pe.2).

Section CrossGeneVocabulary.
Context {collab : Collaborators}.

(** The record after lines 69-70 of [classify_unpaired_reads]. *)
Definition tag_unpaired (lt : library_type) (rd : AlignedRead) : AlignedRead :=
  add_tags [DiscordantTag DISCORDANT_GENE;
            OrientationTag (get_orientation rd lt)] rd.

(** The record goes to the 5' list (line 63). *)
Definition is_5p (lt : library_type) (h : heap) (r : ref) : Prop :=
  get_orientation (deref h r) lt = ORIENTATION_5P.

#[global] Instance is_5p_dec lt h r : Decision (is_5p lt h r).
Proof. unfold is_5p. apply _. Defined.

(** (mate1 5' x mate2 3') followed by (mate1 3' x mate2 5'), in the order of
    the loops of [find_discordant_pairs]. *)
Definition opposite_orientation_candidates (lt : library_type) (h : heap)
    (pe : fragment) : list (ref * ref) :=
  list_prod (filter (is_5p lt h) pe.1) (filter (λ r, ¬ is_5p lt h r) pe.2)
  ++ list_prod (filter (λ r, ¬ is_5p lt h r) pe.1) (filter (is_5p lt h) pe.2).

(** In the store [hf], the pair [p] is a copy of the candidate [cand] of the
    store [h], each record with its cross-gene tags. *)
Definition copy_of (lt : library_type) (hf h : heap) (cand p : ref * ref)
  : Prop :=
  (p.1 < length hf)%nat ∧ (p.2 < length hf)%nat
  ∧ deref hf p.1 = tag_unpaired lt (deref h cand.1)
  ∧ deref hf p.2 = tag_unpaired lt (deref h cand.2).

(** The store [ht] is [h] with the cross-gene tags added to the records of
    the fragment and nothing else changed. *)
Definition fragment_tagged (lt : library_type) (h : heap) (pe : fragment)
    (ht : heap) : Prop :=
  length ht = length h
  ∧ ∀ r, deref ht r = if decide (r ∈ pe.1 ++ pe.2)
                      then tag_unpaired lt (deref h r) else deref h r.

End CrossGeneVocabulary.

(** The tag lists of the two records of each returned pair, read in the
    store that the classifier leaves. *)
Definition returned_tags
    (res : result (list (ref * ref) * list (list ref) * heap))
  : list (list tag * list tag) :=
  match res with
  | Ok (gene_pairs, _, h) =>
      map (λ p : ref * ref, (tags (deref h p.1), tags (deref h p.2)))
          gene_pairs
  | Raise _ => []
  end.

(** ** Vocabulary for the binner and the writers *)

(** [d[key]] read without creating the entry: the bucket filed under [key],
    or two empty lists. *)
Fixpoint bucket (key : Z) (d : bins) : list ref * list ref :=
  match d with
  | [] => ([], [])
  | (k, pairs) :: d' => if decide (k = key) then pairs else bucket key d'
  end.

(** A mapped record on reference [k]. *)
Definition on_reference (h : heap) (k : Z) (r : ref) : Prop :=
  is_unmapped (deref h r) = false ∧ tid (deref h r) = k.

#[global] Instance on_reference_dec h k r : Decision (on_reference h k r).
Proof. unfold on_reference. apply _. Defined.

(** A mapped record whose transcript is in cluster [c]. *)
Definition in_cluster (txm : gmap Z TranscriptFeature) (h : heap) (c : Z)
    (r : ref) : Prop :=
  is_unmapped (deref h r) = false
  ∧ cluster_id <$> txm !! tid (deref h r) = Some c.

#[global] Instance in_cluster_dec txm h c r : Decision (in_cluster txm h c r).
Proof. unfold in_cluster. apply _. Defined.

(** [pairs[readnum].extend(l)]: what filing the records of [l] one by one
    does to a bucket. *)
Definition extend_mate (readnum : nat) (l : list ref)
    (pairs : list ref * list ref) : list ref * list ref :=
  match readnum with
  | O => (pairs.1 ++ l, pairs.2)
  | S _ => (pairs.1, pairs.2 ++ l)
  end.

(** Some bucket has a record of each mate (the test of lines 125 and 152
    fails for it). *)
Definition pairable (d : bins) : Prop :=
  Exists (λ e : Z * (list ref * list ref), e.2.1 ≠ [] ∧ e.2.2 ≠ []) d.

(** No key occurs twice and no bucket is empty. *)
Definition bins_wf (d : bins) : Prop :=
  NoDup d.*1
  ∧ Forall (λ e : Z * (list ref * list ref), e.2.1 ++ e.2.2 ≠ []) d.

(** In the store [h], the pair [p] consists of two objects created after
    [h0] that are the records of the candidate [cand] as they were in [h0],
    each with the tag [(DISCORDANT_TAG_NAME, t)] appended; [b] is the outcome
    of the strand test on the candidate. *)
Definition stage_copy (h0 h : heap) (s : bool) (t : DiscordantTags) (b : bool)
    (cand p : ref * ref) : Prop :=
  strand_compatible s (deref h0 cand.1) (deref h0 cand.2) = b
  ∧ (length h0 ≤ p.1 < length h)%nat ∧ (length h0 ≤ p.2 < length h)%nat
  ∧ deref h p.1 = add_tags [DiscordantTag t] (deref h0 cand.1)
  ∧ deref h p.2 = add_tags [DiscordantTag t] (deref h0 cand.2).

(** The candidate takes its first record from the mate-1 list and its second
    from the mate-2 list of one bucket. *)
Definition bin_candidate (d : bins) (cand : ref * ref) : Prop :=
  ∃ k l1 l2, (k, (l1, l2)) ∈ d ∧ cand.1 ∈ l1 ∧ cand.2 ∈ l2.

(** What a pairing stage keeps true of the pairs it has filed. *)
Definition stage_copies_invariant (h0 : heap) (d : bins) (s : bool)
    (c t : DiscordantTags) (st : stage_state) (h : heap) : Prop :=
  (∃ ext, h = h0 ++ ext)
  ∧ Forall (λ p, ∃ cand, bin_candidate d cand
                         ∧ stage_copy h0 h s c true cand p) st.1.2
  ∧ Forall (λ p, ∃ cand, bin_candidate d cand
                         ∧ stage_copy h0 h s t false cand p) st.2.

(** The pair [p] is a tagged copy of a mate-1 record and a mate-2 record of
    the fragment that have a key in common. *)
Definition pair_from (pe : fragment) (P : Z → ref → Prop) (h0 h : heap)
    (s : bool) (t : DiscordantTags) (b : bool) (p : ref * ref) : Prop :=
  ∃ r1 r2 k, r1 ∈ pe.1 ∧ r2 ∈ pe.2 ∧ P k r1 ∧ P k r2
             ∧ stage_copy h0 h s t b (r1, r2) p.

(** The records written so far through a handle. *)
Definition channel (fh : samfile) (w : world) : list AlignedRead :=
  match fh with
  | pairedfh => paired_bam w
  | discordantfh => discordant_bam w
  | unpairedfh => unpaired_bam w
  | multimapfh => multimap_bam w
  end.

#[global] Instance exn_eq_dec : EqDecision exn.
Proof. solve_decision. Defined.

#[global] Instance result_eq_dec {A} `{EqDecision A} : EqDecision (result A).
Proof. solve_decision. Defined.

(** The world after the records [recs] have been written through [fh]. *)
Definition write_records (fh : samfile) (recs : list AlignedRead) (w : world)
  : world :=
  match fh with
  | pairedfh =>
      mkWorld (objects w) (paired_bam w ++ recs) (discordant_bam w)
              (unpaired_bam w) (multimap_bam w)
  | discordantfh =>
      mkWorld (objects w) (paired_bam w) (discordant_bam w ++ recs)
              (unpaired_bam w) (multimap_bam w)
  | unpairedfh =>
      mkWorld (objects w) (paired_bam w) (discordant_bam w)
              (unpaired_bam w ++ recs) (multimap_bam w)
  | multimapfh =>
      mkWorld (objects w) (paired_bam w) (discordant_bam w)
              (unpaired_bam w) (multimap_bam w ++ recs)
  end.

(** The two records of a pair, as [write_pairs] writes them. *)
Definition pair_records (h : heap) (p : ref * ref) : list AlignedRead :=
  [deref h p.1; deref h p.2].

(** Both records of the pair answer DISCORDANT_GENE to
    [opt(DISCORDANT_TAG_NAME)] (the test of lines 219-220 fails). *)
Definition both_discordant_gene (h : heap) (p : ref * ref) : Prop :=
  opt_discordant (tags (deref h p.1)) = Ok DISCORDANT_GENE
  ∧ opt_discordant (tags (deref h p.2)) = Ok DISCORDANT_GENE.

#[global] Instance both_discordant_gene_dec h p :
  Decision (both_discordant_gene h p).
Proof. unfold both_discordant_gene. apply _. Defined.

(** Each record of the pair has a tag named DISCORDANT_TAG_NAME. *)
Definition pair_has_discordant_tags (h : heap) (p : ref * ref) : Prop :=
  (∃ d, opt_discordant (tags (deref h p.1)) = Ok d)
  ∧ (∃ d, opt_discordant (tags (deref h p.2)) = Ok d).

(** The record has no tag named DISCORDANT_TAG_NAME. *)
Definition untagged (rd : AlignedRead) : Prop :=
  opt_discordant (tags rd) = Raise KeyError.

(** A record of mate 1 and a record of mate 2 have a key in common. *)
Definition mates_share (P : Z → ref → Prop) (pe : fragment) : Prop :=
  ∃ r1 r2 k, r1 ∈ pe.1 ∧ r2 ∈ pe.2 ∧ P k r1 ∧ P k r2.

(** The two records of the candidate [c], each changed by [f]. *)
Definition changed_records (f : AlignedRead → AlignedRead) (h : heap)
    (c : ref * ref) : list AlignedRead :=
  [f (deref h c.1); f (deref h c.2)].

(** * src/lib/extend_sequences.py *)

(** [r.opt(name)] for a tag written by the aligner: the value of the first
    tag of that name, KeyError when the record has none.  The two tags that
    find_discordant_reads.py adds have names of their own and are passed
    over. *)
Fixpoint opt_tag (name : string) (ts : list tag) : result Z :=
  match ts with
  | [] => Raise KeyError
  | AlignerTag n v :: ts' => if decide (n = name) then Ok v else opt_tag name ts'
  | _ :: ts' => opt_tag name ts'
  end.

(** What [sam_stdin_to_bam] has produced so far: the records written to
    [bamfh] and the two counters that it logs at the end. *)
Record sam_state := mkSam {
  bam_out : list AlignedRead;
  num_unmapped : nat;
  num_multihits : nat
}.

(** [bamfh.write(r)] *)
Definition bam_write (r : AlignedRead) : M sam_state unit :=
  modify (fun s => mkSam (bam_out s ++ [r]) (num_unmapped s) (num_multihits s)).

(** The body of the loop [for r in samfh] (lines 51-60). *)
Definition sam_record (multihits : Z) (r : AlignedRead) : M sam_state unit :=
  if is_unmapped r then
    do xm_tag <- (fun s => match opt_tag "XM" (tags r) with
                           | Ok v => Ok (v, s)
                           | Raise e => Raise e
                           end);
    if xm_tag <? multihits then
      modify (fun s => mkSam (bam_out s) (S (num_unmapped s)) (num_multihits s))
    else
      exec modify (fun s => mkSam (bam_out s) (num_unmapped s)
                                  (S (num_multihits s)));
      bam_write r
  else bam_write r.

(** [sam_stdin_to_bam(output_bam_file, multihits)] (line 46); [samfh] is the
    sequence of records read from the standard input, and the result is the
    content of the output file with the two logged counters. *)
Definition sam_stdin_to_bam (samfh : list AlignedRead) (multihits : Z)
  : result sam_state :=
  match for_each samfh (fun _ r => sam_record multihits r) tt (mkSam [] 0 0) with
  | Ok (_, s) => Ok s
  | Raise e => Raise e
  end.

(** The XM value of the record is at least [m]. *)
Definition xm_at_least (m : Z) (r : AlignedRead) : Prop :=
  match opt_tag "XM" (tags r) with
  | Ok v => m ≤ v
  | Raise _ => False
  end.

(** The XM value of the record is below [m]. *)
Definition xm_below (m : Z) (r : AlignedRead) : Prop :=
  match opt_tag "XM" (tags r) with
  | Ok v => v < m
  | Raise _ => False
  end.

#[global] Instance xm_at_least_dec m r : Decision (xm_at_least m r).
Proof. unfold xm_at_least. destruct (opt_tag "XM" (tags r)); apply _. Defined.

#[global] Instance xm_below_dec m r : Decision (xm_below m r).
Proof. unfold xm_below. destruct (opt_tag "XM" (tags r)); apply _. Defined.

(** A mapped record, or an unmapped one with at least [m] hits. *)
Definition sam_kept (m : Z) (r : AlignedRead) : Prop :=
  is_unmapped r = false ∨ xm_at_least m r.

(** An unmapped record with fewer than [m] hits. *)
Definition sam_filtered (m : Z) (r : AlignedRead) : Prop :=
  is_unmapped r = true ∧ xm_below m r.

(** An unmapped record with at least [m] hits. *)
Definition sam_multihit (m : Z) (r : AlignedRead) : Prop :=
  is_unmapped r = true ∧ xm_at_least m r.

#[global] Instance sam_kept_dec m r : Decision (sam_kept m r).
Proof. unfold sam_kept. apply _. Defined.

#[global] Instance sam_filtered_dec m r : Decision (sam_filtered m r).
Proof. unfold sam_filtered. apply _. Defined.

#[global] Instance sam_multihit_dec m r : Decision (sam_multihit m r).
Proof. unfold sam_multihit. apply _. Defined.

(** An unmapped record has an XM tag. *)
Definition xm_present (r : AlignedRead) : Prop :=
  is_unmapped r = true → ∃ v, opt_tag "XM" (tags r) = Ok v.

(** An unmapped record without an XM tag. *)
Definition xm_missing (r : AlignedRead) : Prop :=
  is_unmapped r = true ∧ opt_tag "XM" (tags r) = Raise KeyError.

(** An aligner output: a mapped read, an unmapped read with 40 hits, one
    with 3 hits, a second mapped read, and an unmapped read without XM. *)
Definition example_sam : list AlignedRead :=
  [ mkRead 0 5 30 false false 50 [AlignerTag "NM" 1];
    mkRead (-1) 0 0 false true 0 [AlignerTag "XM" 40];
    mkRead (-1) 0 0 false true 0 [AlignerTag "NM" 0; AlignerTag "XM" 3];
    mkRead 1 5 30 true false 40 [];
    mkRead (-1) 0 0 false true 0 [] ].

(** ** Example inputs

    A concrete instance of the collaborators and a small annotation, used to
    evaluate the definitions. *)

(** Genome entries are (genome reference, offset); orientation is 5' for a
    forward read and 3' for a reverse read; the library ["ff"] expects both
    mates on the same strand; what iterating an output handle does is left
    open, and in [example_collaborators] it yields nothing. *)
Definition example_collaborators_with (iter : samfile → result nat)
  : Collaborators := {|
  genome_entry := (Z * Z)%type;
  transcript_to_genome_pos := fun t p m =>
    match m !! t with
    | Some (g, off) => (g, false, off + p)
    | None => (-1, false, p)
    end;
  same_strand := fun lt => bool_decide (lt = "ff"%string);
  ORIENTATION_5P := 1;
  get_orientation := fun r _ => if is_reverse r then 2 else 1;
  iter_output_samfile := iter
|}.

Definition example_collaborators : Collaborators :=
  example_collaborators_with (λ _, Ok 0%nat).

(** Transcripts 0 and 1 are isoforms of one gene (cluster 10) laid over the
    same genome interval; transcript 2 is another gene (cluster 20). *)
Definition example_genome_map : gmap Z (Z * Z) :=
  <[0 := (7, 100)]> (<[1 := (7, 100)]> (<[2 := (8, 0)]> ∅)).

Definition example_tx_map : gmap Z TranscriptFeature :=
  <[0 := mkTranscript 10]> (<[1 := mkTranscript 10]>
    (<[2 := mkTranscript 20]> ∅)).

(** Objects 0-2: forward reads on transcripts 0, 1, 2; object 3: a reverse
    read on transcript 2; object 4: an unmapped read; object 5: a mapped read
    on a transcript (9) that is in neither table; object 6: a second forward
    read on transcript 0; objects 7 and 8: reverse reads on transcripts 0
    and 1. *)
Definition example_heap : heap :=
  [ mkRead 0 5 30 false false 50 [];
    mkRead 1 5 30 false false 40 [];
    mkRead 2 5 30 false false 40 [];
    mkRead 2 60 85 true false 30 [];
    mkRead (-1) 0 0 false true 0 [];
    mkRead 9 5 30 false false 40 [];
    mkRead 0 120 145 false false 45 [];
    mkRead 0 120 145 true false 45 [];
    mkRead 1 120 145 true false 35 [] ].

Definition example_world : world := mkWorld example_heap [] [] [] [].

(** A world after a classification: objects 0 and 1 are a cross-gene pair,
    objects 2 and 3 a concordant pair, and object 4 has no discordant tag;
    one record is already in the paired file. *)
Definition example_tagged_world : world :=
  mkWorld
    [ mkRead 0 5 30 false false 50 [DiscordantTag DISCORDANT_GENE];
      mkRead 2 60 85 true false 30 [DiscordantTag DISCORDANT_GENE];
      mkRead 0 5 30 false false 50 [DiscordantTag CONCORDANT_TX];
      mkRead 0 120 145 true false 45 [DiscordantTag CONCORDANT_TX];
      mkRead 1 5 30 false false 40 [] ]
    [mkRead 1 5 30 false false 40 []] [] [] [].

(** * Properties *)

Section Properties.
Context {collab : Collaborators}.

Implicit Types (h : heap) (r : ref) (reads : list ref) (pe : fragment).

Lemma covered_or_missing {V} (m : gmap Z V) h r :
  covered_by m h r ∨ missing_in m h r.
Proof.
  unfold covered_by, missing_in.
  destruct (is_unmapped (deref h r)); [left; discriminate|].
  destruct (m !! tid (deref h r)); [left; eauto | right; auto].
Qed.

Lemma Forall_covered_or_Exists_missing {V} (m : gmap Z V) h reads :
  Forall (covered_by m h) reads ∨ Exists (missing_in m h) reads.
Proof.
  induction reads as [|r reads IH]; [left; constructor|].
  destruct (covered_or_missing m h r) as [Hc|Hm]; [|right; by left].
  destruct IH as [IH|IH]; [left; by constructor | right; by right].
Qed.

Lemma missing_not_covered {V} (m : gmap Z V) h r :
  missing_in m h r → ¬ covered_by m h r.
Proof.
  intros [Hu Hn] Hc. destruct (Hc Hu) as [x Hx]. congruence.
Qed.

(** ** The multimap resolver *)

Lemma count_loop_known h m reads hits :
  Forall (known_in m h) reads →
  count_loop h m reads hits
  = Ok (size (list_to_set ((λ r, locus_key m (deref h r)) <$> reads) ∪ hits)).
Proof.
  intros Hk. revert hits.
  induction Hk as [|r reads [Hu [g Hg]] _ IH]; intros hits;
    cbn [count_loop].
  - by rewrite fmap_nil, list_to_set_nil, (left_id_L ∅ (∪)).
  - rewrite Hu, Hg, IH, fmap_cons, list_to_set_cons.
    by rewrite (assoc_L (∪)), (comm_L (∪) (list_to_set _)).
Qed.

Lemma count_loop_reaches_unmapped h m pre u post hits :
  Forall (covered_by m h) pre →
  is_unmapped (deref h u) = true →
  count_loop h m (pre ++ u :: post) hits = Ok 0%nat.
Proof.
  intros Hc Hu. revert hits.
  induction Hc as [|r pre Hr _ IH]; intros hits; simpl.
  - by rewrite Hu.
  - destruct (is_unmapped (deref h r)) eqn:E; [done|].
    destruct (Hr E) as [g ->]. apply IH.
Qed.

Lemma count_loop_reaches_missing h m pre r post hits :
  Forall (λ r', is_unmapped (deref h r') = false) pre →
  missing_in m h r →
  count_loop h m (pre ++ r :: post) hits = Raise AssertionError.
Proof.
  intros Hp [Hu Hn]. revert hits.
  induction Hp as [|r' pre Hr' _ IH]; intros hits; simpl.
  - by rewrite Hu, Hn.
  - rewrite Hr'. destruct (m !! tid (deref h r')); [apply IH | done].
Qed.

Lemma count_loop_covered h m reads hits :
  Forall (covered_by m h) reads →
  ∃ n, count_loop h m reads hits = Ok n.
Proof.
  intros Hc. revert hits.
  induction Hc as [|r reads Hr _ IH]; intros hits; simpl; [eauto|].
  destruct (is_unmapped (deref h r)) eqn:E; [eauto|].
  destruct (Hr E) as [g ->]. apply IH.
Qed.

Lemma count_loop_zero_or_raise h m reads hits :
  Exists (λ r, is_unmapped (deref h r) = true) reads →
  count_loop h m reads hits = Ok 0%nat
  ∨ count_loop h m reads hits = Raise AssertionError.
Proof.
  intros Hex. revert hits.
  induction reads as [|r reads IH]; intros hits; [by inversion Hex|].
  simpl. destruct (is_unmapped (deref h r)) eqn:E; [by left|].
  destruct (m !! tid (deref h r)); [|by right].
  apply IH. inversion Hex; subst; [congruence | done].
Qed.

Lemma locus_key_projections (m : gmap Z genome_entry) (rd : AlignedRead) :
  locus_key m rd
  = ((transcript_to_genome_pos (tid rd) (pos rd) m).1.1,
     (transcript_to_genome_pos (tid rd) (pos rd) m).2,
     (transcript_to_genome_pos (tid rd) (aend rd - 1) m).2).
Proof.
  unfold locus_key.
  destruct (transcript_to_genome_pos (tid rd) (pos rd) m) as [[lt ls] lp].
  by destruct (transcript_to_genome_pos (tid rd) (aend rd - 1) m)
    as [[rt rs] rp].
Qed.

(** C6, as the code has it.  The locus key of a record is the genome
    reference and the position that [transcript_to_genome_pos] gives for its
    start, with the position that it gives for its end-1.  On the empty list
    the resolver returns 0.  On a list whose records are all mapped, with
    their reference ids in the table, it returns the number of distinct keys
    of the records; so two such records count as one locus when their keys
    are equal, whatever their transcript references, and as two when their
    keys differ.  On a list with a record that has the unmapped flag it
    returns 0, whatever the keys of the other records are. *)
Theorem multimap_count_is_number_of_distinct_loci h
    (m : gmap Z genome_entry) :
  let key := λ r : ref,
    let rd := deref h r in
    let first := transcript_to_genome_pos (tid rd) (pos rd) m in
    let last := transcript_to_genome_pos (tid rd) (aend rd - 1) m in
    (first.1.1, first.2, last.2) in
  count_transcriptome_multimaps h [] m = Ok 0%nat
  ∧ (∀ reads,
       Forall (known_in m h) reads →
       count_transcriptome_multimaps h reads m
       = Ok (size (list_to_set (key <$> reads) : gset (Z * Z * Z))))
  ∧ (∀ r1 r2,
       known_in m h r1 → known_in m h r2 →
       count_transcriptome_multimaps h [r1; r2] m
       = Ok (if decide (key r1 = key r2) then 1%nat else 2%nat))
  ∧ (∀ reads,
       Forall (covered_by m h) reads →
       Exists (λ r, is_unmapped (deref h r) = true) reads →
       count_transcriptome_multimaps h reads m = Ok 0%nat).
Proof.
  intros key.
  assert (∀ reads,
            Forall (known_in m h) reads →
            count_transcriptome_multimaps h reads m
            = Ok (size (list_to_set (key <$> reads) : gset (Z * Z * Z))))
    as Hcount.
  { intros reads Hk. unfold count_transcriptome_multimaps.
    rewrite count_loop_known by done. rewrite (right_id_L ∅ (∪)).
    do 3 f_equal. apply list_fmap_ext. intros _ r _.
    apply locus_key_projections. }
  split; [reflexivity|]. split; [exact Hcount|]. split.
  - intros r1 r2 H1 H2.
    rewrite Hcount by (by repeat apply Forall_cons_2).
    rewrite !fmap_cons, fmap_nil, !list_to_set_cons, list_to_set_nil.
    rewrite !(right_id_L ∅ (∪)).
    destruct (decide (key r1 = key r2)) as [->|Hne].
    + by rewrite (idemp_L (∪)), size_singleton.
    + rewrite size_union by (by apply disjoint_singleton_l,
                                 not_elem_of_singleton).
      by rewrite !size_singleton.
  - intros reads Hcov Hex. unfold count_transcriptome_multimaps.
    destruct (count_loop_covered h m reads ∅ Hcov) as [n Hn].
    destruct (count_loop_zero_or_raise h m reads ∅ Hex) as [E|E];
      [done | congruence].
Qed.

(** ** Running monadic code *)

Lemma bind_ok {S A B} (m : M S A) (k : A → M S B) s a s' :
  m s = Ok (a, s') → bind m k s = k a s'.
Proof. unfold bind. by intros ->. Qed.

Lemma bind_raise {S A B} (m : M S A) (k : A → M S B) s e :
  m s = Raise e → bind m k s = Raise e.
Proof. unfold bind. by intros ->. Qed.

Lemma bind_ok_inv {S A B} (m : M S A) (k : A → M S B) s b s2 :
  bind m k s = Ok (b, s2) →
  ∃ a s1, m s = Ok (a, s1) ∧ k a s1 = Ok (b, s2).
Proof.
  unfold bind. destruct (m s) as [[a s1]|e]; [eauto | discriminate].
Qed.

Lemma for_each_app {S A B} (l1 l2 : list A) (body : B → A → M S B) acc s :
  for_each (l1 ++ l2) body acc s
  = bind (for_each l1 body acc) (for_each l2 body) s.
Proof.
  revert acc s. induction l1 as [|x l1 IH]; intros acc s; [reflexivity|].
  simpl. unfold bind at 1 3.
  destruct (body acc x s) as [[acc' s']|e] eqn:E.
  - rewrite IH. unfold bind at 2. by rewrite E.
  - unfold bind. by rewrite E.
Qed.

(** A loop whose body keeps an invariant and never raises runs to the end
    and keeps the invariant. *)
Lemma for_each_invariant {S A B} (I : B → S → Prop) (l : list A)
    (body : B → A → M S B) :
  (∀ acc x s, x ∈ l → I acc s →
     ∃ acc' s', body acc x s = Ok (acc', s') ∧ I acc' s') →
  ∀ acc s, I acc s →
    ∃ acc' s', for_each l body acc s = Ok (acc', s') ∧ I acc' s'.
Proof.
  induction l as [|x l IH]; intros Hbody acc s HI; [by eexists _, _|].
  destruct (Hbody acc x s) as (acc1 & s1 & Hb & HI1);
    [apply list_elem_of_here | done |].
  simpl. rewrite (bind_ok _ _ _ _ _ Hb).
  apply IH; [|done]. intros acc2 y s2 Hy. apply Hbody.
  by apply list_elem_of_further.
Qed.

Lemma for_each_total {S A B} (l : list A) (body : B → A → M S B) :
  (∀ acc x s, ∃ acc' s', body acc x s = Ok (acc', s')) →
  ∀ acc s, ∃ acc' s', for_each l body acc s = Ok (acc', s').
Proof.
  intros Hbody acc s.
  destruct (for_each_invariant (λ _ _, True) l body) with (acc := acc) (s := s)
    as (acc' & s' & Hrun & _); [|done|by eexists _, _].
  intros acc1 x s1 _ _. destruct (Hbody acc1 x s1) as (a & b & ->).
  by eexists _, _.
Qed.

(** ** The binner *)

Lemma bin_read_covered (txm : gmap Z TranscriptFeature) k h r d :
  covered_by txm h r → ∃ d', bin_read txm k d r h = Ok (d', h).
Proof.
  intros Hc. unfold bin_read, bind, gets, ret. destruct d as [rd cd].
  destruct (is_unmapped (deref h r)) eqn:E; [eauto|].
  destruct (Hc E) as [tx ->]. eauto.
Qed.

Lemma bin_read_missing (txm : gmap Z TranscriptFeature) k h r d :
  missing_in txm h r → bin_read txm k d r h = Raise AssertionError.
Proof.
  intros [Hu Hn]. unfold bin_read, bind, gets. destruct d as [rd cd].
  by rewrite Hu, Hn.
Qed.

Lemma bin_loop_covered (txm : gmap Z TranscriptFeature) k h reads d :
  Forall (covered_by txm h) reads →
  ∃ d', for_each reads (bin_read txm k) d h = Ok (d', h).
Proof.
  intros Hc. revert d.
  induction Hc as [|r reads Hr _ IH]; intros d; [by eexists|].
  destruct (bin_read_covered txm k h r d Hr) as [d1 Hd1].
  simpl. rewrite (bind_ok _ _ _ _ _ Hd1). apply IH.
Qed.

Lemma bin_loop_missing (txm : gmap Z TranscriptFeature) k h reads d :
  Exists (missing_in txm h) reads →
  for_each reads (bin_read txm k) d h = Raise AssertionError.
Proof.
  revert d. induction reads as [|r reads IH]; intros d Hex;
    [by inversion Hex|].
  simpl. destruct (covered_or_missing txm h r) as [Hc|Hm].
  - destruct (bin_read_covered txm k h r d Hc) as [d1 Hd1].
    rewrite (bind_ok _ _ _ _ _ Hd1). apply IH.
    inversion Hex; subst; [|done]. by destruct (missing_not_covered txm h r).
  - by rewrite (bind_raise _ _ _ _ (bin_read_missing txm k h r d Hm)).
Qed.

Lemma map_reads_unfold pe (txm : gmap Z TranscriptFeature) h :
  map_reads_to_references pe txm h
  = bind (for_each pe.1 (bin_read txm 0) ([], []))
         (λ d, for_each pe.2 (bin_read txm 1) d) h.
Proof.
  unfold map_reads_to_references. simpl. unfold bind.
  destruct (for_each pe.1 (bin_read txm 0) ([], []) h) as [[d h1]|e]; [|done].
  by destruct (for_each pe.2 (bin_read txm 1) d h1) as [[d2 h2]|e].
Qed.

Lemma map_reads_covered pe (txm : gmap Z TranscriptFeature) h :
  Forall (covered_by txm h) (pe.1 ++ pe.2) →
  ∃ d, map_reads_to_references pe txm h = Ok (d, h).
Proof.
  intros [H1 H2]%Forall_app. rewrite map_reads_unfold.
  destruct (bin_loop_covered txm 0%nat h pe.1 ([], []) H1) as [d1 Hd1].
  rewrite (bind_ok _ _ _ _ _ Hd1). by apply bin_loop_covered.
Qed.

Lemma map_reads_missing pe (txm : gmap Z TranscriptFeature) h :
  Exists (missing_in txm h) (pe.1 ++ pe.2) →
  map_reads_to_references pe txm h = Raise AssertionError.
Proof.
  intros Hex. rewrite map_reads_unfold.
  destruct (Forall_covered_or_Exists_missing txm h pe.1) as [Hc|Hm].
  - destruct (bin_loop_covered txm 0%nat h pe.1 ([], []) Hc) as [d1 Hd1].
    rewrite (bind_ok _ _ _ _ _ Hd1). apply bin_loop_missing.
    apply Exists_app in Hex as [Hex|Hex]; [|done].
    exfalso. apply Exists_exists in Hex as (r & Hr & Hm).
    apply (missing_not_covered txm h r Hm).
    by apply (proj1 (Forall_forall _ _) Hc).
  - by rewrite (bind_raise _ _ _ _ (bin_loop_missing txm 0%nat h pe.1 _ Hm)).
Qed.

(** ** The object store *)

Lemma deref_app_l h ext r : (r < length h)%nat → deref (h ++ ext) r = deref h r.
Proof. apply lookup_total_app_l. Qed.

Lemma deref_app_length h x ext : deref (h ++ x :: ext) (length h) = x.
Proof. apply list_lookup_total_middle. done. Qed.

Lemma insert_app_length h (x y : AlignedRead) ext :
  <[length h := y]> (h ++ x :: ext) = h ++ y :: ext.
Proof.
  rewrite <- (Nat.add_0_r (length h)) at 1. by rewrite insert_app_r.
Qed.

Lemma add_tags_nil rd : add_tags [] rd = rd.
Proof. destruct rd. unfold add_tags, set_tags. simpl. by rewrite app_nil_r. Qed.

Lemma last_add_tags t rd : last (tags (add_tags [t] rd)) = Some t.
Proof. unfold add_tags. simpl. apply last_snoc. Qed.

Lemma pair_reads_fresh h a b ts :
  pair_reads (length h) (S (length h)) ts (h ++ [a; b])
  = Ok (tt, h ++ [add_tags ts a; add_tags ts b]).
Proof.
  unfold pair_reads, bind, modify. f_equal. f_equal.
  rewrite deref_app_length, insert_app_length.
  replace (h ++ [add_tags ts a; b]) with ((h ++ [add_tags ts a]) ++ [b])
    by by rewrite <- app_assoc.
  replace (S (length h)) with (length (h ++ [add_tags ts a]))
    by (rewrite length_app; simpl; lia).
  rewrite deref_app_length, insert_app_length. by rewrite <- app_assoc.
Qed.

(** The two copies that a candidate pair adds to the store. *)
Lemma copy_both_run {A} h r1 r2 (k : ref → ref → M heap A) :
  (do cr1 <- copy_read r1; do cr2 <- copy_read r2; k cr1 cr2) h
  = k (length h) (S (length h))
      (h ++ [deref h r1; deref (h ++ [deref h r1]) r2]).
Proof.
  unfold bind, copy_read. rewrite <- app_assoc. simpl.
  replace (length (h ++ [deref h r1])) with (S (length h))
    by (rewrite length_app; simpl; lia).
  done.
Qed.

Lemma pair_candidate_run s c d found cl dl r1 r2 h :
  let t := if strand_compatible s (deref h r1) (deref h r2) then c else d in
  pair_candidate s c d (found, cl, dl) r1 r2 h
  = Ok (if strand_compatible s (deref h r1) (deref h r2)
        then (true, cl ++ [(length h, S (length h))], dl)
        else (true, cl, dl ++ [(length h, S (length h))]),
        h ++ [add_tags [DiscordantTag t] (deref h r1);
              add_tags [DiscordantTag t] (deref (h ++ [deref h r1]) r2)]).
Proof.
  intros t. subst t. unfold pair_candidate.
  unfold bind at 1. unfold gets at 1. unfold bind at 1. unfold gets at 1.
  destruct (strand_compatible s (deref h r1) (deref h r2));
    rewrite copy_both_run; unfold bind; by rewrite pair_reads_fresh.
Qed.

Lemma copy_pair_run gp r1 r2 h :
  copy_pair gp r1 r2 h
  = Ok (gp ++ [(length h, S (length h))],
        h ++ [deref h r1; deref (h ++ [deref h r1]) r2]).
Proof.
  unfold copy_pair. rewrite copy_both_run. unfold bind.
  by rewrite pair_reads_fresh, !add_tags_nil.
Qed.

(** ** The pairing stages *)

Lemma deref_app_second h x y : deref (h ++ [x; y]) (S (length h)) = y.
Proof.
  replace (h ++ [x; y]) with ((h ++ [x]) ++ [y]) by by rewrite <- app_assoc.
  replace (S (length h)) with (length (h ++ [x]))
    by (rewrite length_app; simpl; lia).
  apply deref_app_length.
Qed.

Lemma pair_tagged_ext h ext t p :
  pair_tagged h t p → pair_tagged (h ++ ext) t p.
Proof.
  intros (H1 & H2 & H3 & H4). unfold pair_tagged.
  rewrite !deref_app_l, length_app by done. repeat split; [lia | lia | done..].
Qed.

Lemma pair_tagged_fresh h t a b :
  pair_tagged (h ++ [add_tags [DiscordantTag t] a; add_tags [DiscordantTag t] b])
              t (length h, S (length h)).
Proof.
  unfold pair_tagged. simpl.
  rewrite deref_app_length, deref_app_second, !last_add_tags, length_app.
  simpl. repeat split; lia.
Qed.

Lemma pair_candidate_invariant h0 s c d st r1 r2 h :
  stage_invariant h0 c d st h →
  ∃ st' h', pair_candidate s c d st r1 r2 h = Ok (st', h')
            ∧ stage_invariant h0 c d st' h'.
Proof.
  destruct st as [[found cl] dl]. intros ((ext & -> & Hlen) & _ & Hc & Hd).
  rewrite pair_candidate_run. eexists _, _. split; [done|].
  simpl in Hc, Hd, Hlen. rewrite length_app in Hlen.
  destruct (strand_compatible s _ _); unfold stage_invariant; simpl.
  - split; [eexists; split; [by rewrite <- app_assoc|];
            rewrite !length_app; simpl; lia|].
    split; [split; [intros _ | done]; by destruct cl|].
    split; [|eapply Forall_impl; [exact Hd | intros; by apply pair_tagged_ext]].
    apply Forall_app. split;
      [eapply Forall_impl; [exact Hc | intros; by apply pair_tagged_ext]|].
    apply Forall_cons_2; [apply pair_tagged_fresh | constructor].
  - split; [eexists; split; [by rewrite <- app_assoc|];
            rewrite !length_app; simpl; lia|].
    split; [split; [intros _ | done]; by destruct cl, dl|].
    split; [eapply Forall_impl; [exact Hc | intros; by apply pair_tagged_ext]|].
    apply Forall_app. split;
      [eapply Forall_impl; [exact Hd | intros; by apply pair_tagged_ext]|].
    apply Forall_cons_2; [apply pair_tagged_fresh | constructor].
Qed.

Lemma pair_stage_invariant h0 s c d (bs : bins) st h :
  stage_invariant h0 c d st h →
  ∃ st' h', pair_stage s c d bs st h = Ok (st', h')
            ∧ stage_invariant h0 c d st' h'.
Proof.
  unfold pair_stage. apply for_each_invariant.
  intros st1 [k [l1 l2]] h1 _ Hinv. simpl.
  destruct ((length l1 =? 0)%nat || (length l2 =? 0)%nat);
    [by eexists _, _|].
  revert st1 h1 Hinv. apply for_each_invariant.
  intros st2 r1 h2 _ Hinv. revert st2 h2 Hinv. apply for_each_invariant.
  intros st3 r2 h3 _ Hinv. by apply pair_candidate_invariant.
Qed.

Lemma stage_invariant_start h c d found :
  found = false → stage_invariant h c d (found, [], []) h.
Proof.
  intros ->. unfold stage_invariant. simpl.
  split; [exists []; by rewrite app_nil_r|].
  split; [split; done|]. split; constructor.
Qed.

Lemma pairing_stages_inv pe lt (txm : gmap Z TranscriptFeature) h
    ctx dtx ccl dcl h2 :
  pairing_stages pe lt txm h = Ok (ctx, dtx, ccl, dcl, h2) →
  ∃ refdict clusterdict h0 found h1,
    map_reads_to_references pe txm h = Ok (refdict, clusterdict, h0)
    ∧ pair_stage (same_strand lt) CONCORDANT_TX DISCORDANT_STRAND_TX
                 refdict (false, [], []) h0 = Ok (found, ctx, dtx, h1)
    ∧ ((found = true ∧ ccl = [] ∧ dcl = [] ∧ h2 = h1)
       ∨ (found = false
          ∧ ∃ found2,
              pair_stage (same_strand lt) CONCORDANT_GENE
                         DISCORDANT_STRAND_GENE clusterdict (false, [], []) h1
              = Ok (found2, ccl, dcl, h2))).
Proof.
  unfold pairing_stages. intros Hrun.
  apply bind_ok_inv in Hrun as ([refdict clusterdict] & h0 & Hbin & Hrun).
  apply bind_ok_inv in Hrun as ([[found ctx'] dtx'] & h1 & Hst1 & Hrun).
  exists refdict, clusterdict, h0, found, h1.
  destruct found; simpl in Hrun.
  - unfold ret in Hrun. injection Hrun as <- <- <- <- <-.
    split; [done|]. split; [done|]. left. done.
  - apply bind_ok_inv in Hrun as ([[found2 ccl'] dcl'] & h2' & Hst2 & Hrun).
    unfold ret in Hrun. injection Hrun as <- <- <- <- <-.
    split; [done|]. split; [done|]. right. split; [done|]. by exists found2.
Qed.

Lemma pairing_stages_tagged pe lt (txm : gmap Z TranscriptFeature) h
    ctx dtx ccl dcl h2 :
  pairing_stages pe lt txm h = Ok (ctx, dtx, ccl, dcl, h2) →
  Forall (pair_tagged h2 CONCORDANT_TX) ctx
  ∧ Forall (pair_tagged h2 DISCORDANT_STRAND_TX) dtx
  ∧ Forall (pair_tagged h2 CONCORDANT_GENE) ccl
  ∧ Forall (pair_tagged h2 DISCORDANT_STRAND_GENE) dcl.
Proof.
  intros (refdict & clusterdict & h0 & found & h1 & _ & Hst1 & Hcase)
    %pairing_stages_inv.
  destruct (pair_stage_invariant h0 (same_strand lt) CONCORDANT_TX
              DISCORDANT_STRAND_TX refdict (false, [], []) h0)
    as (st1 & h1' & Hst1' & _ & _ & Hc1 & Hd1);
    [by apply stage_invariant_start|].
  rewrite Hst1 in Hst1'. injection Hst1' as <- <-. simpl in Hc1, Hd1.
  destruct Hcase as [(-> & -> & -> & ->)|(-> & found2 & Hst2)];
    [repeat split; done || constructor|].
  destruct (pair_stage_invariant h1 (same_strand lt) CONCORDANT_GENE
              DISCORDANT_STRAND_GENE clusterdict (false, [], []) h1)
    as (st2 & h2' & Hst2' & (ext & -> & _) & _ & Hc2 & Hd2);
    [by apply stage_invariant_start|].
  rewrite Hst2 in Hst2'. injection Hst2' as <- ->. simpl in Hc2, Hd2.
  repeat split; [| |done..];
    (eapply Forall_impl; [eassumption | intros; by apply pair_tagged_ext]).
Qed.

(** C4.  Once the same-reference stage has filed a candidate pair, concordant
    or not, the same-cluster stage is not run: the classifier's pair lists
    are those of the reference stage, the cluster lists are empty and the
    store is as the reference stage left it.  Cluster-level pairs therefore
    come only with no reference-level candidate. *)
Theorem reference_candidates_preempt_cluster_stage
    pe lt (txm : gmap Z TranscriptFeature) h
    refdict clusterdict found ctx dtx h1 :
  map_reads_to_references pe txm h = Ok (refdict, clusterdict, h) →
  pair_stage (same_strand lt) CONCORDANT_TX DISCORDANT_STRAND_TX
             refdict (false, [], []) h = Ok (found, ctx, dtx, h1) →
  (found = true ↔ ctx ++ dtx ≠ [])
  ∧ (ctx ++ dtx ≠ [] →
     pairing_stages pe lt txm h = Ok (ctx, dtx, [], [], h1))
  ∧ (∀ ccl dcl h2,
       pairing_stages pe lt txm h = Ok (ctx, dtx, ccl, dcl, h2) →
       ccl ++ dcl ≠ [] → ctx ++ dtx = []).
Proof.
  intros Hbin Hst1.
  destruct (pair_stage_invariant h (same_strand lt) CONCORDANT_TX
              DISCORDANT_STRAND_TX refdict (false, [], []) h)
    as (st1 & h1' & Hst1' & _ & Hfound & _);
    [by apply stage_invariant_start|].
  rewrite Hst1 in Hst1'. injection Hst1' as <- <-. simpl in Hfound.
  split; [done|]. split.
  - intros Hne. apply Hfound in Hne as ->.
    unfold pairing_stages.
    rewrite (bind_ok _ _ _ _ _ Hbin). by rewrite (bind_ok _ _ _ _ _ Hst1).
  - intros ccl dcl h2 Hrun Hne.
    apply pairing_stages_inv in Hrun
      as (rd' & cd' & h0' & found' & h1' & Hbin' & Hst1' & Hcase).
    rewrite Hbin in Hbin'. injection Hbin' as <- <- <-.
    rewrite Hst1 in Hst1'. injection Hst1' as <- <-.
    destruct Hcase as [(_ & -> & -> & _)|(-> & _)]; [done|].
    destruct (ctx ++ dtx) eqn:E; [done|].
    by discriminate (proj2 Hfound).
Qed.

Lemma pairing_stages_total pe lt (txm : gmap Z TranscriptFeature) h :
  Forall (covered_by txm h) (pe.1 ++ pe.2) →
  ∃ ctx dtx ccl dcl h1,
    pairing_stages pe lt txm h = Ok (ctx, dtx, ccl, dcl, h1).
Proof.
  intros [[refdict clusterdict] Hbin]%(map_reads_covered pe txm h).
  destruct (pair_stage_invariant h (same_strand lt) CONCORDANT_TX
              DISCORDANT_STRAND_TX refdict (false, [], []) h)
    as ([[found ctx] dtx] & h1 & Hst1 & _);
    [by apply stage_invariant_start|].
  unfold pairing_stages.
  rewrite (bind_ok _ _ _ _ _ Hbin), (bind_ok _ _ _ _ _ Hst1).
  destruct found; simpl; [by eexists _, _, _, _, _|].
  destruct (pair_stage_invariant h1 (same_strand lt) CONCORDANT_GENE
              DISCORDANT_STRAND_GENE clusterdict (false, [], []) h1)
    as ([[found2 ccl] dcl] & h2 & Hst2 & _);
    [by apply stage_invariant_start|].
  rewrite (bind_ok _ _ _ _ _ Hst2). by eexists _, _, _, _, _.
Qed.

Lemma pairing_stages_missing pe lt (txm : gmap Z TranscriptFeature) h :
  Exists (missing_in txm h) (pe.1 ++ pe.2) →
  pairing_stages pe lt txm h = Raise AssertionError.
Proof.
  intros Hex. unfold pairing_stages.
  by rewrite (bind_raise _ _ _ _ (map_reads_missing pe txm h Hex)).
Qed.

(** ** Selection among the produced candidates *)

(** C5.  At the selection step the classifier returns, with an empty
    residual, all pairs of the first non-empty list among: the CONCORDANT_TX
    pairs, the CONCORDANT_GENE pairs, the DISCORDANT_STRAND_TX pairs, the
    DISCORDANT_STRAND_GENE pairs; each list holds the pairs whose two records
    were tagged with that value. *)
Theorem selection_returns_first_nonempty_class
    pe max_isize lt (txm : gmap Z TranscriptFeature) h
    ctx dtx ccl dcl h1 :
  pairing_stages pe lt txm h = Ok (ctx, dtx, ccl, dcl, h1) →
  (Forall (pair_tagged h1 CONCORDANT_TX) ctx
   ∧ Forall (pair_tagged h1 CONCORDANT_GENE) ccl
   ∧ Forall (pair_tagged h1 DISCORDANT_STRAND_TX) dtx
   ∧ Forall (pair_tagged h1 DISCORDANT_STRAND_GENE) dcl)
  ∧ (ctx ≠ [] →
     classify_read_pairs pe max_isize lt txm h = Ok (ctx, [], h1))
  ∧ (ctx = [] → ccl ≠ [] →
     classify_read_pairs pe max_isize lt txm h = Ok (ccl, [], h1))
  ∧ (ctx = [] → ccl = [] → dtx ≠ [] →
     classify_read_pairs pe max_isize lt txm h = Ok (dtx, [], h1))
  ∧ (ctx = [] → ccl = [] → dtx = [] → dcl ≠ [] →
     classify_read_pairs pe max_isize lt txm h = Ok (dcl, [], h1)).
Proof.
  intros Hst. split.
  { by destruct (pairing_stages_tagged _ _ _ _ _ _ _ _ _ Hst)
      as (? & ? & ? & ?). }
  unfold classify_read_pairs. rewrite (bind_ok _ _ _ _ _ Hst).
  repeat split.
  - intros Hne. by destruct ctx.
  - intros -> Hne. by destruct ccl.
  - intros -> -> Hne. by destruct dtx.
  - intros -> -> -> Hne. by destruct dcl.
Qed.

(** ** Cross-gene pairing *)

Lemma max_score_fold ss s : fold_left Z.max ss s ∈ s :: ss.
Proof.
  revert s. induction ss as [|x ss IH]; intros s; simpl;
    [apply list_elem_of_here|].
  pose proof (IH (Z.max s x)) as Hm. apply elem_of_cons in Hm as [Hm|Hm].
  - rewrite Hm.
    destruct (Z.max_spec s x) as [[_ ->]|[_ ->]];
      [apply list_elem_of_further|]; apply list_elem_of_here.
  - by do 2 apply list_elem_of_further.
Qed.

Lemma select_best_scoring_pairs_keeps_one (gp : list (ref * ref)) h :
  gp ≠ [] →
  ∃ best, select_best_scoring_pairs gp h = Ok (best, h)
          ∧ best ≠ [] ∧ best ⊆ gp.
Proof.
  intros Hne. unfold select_best_scoring_pairs, gets. eexists. split; [done|].
  split; [|intros p Hp; by apply list_elem_of_filter in Hp as [_ ?]].
  destruct gp as [|p gp]; [done|]. cbn [map max_score].
  pose proof (max_score_fold (map (pair_score h) gp) (pair_score h p)) as Hin.
  change (pair_score h p :: map (pair_score h) gp)
    with (map (pair_score h) (p :: gp)) in Hin.
  apply list_elem_of_In, in_map_iff in Hin as (q & Hq & Hin).
  apply list_elem_of_In in Hin.
  intros Hnil. by apply (filter_nil_not_elem_of _ _ q Hnil Hq).
Qed.

Lemma classify_unpaired_read_total lt hits r h :
  ∃ hits' h', classify_unpaired_read lt hits r h = Ok (hits', h').
Proof.
  destruct hits as [a5 a3].
  unfold classify_unpaired_read, bind, gets, modify, ret. by eexists _, _.
Qed.

Lemma find_discordant_pairs_total pe lt h :
  ∃ gp h', find_discordant_pairs pe lt h = Ok (gp, h').
Proof.
  unfold find_discordant_pairs, classify_unpaired_reads.
  destruct (for_each_total pe.1 (classify_unpaired_read lt)
              (classify_unpaired_read_total lt) ([], []) h)
    as ([a5 a3] & h1 & H1).
  rewrite (bind_ok _ _ _ _ _ H1).
  destruct (for_each_total pe.2 (classify_unpaired_read lt)
              (classify_unpaired_read_total lt) ([], []) h1)
    as ([b5 b3] & h2 & H2).
  rewrite (bind_ok _ _ _ _ _ H2).
  apply for_each_total. intros gp1 [l1 l2] s1.
  apply for_each_total. intros gp2 r1 s2.
  apply for_each_total. intros gp3 r2 s3.
  rewrite copy_pair_run. by eexists _, _.
Qed.

(** ** The classifier as a whole *)

(** C8.  The classifier returns either a non-empty pair list with an empty
    residual or an empty pair list with the mate lists of the fragment as
    residual: never both non-empty, and never both empty when each mate has
    an alignment.  It returns whenever every mapped record has its reference
    id in the table, and raises the assertion error otherwise. *)
Theorem classifier_output_is_exclusive
    pe max_isize lt (txm : gmap Z TranscriptFeature) h :
  match classify_read_pairs pe max_isize lt txm h with
  | Ok (gene_pairs, unpaired, h') =>
      ((gene_pairs ≠ [] ∧ unpaired = [])
       ∨ (gene_pairs = [] ∧ unpaired = mates pe))
      ∧ (gene_pairs = [] ∨ concat unpaired = [])
      ∧ (pe.1 ≠ [] → pe.2 ≠ [] → gene_pairs ≠ [] ∨ concat unpaired ≠ [])
  | Raise e =>
      e = AssertionError ∧ Exists (missing_in txm h) (pe.1 ++ pe.2)
  end.
Proof.
  assert (∀ (gp : list (ref * ref)) (h' : heap), gp ≠ [] →
            ((gp ≠ [] ∧ @nil (list ref) = [])
             ∨ (gp = [] ∧ [] = mates pe))
            ∧ (gp = [] ∨ concat (@nil (list ref)) = [])
            ∧ (pe.1 ≠ [] → pe.2 ≠ [] →
               gp ≠ [] ∨ concat (@nil (list ref)) ≠ [])) as Hpaired.
  { intros gp _ Hne. split; [by left|]. split; [by right | by left]. }
  destruct (Forall_covered_or_Exists_missing txm h (pe.1 ++ pe.2))
    as [Hcov|Hmiss].
  - destruct (pairing_stages_total pe lt txm h Hcov)
      as (ctx & dtx & ccl & dcl & h1 & Hst).
    unfold classify_read_pairs. rewrite (bind_ok _ _ _ _ _ Hst).
    destruct ctx as [|p ctx]; [|by apply Hpaired].
    destruct ccl as [|p ccl]; [|by apply Hpaired].
    destruct dtx as [|p dtx]; [|by apply Hpaired].
    destruct dcl as [|p dcl]; [|by apply Hpaired].
    simpl.
    destruct (find_discordant_pairs_total pe lt h1) as (gp & h2 & Hfd).
    rewrite (bind_ok _ _ _ _ _ Hfd).
    destruct gp as [|p gp]; cbn [length Nat.ltb Nat.leb].
    + unfold ret. split; [by right|]. split; [by left|].
      intros Hne1 _. right. unfold mates. simpl.
      by destruct pe.1.
    + destruct (select_best_scoring_pairs_keeps_one (p :: gp) h2)
        as (best & Hbest & Hne & _); [done|].
      rewrite (bind_ok _ _ _ _ _ Hbest). unfold ret. by apply Hpaired.
  - unfold classify_read_pairs.
    by rewrite (bind_raise _ _ _ _ (pairing_stages_missing pe lt txm h Hmiss)).
Qed.

(** ** The strand bit *)

Lemma deref_negate_eq r h :
  (r < length h)%nat →
  deref (negate_strand_at r h) r = negate_strand (deref h r).
Proof. intros Hr. by apply list_lookup_total_insert_eq. Qed.

Lemma deref_negate_ne r r' h :
  r ≠ r' → deref (negate_strand_at r h) r' = deref h r'.
Proof. intros Hne. by apply list_lookup_total_insert_ne. Qed.

Lemma length_negate r h : length (negate_strand_at r h) = length h.
Proof. apply length_insert. Qed.

Lemma strand_compatible_negate_l s rd1 rd2 :
  strand_compatible s (negate_strand rd1) rd2
  = negb (strand_compatible s rd1 rd2).
Proof.
  unfold strand_compatible, negate_strand. simpl.
  by destruct s, (is_reverse rd1), (is_reverse rd2).
Qed.

Lemma strand_compatible_negate_r s rd1 rd2 :
  strand_compatible s rd1 (negate_strand rd2)
  = negb (strand_compatible s rd1 rd2).
Proof.
  unfold strand_compatible, negate_strand. simpl.
  by destruct s, (is_reverse rd1), (is_reverse rd2).
Qed.

(** The tag that a candidate pair receives is decided by the strand test. *)
Lemma pair_candidate_tagged s c d st r1 r2 h :
  ∃ st' h',
    pair_candidate s c d st r1 r2 h = Ok (st', h')
    ∧ pair_tagged h'
        (if strand_compatible s (deref h r1) (deref h r2) then c else d)
        (length h, S (length h)).
Proof.
  destruct st as [[found cl] dl]. rewrite pair_candidate_run.
  eexists _, _. split; [done|]. apply pair_tagged_fresh.
Qed.

(** C2, as the code has it.  For a same-reference candidate pair and a fixed
    library type, negating the strand bit of exactly one mate exchanges
    CONCORDANT_TX and DISCORDANT_STRAND_TX; negating the strand bit of both
    mates leaves the tag as it was. *)
Theorem negating_one_strand_flips_tag lt st r1 r2 h :
  r1 ≠ r2 → (r1 < length h)%nat → (r2 < length h)%nat →
  let candidate :=
    pair_candidate (same_strand lt) CONCORDANT_TX DISCORDANT_STRAND_TX
                   st r1 r2 in
  let p := (length h, S (length h)) in
  ∃ t t',
    ((t = CONCORDANT_TX ∧ t' = DISCORDANT_STRAND_TX)
     ∨ (t = DISCORDANT_STRAND_TX ∧ t' = CONCORDANT_TX))
    ∧ (∃ st' h', candidate h = Ok (st', h') ∧ pair_tagged h' t p)
    ∧ (∃ st' h', candidate (negate_strand_at r1 h) = Ok (st', h')
                 ∧ pair_tagged h' t' p)
    ∧ (∃ st' h', candidate (negate_strand_at r2 h) = Ok (st', h')
                 ∧ pair_tagged h' t' p)
    ∧ (∃ st' h',
         candidate (negate_strand_at r2 (negate_strand_at r1 h))
         = Ok (st', h')
         ∧ pair_tagged h' t p).
Proof.
  intros Hne Hr1 Hr2 candidate p. subst candidate p.
  pose proof (pair_candidate_tagged (same_strand lt) CONCORDANT_TX
                DISCORDANT_STRAND_TX st r1 r2) as Hrun.
  pose proof (Hrun h) as H0.
  pose proof (Hrun (negate_strand_at r1 h)) as H1.
  pose proof (Hrun (negate_strand_at r2 h)) as H2.
  pose proof (Hrun (negate_strand_at r2 (negate_strand_at r1 h))) as H3.
  rewrite !length_negate in H1, H2, H3.
  rewrite deref_negate_eq, deref_negate_ne, strand_compatible_negate_l
    in H1 by done.
  rewrite deref_negate_eq, (deref_negate_ne r2 r1), strand_compatible_negate_r
    in H2 by done.
  rewrite deref_negate_eq, (deref_negate_ne r2 r1), deref_negate_eq,
    deref_negate_ne, strand_compatible_negate_l, strand_compatible_negate_r,
    negb_involutive in H3 by (by rewrite ?length_negate).
  rewrite ?length_negate in H3.
  destruct (strand_compatible (same_strand lt) (deref h r1) (deref h r2));
    simpl in H1, H2.
  - exists CONCORDANT_TX, DISCORDANT_STRAND_TX. split; [by left|done].
  - exists DISCORDANT_STRAND_TX, CONCORDANT_TX. split; [by right|done].
Qed.

(** ** Missing reference ids *)

(** C9, as the code has it.  A mapped record whose reference id is not in
    the table raises the assertion error when the loop reaches it: in the
    binner, and so in the classifier, every record of the fragment is
    reached; in the multimap counter a record is reached when no unmapped
    record stands before it in the list.  When every mapped record has its
    reference id in the table, neither function raises. *)
Theorem missing_reference_raises_when_reached h
    (gm : gmap Z genome_entry) (txm : gmap Z TranscriptFeature) :
  (∀ pe max_isize lt,
     Exists (missing_in txm h) (pe.1 ++ pe.2) →
     map_reads_to_references pe txm h = Raise AssertionError
     ∧ classify_read_pairs pe max_isize lt txm h = Raise AssertionError)
  ∧ (∀ pre r post,
       Forall (λ r', is_unmapped (deref h r') = false) pre →
       missing_in gm h r →
       count_transcriptome_multimaps h (pre ++ r :: post) gm
       = Raise AssertionError)
  ∧ (∀ pe,
       Forall (covered_by txm h) (pe.1 ++ pe.2) →
       ∃ dicts, map_reads_to_references pe txm h = Ok (dicts, h))
  ∧ (∀ reads,
       Forall (covered_by gm h) reads →
       ∃ n, count_transcriptome_multimaps h reads gm = Ok n).
Proof.
  split; [|split; [|split]].
  - intros pe max_isize lt Hmiss. split; [by apply map_reads_missing|].
    unfold classify_read_pairs.
    by rewrite (bind_raise _ _ _ _ (pairing_stages_missing pe lt txm h Hmiss)).
  - intros pre r post Hpre Hmiss. by apply count_loop_reaches_missing.
  - intros pe. apply map_reads_covered.
  - intros reads. apply count_loop_covered.
Qed.

(** ** Unmapped records *)

Lemma count_unmapped_covered h (gm : gmap Z genome_entry) reads :
  Forall (covered_by gm h) reads →
  Exists (λ r, is_unmapped (deref h r) = true) reads →
  count_transcriptome_multimaps h reads gm = Ok 0%nat.
Proof.
  intros Hcov Hex. unfold count_transcriptome_multimaps.
  destruct (count_loop_covered h gm reads ∅ Hcov) as [n Hn].
  destruct (count_loop_zero_or_raise h gm reads ∅ Hex) as [E|E];
    [done | congruence].
Qed.

Lemma reading_ok {A} (f : heap → result A) w a :
  f (objects w) = Ok a → reading f w = Ok (a, w).
Proof. unfold reading. by intros ->. Qed.

(** C10.  The multimap counter returns 0 as soon as its loop reaches a record
    with the unmapped flag, whatever records were counted before and
    whatever follows; so a non-empty list can have count 0, and the
    dispatcher takes its unpaired branch (line 270) for a fragment with an
    unmapped record in one of its mate lists, without running the
    classifier. *)
Theorem unmapped_record_gives_zero_count h
    (gm : gmap Z genome_entry) (txm : gmap Z TranscriptFeature)
    max_isize max_multihits lt :
  (∀ pre u post,
     Forall (covered_by gm h) pre →
     is_unmapped (deref h u) = true →
     pre ++ u :: post ≠ []
     ∧ count_transcriptome_multimaps h (pre ++ u :: post) gm = Ok 0%nat)
  ∧ (∀ pe w,
       objects w = h →
       Forall (covered_by gm h) (pe.1 ++ pe.2) →
       Exists (λ r, is_unmapped (deref h r) = true) (pe.1 ++ pe.2) →
       dispatch_fragment txm gm max_isize max_multihits lt pe w
       = write_pe_reads (PySamfile unpairedfh) (PyReads (mates pe)) w).
Proof.
  split.
  - intros pre u post Hcov Hu. split; [by destruct pre|].
    by apply count_loop_reaches_unmapped.
  - intros pe w <- [Hc1 Hc2]%Forall_app Hex.
    destruct (count_loop_covered (objects w) gm pe.1 ∅ Hc1) as [n1 Hn1].
    destruct (count_loop_covered (objects w) gm pe.2 ∅ Hc2) as [n2 Hn2].
    unfold dispatch_fragment.
    rewrite (bind_ok _ _ _ _ _ (reading_ok _ w n1 Hn1)).
    rewrite (bind_ok _ _ _ _ _ (reading_ok _ w n2 Hn2)).
    assert (Nat.min n1 n2 = 0%nat) as ->; [|done].
    apply Exists_app in Hex as [Hex|Hex].
    + pose proof (count_unmapped_covered _ gm _ Hc1 Hex) as E.
      unfold count_transcriptome_multimaps in E. rewrite Hn1 in E.
      injection E as ->. done.
    + pose proof (count_unmapped_covered _ gm _ Hc2 Hex) as E.
      unfold count_transcriptome_multimaps in E. rewrite Hn2 in E.
      injection E as ->. lia.
Qed.

(** ** Cross-gene pairing on a well-formed fragment *)

Lemma filter_ext_elem {A} (P Q : A → Prop)
    `{!∀ x, Decision (P x)} `{!∀ x, Decision (Q x)} (l : list A) :
  (∀ x, x ∈ l → P x ↔ Q x) → filter P l = filter Q l.
Proof.
  induction l as [|x l IH]; intros Hext; [done|].
  rewrite !filter_cons.
  assert (filter P l = filter Q l) as ->.
  { apply IH. intros y Hy. apply Hext. by apply list_elem_of_further. }
  pose proof (Hext x (list_elem_of_here _ _)) as Hx.
  destruct (decide (P x)), (decide (Q x)); tauto.
Qed.

Lemma classify_unpaired_read_run lt a5 a3 r h :
  classify_unpaired_read lt (a5, a3) r h
  = Ok (if decide (is_5p lt h r) then (a5 ++ [r], a3) else (a5, a3 ++ [r]),
        <[r := tag_unpaired lt (deref h r)]> h).
Proof. reflexivity. Qed.

Lemma classify_loop_run lt reads :
  ∀ a5 a3 h,
    NoDup reads → Forall (λ r, (r < length h)%nat) reads →
    ∃ h',
      for_each reads (classify_unpaired_read lt) (a5, a3) h
      = Ok (a5 ++ filter (is_5p lt h) reads,
            a3 ++ filter (λ r, ¬ is_5p lt h r) reads, h')
      ∧ length h' = length h
      ∧ ∀ r, deref h' r = if decide (r ∈ reads)
                          then tag_unpaired lt (deref h r) else deref h r.
Proof.
  induction reads as [|r rs IH]; intros a5 a3 h Hnd Hval.
  - exists h. simpl. rewrite !filter_nil, !app_nil_r.
    split; [done|]. split; [done|]. intros r.
    destruct (decide (r ∈ [])) as [Hin|_]; [by apply elem_of_nil in Hin|done].
  - apply NoDup_cons in Hnd as [Hnin Hnd].
    apply Forall_cons in Hval as [Hr Hval].
    set (h1 := <[r := tag_unpaired lt (deref h r)]> h).
    assert (∀ x, x ≠ r → deref h1 x = deref h x) as Hother.
    { intros x Hx. by apply list_lookup_total_insert_ne. }
    assert (deref h1 r = tag_unpaired lt (deref h r)) as Hself.
    { by apply list_lookup_total_insert_eq. }
    assert (length h1 = length h) as Hlen by apply length_insert.
    assert (∀ x, x ∈ rs → is_5p lt h1 x ↔ is_5p lt h x) as Hsame.
    { intros x Hx. unfold is_5p. rewrite Hother; [done|].
      intros ->. done. }
    cbn [for_each].
    rewrite (bind_ok _ _ _ _ _ (classify_unpaired_read_run lt a5 a3 r h)).
    fold h1.
    destruct (IH (if decide (is_5p lt h r) then (a5 ++ [r], a3)
                  else (a5, a3 ++ [r])).1
                 (if decide (is_5p lt h r) then (a5 ++ [r], a3)
                  else (a5, a3 ++ [r])).2 h1 Hnd)
      as (h' & Hrun & Hlen' & Hderef).
    { eapply Forall_impl; [exact Hval|]. intros x Hx. simpl. by rewrite Hlen. }
    exists h'. split; [|split; [congruence|]].
    + rewrite <- surjective_pairing in Hrun. rewrite Hrun.
      rewrite (filter_ext_elem (is_5p lt h1) (is_5p lt h) rs Hsame).
      rewrite (filter_ext_elem (λ x, ¬ is_5p lt h1 x) (λ x, ¬ is_5p lt h x) rs)
        by (intros x Hx; by rewrite (Hsame x Hx)).
      rewrite !filter_cons.
      destruct (decide (is_5p lt h r)) as [H5|H5]; simpl.
      * destruct (decide (¬ is_5p lt h r)); [done|].
        by rewrite <- app_assoc.
      * destruct (decide (¬ is_5p lt h r)); [|done].
        by rewrite <- app_assoc.
    + intros x. rewrite Hderef.
      destruct (decide (x = r)) as [->|Hxr].
      * destruct (decide (r ∈ rs)); [done|].
        destruct (decide (r ∈ r :: rs)) as [_|Hn]; [done|].
        destruct Hn. apply list_elem_of_here.
      * rewrite (Hother x Hxr).
        destruct (decide (x ∈ rs)) as [Hin|Hin];
          destruct (decide (x ∈ r :: rs)) as [Hin'|Hin']; try done.
        -- destruct Hin'. by apply list_elem_of_further.
        -- apply elem_of_cons in Hin' as [?|?]; done.
Qed.

Lemma bind_ext {S A B} (m : M S A) (k1 k2 : A → M S B) s :
  (∀ a s', k1 a s' = k2 a s') → bind m k1 s = bind m k2 s.
Proof.
  intros Hk. unfold bind. destruct (m s) as [[a s']|e]; [apply Hk | done].
Qed.

Lemma for_each_map {S A A' B} (g : A' → A) (l : list A')
    (body : B → A → M S B) acc s :
  for_each (map g l) body acc s = for_each l (λ acc x, body acc (g x)) acc s.
Proof.
  revert acc s. induction l as [|x l IH]; intros acc s; [done|].
  simpl. apply bind_ext. intros a s'. apply IH.
Qed.

(** Two nested loops visit the pairs of the product in order. *)
Lemma for_each_prod {S A1 A2 B} (l1 : list A1) (l2 : list A2)
    (f : B → A1 → A2 → M S B) acc s :
  for_each l1 (λ acc x, for_each l2 (λ acc y, f acc x y) acc) acc s
  = for_each (list_prod l1 l2) (λ acc p, f acc p.1 p.2) acc s.
Proof.
  revert acc s. induction l1 as [|x l1 IH]; intros acc s; [done|].
  cbn [for_each list_prod]. rewrite for_each_app.
  unfold bind. rewrite for_each_map. cbn [fst snd].
  destruct (for_each l2 (λ acc0 y, f acc0 x y) acc s) as [[a s']|e];
    [apply IH | done].
Qed.

(** Copying a list of candidates whose records are objects of [h0] adds two
    objects per candidate and leaves what was there. *)
Lemma copy_candidates_run (h0 : heap) (cands : list (ref * ref)) :
  ∀ gp hc,
    (∃ e, hc = h0 ++ e) →
    Forall (λ c, (c.1 < length h0)%nat ∧ (c.2 < length h0)%nat) cands →
    ∃ new e',
      for_each cands (λ gp c, copy_pair gp c.1 c.2) gp hc
      = Ok (gp ++ new, hc ++ e')
      ∧ length e' = (2 * length new)%nat
      ∧ Forall2 (λ cand p,
                   (p.1 < length (hc ++ e'))%nat
                   ∧ (p.2 < length (hc ++ e'))%nat
                   ∧ deref (hc ++ e') p.1 = deref h0 cand.1
                   ∧ deref (hc ++ e') p.2 = deref h0 cand.2) cands new.
Proof.
  induction cands as [|[r1 r2] cs IH]; intros gp hc [e ->] Hval.
  - exists [], []. rewrite !app_nil_r. repeat split; constructor.
  - apply Forall_cons in Hval as [[Hr1 Hr2] Hval]. simpl in Hr1, Hr2.
    cbn [for_each]. rewrite (bind_ok _ _ _ _ _ (copy_pair_run gp r1 r2 _)).
    assert (deref (h0 ++ e) r1 = deref h0 r1) as -> by by apply deref_app_l.
    assert (deref ((h0 ++ e) ++ [deref h0 r1]) r2 = deref h0 r2) as ->.
    { rewrite <- app_assoc. by apply deref_app_l. }
    set (a := deref h0 r1). set (b := deref h0 r2).
    destruct (IH (gp ++ [(length (h0 ++ e), S (length (h0 ++ e)))])
                 ((h0 ++ e) ++ [a; b]))
      as (new & e' & Hrun & Hlen & Hall); [|done|].
    { exists (e ++ [a; b]). by rewrite <- app_assoc. }
    exists ((length (h0 ++ e), S (length (h0 ++ e))) :: new), ([a; b] ++ e').
    rewrite Hrun.
    assert (((h0 ++ e) ++ [a; b]) ++ e' = (h0 ++ e) ++ [a; b] ++ e') as Heq
      by by rewrite <- app_assoc.
    rewrite Heq in *.
    split; [by rewrite <- app_assoc|].
    split; [rewrite length_app; simpl; lia|].
    apply Forall2_cons. split; [|done]. simpl.
    rewrite deref_app_length.
    replace ((h0 ++ e) ++ a :: b :: e') with (((h0 ++ e) ++ [a]) ++ b :: e')
      by by rewrite <- app_assoc.
    replace (S (length (h0 ++ e))) with (length ((h0 ++ e) ++ [a]))
      by (rewrite (length_app _ [a]); simpl; lia).
    rewrite deref_app_length, !length_app. simpl. repeat split; lia || done.
Qed.

Lemma elem_of_list_prod {A B} (l : list A) (k : list B) (p : A * B) :
  p ∈ list_prod l k ↔ p.1 ∈ l ∧ p.2 ∈ k.
Proof.
  destruct p as [x y]. rewrite !list_elem_of_In. apply in_prod_iff.
Qed.

(** The candidates of the cross-gene stage are the pairs of a mate-1 record
    and a mate-2 record of which exactly one is 5'. *)
Lemma opposite_orientation_candidates_spec lt h pe (c : ref * ref) :
  c ∈ opposite_orientation_candidates lt h pe
  ↔ c.1 ∈ pe.1 ∧ c.2 ∈ pe.2
    ∧ ((is_5p lt h c.1 ∧ ¬ is_5p lt h c.2)
       ∨ (¬ is_5p lt h c.1 ∧ is_5p lt h c.2)).
Proof.
  unfold opposite_orientation_candidates.
  rewrite elem_of_app, !elem_of_list_prod, !list_elem_of_filter. tauto.
Qed.

Lemma Forall2_with_Forall_l {A B} (P : A → Prop) (R R' : A → B → Prop) l k :
  (∀ x y, P x → R x y → R' x y) →
  Forall P l → Forall2 R l k → Forall2 R' l k.
Proof.
  intros Himpl HP HR. induction HR as [|x y l k Hxy _ IH]; [constructor|].
  apply Forall_cons in HP as [Hx HP]. constructor; auto.
Qed.

Lemma find_discordant_pairs_run pe lt h :
  fragment_wf h pe →
  ∃ gp ht e,
    find_discordant_pairs pe lt h = Ok (gp, ht ++ e)
    ∧ fragment_tagged lt h pe ht
    ∧ length e = (2 * length gp)%nat
    ∧ Forall2 (copy_of lt (ht ++ e) h)
              (opposite_orientation_candidates lt h pe) gp.
Proof.
  intros [Hnd Hval].
  apply NoDup_app in Hnd as (Hnd1 & Hdisj & Hnd2).
  apply Forall_app in Hval as [Hval1 Hval2].
  destruct (classify_loop_run lt pe.1 [] [] h Hnd1 Hval1)
    as (ha & Hrun1 & Hlena & Hda).
  destruct (classify_loop_run lt pe.2 [] [] ha Hnd2)
    as (hb & Hrun2 & Hlenb & Hdb).
  { eapply Forall_impl; [exact Hval2|]. intros x Hx. simpl. by rewrite Hlena. }
  assert (∀ x, x ∈ pe.2 → deref ha x = deref h x) as Hkeep.
  { intros x Hx. rewrite Hda. destruct (decide (x ∈ pe.1)) as [Hin|]; [|done].
    by destruct (Hdisj x Hin). }
  rewrite (filter_ext_elem (is_5p lt ha) (is_5p lt h) pe.2) in Hrun2
    by (intros x Hx; unfold is_5p; by rewrite (Hkeep x Hx)).
  rewrite (filter_ext_elem (λ x, ¬ is_5p lt ha x) (λ x, ¬ is_5p lt h x) pe.2)
    in Hrun2 by (intros x Hx; unfold is_5p; by rewrite (Hkeep x Hx)).
  simpl in Hrun1, Hrun2.
  assert (fragment_tagged lt h pe hb) as Htag.
  { split; [congruence|]. intros r. rewrite Hdb, Hda.
    destruct (decide (r ∈ pe.2)) as [H2|H2];
      destruct (decide (r ∈ pe.1)) as [H1|H1];
      destruct (decide (r ∈ pe.1 ++ pe.2)) as [H12|H12]; try done.
    - by destruct (Hdisj r H1).
    - destruct H12. apply elem_of_app. by right.
    - destruct H12. apply elem_of_app. by right.
    - destruct H12. apply elem_of_app. by left.
    - apply elem_of_app in H12 as [?|?]; done. }
  set (c1 := list_prod (filter (is_5p lt h) pe.1)
                       (filter (λ r, ¬ is_5p lt h r) pe.2)).
  set (c2 := list_prod (filter (λ r, ¬ is_5p lt h r) pe.1)
                       (filter (is_5p lt h) pe.2)).
  assert (Forall (λ c : ref * ref, c.1 ∈ pe.1 ∧ c.2 ∈ pe.2) (c1 ++ c2))
    as Hmem.
  { apply Forall_forall. intros c Hc.
    by apply opposite_orientation_candidates_spec in Hc as (? & ? & _). }
  assert (Forall (λ c : ref * ref,
                    (c.1 < length hb)%nat ∧ (c.2 < length hb)%nat) (c1 ++ c2))
    as Hvalid.
  { eapply Forall_impl; [exact Hmem|]. intros c [Hc1 Hc2]. simpl.
    rewrite Hlenb, Hlena. split.
    - by apply (proj1 (Forall_forall _ _) Hval1).
    - by apply (proj1 (Forall_forall _ _) Hval2). }
  apply Forall_app in Hvalid as [Hv1 Hv2].
  destruct (copy_candidates_run hb c1 [] hb)
    as (new1 & e1 & Hcp1 & Hl1 & Hall1);
    [exists []; by rewrite app_nil_r | done |].
  destruct (copy_candidates_run hb c2 ([] ++ new1) (hb ++ e1))
    as (new2 & e2 & Hcp2 & Hl2 & Hall2); [by exists e1 | done |].
  exists (new1 ++ new2), hb, (e1 ++ e2).
  split; [|split; [done|split]].
  - unfold find_discordant_pairs, classify_unpaired_reads.
    rewrite (bind_ok _ _ _ _ _ Hrun1), (bind_ok _ _ _ _ _ Hrun2).
    cbn [for_each].
    unfold bind at 1. rewrite for_each_prod. fold c1. rewrite Hcp1.
    unfold bind at 1. rewrite for_each_prod. fold c2. rewrite Hcp2.
    unfold ret. by rewrite app_nil_l, <- (app_assoc hb e1 e2).
  - rewrite !length_app. lia.
  - unfold opposite_orientation_candidates. fold c1 c2.
    rewrite (app_assoc hb e1 e2).
    apply (Forall2_with_Forall_l
             (λ c : ref * ref, c.1 ∈ pe.1 ∧ c.2 ∈ pe.2)
             (λ cand p : ref * ref,
                (p.1 < length ((hb ++ e1) ++ e2))%nat
                ∧ (p.2 < length ((hb ++ e1) ++ e2))%nat
                ∧ deref ((hb ++ e1) ++ e2) p.1 = deref hb cand.1
                ∧ deref ((hb ++ e1) ++ e2) p.2 = deref hb cand.2));
      [|exact Hmem|].
    + intros c p [Hc1 Hc2] (Hp1 & Hp2 & Hd1 & Hd2).
      destruct Htag as [_ Htag]. unfold copy_of.
      rewrite Hd1, Hd2, !Htag.
      destruct (decide (c.1 ∈ pe.1 ++ pe.2)) as [_|Hn];
        [|destruct Hn; apply elem_of_app; by left].
      destruct (decide (c.2 ∈ pe.1 ++ pe.2)) as [_|Hn];
        [|destruct Hn; apply elem_of_app; by right].
      done.
    + apply Forall2_app; [|exact Hall2].
      eapply Forall2_impl; [exact Hall1|].
      intros c p (Hp1 & Hp2 & Hd1 & Hd2). simpl in *.
      rewrite (length_app (hb ++ e1)), !(deref_app_l (hb ++ e1)) by done.
      split; [by apply Nat.lt_lt_add_r|].
      split; [by apply Nat.lt_lt_add_r|]. by split.
Qed.

Lemma map_reads_store pe (txm : gmap Z TranscriptFeature) h dicts h0 :
  map_reads_to_references pe txm h = Ok (dicts, h0) → h0 = h.
Proof.
  intros Hrun.
  destruct (Forall_covered_or_Exists_missing txm h (pe.1 ++ pe.2))
    as [Hcov|Hmiss].
  - destruct (map_reads_covered pe txm h Hcov) as [d Hd]. congruence.
  - rewrite (map_reads_missing pe txm h Hmiss) in Hrun. discriminate.
Qed.

(** When no stage files a pair, no copy is made: the store is untouched. *)
Lemma pairing_stages_empty_store pe lt (txm : gmap Z TranscriptFeature) h h1 :
  pairing_stages pe lt txm h = Ok ([], [], [], [], h1) → h1 = h.
Proof.
  intros (refdict & clusterdict & h0 & found & h1' & Hbin & Hst1 & Hcase)
    %pairing_stages_inv.
  apply map_reads_store in Hbin as ->.
  destruct (pair_stage_invariant h (same_strand lt) CONCORDANT_TX
              DISCORDANT_STRAND_TX refdict (false, [], []) h)
    as (st1 & h1'' & Hst1' & (ext & -> & Hlen) & _);
    [by apply stage_invariant_start|].
  rewrite Hst1 in Hst1'. injection Hst1' as <- ->. simpl in Hlen.
  apply nil_length_inv in Hlen as ->. rewrite app_nil_r in *.
  destruct Hcase as [(_ & _ & _ & ->)|(_ & found2 & Hst2)]; [done|].
  destruct (pair_stage_invariant h (same_strand lt) CONCORDANT_GENE
              DISCORDANT_STRAND_GENE clusterdict (false, [], []) h)
    as (st2 & h2 & Hst2' & (ext & -> & Hlen) & _);
    [by apply stage_invariant_start|].
  rewrite Hst2 in Hst2'. injection Hst2' as <- ->. simpl in Hlen.
  apply nil_length_inv in Hlen as ->. by rewrite app_nil_r.
Qed.

Lemma Forall2_elem_of_r {A B} (R : A → B → Prop) l k y :
  Forall2 R l k → y ∈ k → ∃ x, x ∈ l ∧ R x y.
Proof.
  intros HR. induction HR as [|x y' l k Hxy _ IH]; intros Hy;
    [by apply elem_of_nil in Hy|].
  apply elem_of_cons in Hy as [->|Hy].
  - exists x. split; [apply list_elem_of_here | done].
  - destruct (IH Hy) as (x' & Hx' & HR'). exists x'.
    split; [by apply list_elem_of_further | done].
Qed.

Lemma tag_unpaired_tags lt rd :
  tags (tag_unpaired lt rd)
  = tags rd ++ [DiscordantTag DISCORDANT_GENE;
                OrientationTag (get_orientation rd lt)].
Proof. reflexivity. Qed.

(** C7.  When the pairing stages file nothing, the cross-gene stage pairs a
    copy of every mate-1 record with a copy of every mate-2 record of the
    opposite orientation group, (5' x 3') and (3' x 5'), and only those;
    every copy carries DISCORDANT_GENE.  If there is such a pair, the
    classifier returns what the best-scoring-pair selector keeps of them,
    which is not empty, with an empty residual. *)
Theorem cross_gene_stage_pairs_opposite_orientations
    pe max_isize lt (txm : gmap Z TranscriptFeature) h h1 :
  fragment_wf h pe →
  pairing_stages pe lt txm h = Ok ([], [], [], [], h1) →
  ∃ gp hf,
    h1 = h
    ∧ find_discordant_pairs pe lt h = Ok (gp, hf)
    ∧ Forall2 (copy_of lt hf h) (opposite_orientation_candidates lt h pe) gp
    ∧ (∀ p, p ∈ gp →
         ∃ c, c.1 ∈ pe.1 ∧ c.2 ∈ pe.2
              ∧ ((is_5p lt h c.1 ∧ ¬ is_5p lt h c.2)
                 ∨ (¬ is_5p lt h c.1 ∧ is_5p lt h c.2))
              ∧ copy_of lt hf h c p
              ∧ DiscordantTag DISCORDANT_GENE ∈ tags (deref hf p.1)
              ∧ DiscordantTag DISCORDANT_GENE ∈ tags (deref hf p.2))
    ∧ (gp ≠ [] →
       ∃ best,
         select_best_scoring_pairs gp hf = Ok (best, hf)
         ∧ best ≠ [] ∧ best ⊆ gp
         ∧ classify_read_pairs pe max_isize lt txm h = Ok (best, [], hf)).
Proof.
  intros Hwf Hst. pose proof (pairing_stages_empty_store _ _ _ _ _ Hst) as ->.
  destruct (find_discordant_pairs_run pe lt h Hwf)
    as (gp & ht & e & Hfd & _ & _ & Hall).
  exists gp, (ht ++ e). split; [done|]. split; [done|]. split; [done|].
  split.
  - intros p Hp.
    destruct (Forall2_elem_of_r _ _ _ _ Hall Hp) as (c & Hc & Hcopy).
    apply opposite_orientation_candidates_spec in Hc as (Hc1 & Hc2 & Hopp).
    exists c. repeat (split; [done|]).
    destruct Hcopy as (_ & _ & -> & ->). rewrite !tag_unpaired_tags.
    split; apply elem_of_app; right; apply list_elem_of_here.
  - intros Hne.
    destruct (select_best_scoring_pairs_keeps_one gp (ht ++ e) Hne)
      as (best & Hbest & Hbne & Hsub).
    exists best. repeat (split; [done|]).
    unfold classify_read_pairs. rewrite (bind_ok _ _ _ _ _ Hst).
    cbn [first_nonempty length Nat.ltb Nat.leb].
    rewrite (bind_ok _ _ _ _ _ Hfd).
    destruct gp as [|p gp]; [done|]. cbn [length Nat.ltb Nat.leb].
    by rewrite (bind_ok _ _ _ _ _ Hbest).
Qed.

(** C3, as the code has it.  When no state produces a pair, the classifier
    returns an empty pair list with the mate lists of the fragment as
    residual; the records of these lists are the objects that were passed
    in, and [classify_unpaired_reads] has appended DISCORDANT_GENE and the
    orientation tag to the tag list of each of them; their other attributes
    and all other objects are as before. *)
Theorem unpaired_residual_keeps_cross_gene_tags
    pe max_isize lt (txm : gmap Z TranscriptFeature) h h1 hf :
  fragment_wf h pe →
  pairing_stages pe lt txm h = Ok ([], [], [], [], h1) →
  find_discordant_pairs pe lt h1 = Ok ([], hf) →
  classify_read_pairs pe max_isize lt txm h = Ok ([], mates pe, hf)
  ∧ opposite_orientation_candidates lt h pe = []
  ∧ fragment_tagged lt h pe hf
  ∧ (∀ r, r ∈ pe.1 ++ pe.2 →
       deref hf r = tag_unpaired lt (deref h r)
       ∧ tags (deref hf r)
         = tags (deref h r)
           ++ [DiscordantTag DISCORDANT_GENE;
               OrientationTag (get_orientation (deref h r) lt)]).
Proof.
  intros Hwf Hst Hfd.
  pose proof (pairing_stages_empty_store _ _ _ _ _ Hst) as ->.
  destruct (find_discordant_pairs_run pe lt h Hwf)
    as (gp & ht & e & Hfd' & Htag & Hlen & Hall).
  rewrite Hfd in Hfd'. injection Hfd' as <- ->. simpl in Hlen.
  apply nil_length_inv in Hlen as ->. rewrite app_nil_r in *.
  split; [|split; [by apply Forall2_nil_inv_r in Hall|split; [done|]]].
  - unfold classify_read_pairs. rewrite (bind_ok _ _ _ _ _ Hst).
    cbn [first_nonempty length Nat.ltb Nat.leb].
    by rewrite (bind_ok _ _ _ _ _ Hfd).
  - intros r Hr. destruct Htag as [_ Htag]. rewrite Htag.
    destruct (decide (r ∈ pe.1 ++ pe.2)); done.
Qed.

End Properties.

(** * The properties on the example inputs *)

Section Examples.
Local Open Scope nat_scope.

(** C1.  The fragment (mate 1: object 0, mate 2: the unmapped object 4) has
    count 0 for mate 2, and the dispatcher takes line 270, which passes the
    handle where [write_pe_reads] expects the reads and the reads where it
    expects the handle: whatever iterating the handle does, the call either
    raises or returns with every output file as it was, so no record of the
    fragment reaches the unpaired file.  The call with the arguments in the
    order of the definition (as on line 284) writes both records. *)
Theorem unmapped_mate_fragment_is_not_written (iter : samfile → result nat) :
  let collab := example_collaborators_with iter in
  let run :=
    dispatch_fragment example_tx_map example_genome_map 0%Z 2%Z "ff"
                      ([0], [4]) example_world in
  count_transcriptome_multimaps example_heap [4] example_genome_map = Ok 0
  ∧ (run = Ok (tt, example_world) ∨ ∃ e, run = Raise e)
  ∧ write_pe_reads (PyReads [[0]; [4]]) (PySamfile unpairedfh) example_world
    = Ok (tt, mkWorld example_heap [] []
                      [deref example_heap 0; deref example_heap 4] []).
Proof.
  intros collab run. subst collab run.
  split; [reflexivity|]. split; [|reflexivity].
  vm_compute. destruct (iter unpairedfh) as [[|n]|e]; eauto.
Qed.

(** C2, counterexample.  Objects 0 and 6 are forward reads on transcript 0
    and the library ["ff"] expects the mates on the same strand: the pair is
    tagged CONCORDANT_TX, and after negating the strand bit of both it is
    tagged CONCORDANT_TX again, not DISCORDANT_STRAND_TX. *)
Lemma negating_both_strands_keeps_tag :
  let h' := negate_strand_at 6 (negate_strand_at 0 example_heap) in
  @same_strand example_collaborators "ff" = true
  ∧ is_reverse (deref example_heap 0) = false
  ∧ is_reverse (deref example_heap 6) = false
  ∧ is_reverse (deref h' 0) = true
  ∧ is_reverse (deref h' 6) = true
  ∧ returned_tags (@classify_read_pairs example_collaborators ([0], [6]) 0%Z "ff"
                     example_tx_map example_heap)
    = [([DiscordantTag CONCORDANT_TX], [DiscordantTag CONCORDANT_TX])]
  ∧ returned_tags (@classify_read_pairs example_collaborators ([0], [6]) 0%Z "ff"
                     example_tx_map h')
    = [([DiscordantTag CONCORDANT_TX], [DiscordantTag CONCORDANT_TX])].
Proof. vm_compute. repeat split. Qed.

(** C3, counterexample.  Objects 0 and 2 are forward reads on transcripts of
    different genes; both are 5', so no state produces a pair.  The residual
    is the fragment, and its two records, which had no tag, now carry
    DISCORDANT_GENE and the orientation tag. *)
Lemma unpaired_residual_is_tagged :
  tags (deref example_heap 0) = []
  ∧ tags (deref example_heap 2) = []
  ∧ match @classify_read_pairs example_collaborators ([0], [2]) 0%Z "ff"
            example_tx_map example_heap with
    | Ok (gene_pairs, unpaired, hf) =>
        gene_pairs = [] ∧ unpaired = [[0]; [2]]
        ∧ tags (deref hf 0)
          = [DiscordantTag DISCORDANT_GENE; OrientationTag 1]
        ∧ tags (deref hf 2)
          = [DiscordantTag DISCORDANT_GENE; OrientationTag 1]
    | Raise _ => False
    end.
Proof. vm_compute. repeat split. Qed.

(** C9, counterexample.  Object 5 is mapped and its reference id 9 is not in
    the table, but it stands after the unmapped object 4: the counter returns
    0 and no assertion error is raised. *)
Lemma missing_reference_after_unmapped_is_skipped :
  is_unmapped (deref example_heap 5) = false
  ∧ example_genome_map !! tid (deref example_heap 5) = None
  ∧ @count_transcriptome_multimaps example_collaborators example_heap [4; 5] example_genome_map
    = Ok 0.
Proof. vm_compute. repeat split. Qed.

(** C6, counterexample.  Mate [1; 4; 2]: objects 1 and 2 are mapped and
    project to two different loci, object 4 is unmapped.  The keys of the
    alignments are three (two without the one of the unmapped record), and
    the resolver returns 0. *)
Lemma multimap_count_is_not_number_of_loci_with_unmapped :
  size (list_to_set (@locus_key example_collaborators example_genome_map
                       <$> (deref example_heap <$> [1; 4; 2]))
        : gset (Z * Z * Z)) = 3
  ∧ size (list_to_set (@locus_key example_collaborators example_genome_map
                         <$> (deref example_heap <$> [1; 2]))
          : gset (Z * Z * Z)) = 2
  ∧ @count_transcriptome_multimaps example_collaborators example_heap
      [1; 4; 2] example_genome_map
    = Ok 0.
Proof. vm_compute. repeat split. Qed.

(** ** The theorems at work *)

(** C2: objects 0 and 6, forward reads on transcript 0. *)
Lemma negating_one_strand_flips_tag_example :
  (0 ≠ 6 ∧ 0 < length example_heap ∧ 6 < length example_heap)
  ∧ ∃ t t',
      ((t = CONCORDANT_TX ∧ t' = DISCORDANT_STRAND_TX)
       ∨ (t = DISCORDANT_STRAND_TX ∧ t' = CONCORDANT_TX))
      ∧ (∃ st' h',
           pair_candidate (@same_strand example_collaborators "ff") CONCORDANT_TX
             DISCORDANT_STRAND_TX (false, [], []) 0 6 example_heap
           = Ok (st', h')
           ∧ pair_tagged h' t (9, 10))
      ∧ (∃ st' h',
           pair_candidate (@same_strand example_collaborators "ff") CONCORDANT_TX
             DISCORDANT_STRAND_TX (false, [], []) 0 6
             (negate_strand_at 0 example_heap)
           = Ok (st', h')
           ∧ pair_tagged h' t' (9, 10)).
Proof.
  assert (0 ≠ 6) as H1 by lia.
  assert (0 < length example_heap) as H2 by (simpl; lia).
  assert (6 < length example_heap) as H3 by (simpl; lia).
  split; [done|].
  destruct (@negating_one_strand_flips_tag example_collaborators "ff" (false, [], []) 0 6
              example_heap H1 H2 H3)
    as (t & t' & Hflip & Hrun & Hrun1 & _).
  exists t, t'. split; [exact Hflip|]. split; [exact Hrun | exact Hrun1].
Defined.

(** C3: objects 0 and 2, forward reads on different genes. *)
Lemma unpaired_residual_keeps_cross_gene_tags_example :
  ∃ hf,
    @classify_read_pairs example_collaborators ([0], [2]) 0%Z "ff" example_tx_map example_heap
    = Ok ([], [[0]; [2]], hf)
    ∧ tags (deref hf 0) = [DiscordantTag DISCORDANT_GENE; OrientationTag 1]
    ∧ tags (deref hf 2) = [DiscordantTag DISCORDANT_GENE; OrientationTag 1].
Proof.
  assert (fragment_wf example_heap ([0], [2])) as Hwf.
  { split; simpl.
    - apply NoDup_cons. split; [by intros ?%list_elem_of_singleton|].
      apply NoDup_singleton.
    - repeat apply Forall_cons_2; simpl; lia || constructor. }
  assert (∃ hf, @find_discordant_pairs example_collaborators ([0], [2]) "ff"
                  example_heap = Ok ([], hf)) as [hf Hfd]
    by (eexists; vm_compute; reflexivity).
  destruct (@unpaired_residual_keeps_cross_gene_tags example_collaborators ([0], [2]) 0%Z "ff"
              example_tx_map example_heap example_heap hf Hwf eq_refl Hfd)
    as (Hrun & _ & _ & Htags).
  exists hf. split; [exact Hrun|]. split.
  - apply (Htags 0). simpl. apply list_elem_of_here.
  - apply (Htags 2). simpl. apply list_elem_of_further, list_elem_of_here.
Defined.

(** C4: mate 1 has object 0 (transcript 0, forward) and object 8 (transcript
    1, reverse), mate 2 has object 7 (transcript 0, reverse).  The reference
    stage files the strand-discordant candidate (0, 7); the cluster stage
    would have filed the concordant candidate (8, 7), and is not run. *)
Lemma reference_candidates_preempt_cluster_stage_example :
  ∃ h1,
    @pairing_stages example_collaborators ([0; 8], [7]) "ff" example_tx_map
      example_heap
    = Ok ([], [(9, 10)], [], [], h1)
    ∧ ∃ st h2,
        pair_stage (@same_strand example_collaborators "ff") CONCORDANT_GENE
          DISCORDANT_STRAND_GENE [(10%Z, ([0; 8], [7]))] (false, [], [])
          example_heap
        = Ok (st, h2)
        ∧ st.1.2 = [(11, 12)].
Proof.
  assert (∃ h1,
            pair_stage (@same_strand example_collaborators "ff")
              CONCORDANT_TX DISCORDANT_STRAND_TX
              [(0%Z, ([0], [7])); (1%Z, ([8], []))] (false, [], [])
              example_heap
            = Ok (true, [], [(9, 10)], h1)) as [h1 Hst1]
    by (eexists; vm_compute; reflexivity).
  exists h1. split.
  - refine (proj1 (proj2 (@reference_candidates_preempt_cluster_stage
                            example_collaborators ([0; 8], [7]) "ff"
                            example_tx_map example_heap
                            [(0%Z, ([0], [7])); (1%Z, ([8], []))]
                            [(10%Z, ([0; 8], [7]))] true [] [(9, 10)] h1
                            eq_refl Hst1)) _).
    discriminate.
  - eexists _, _. split; [vm_compute; reflexivity | reflexivity].
Defined.

(** C5: objects 0 and 6 give one CONCORDANT_TX pair, which is returned. *)
Lemma selection_returns_first_nonempty_class_example :
  ∃ h1,
    @classify_read_pairs example_collaborators ([0], [6]) 0%Z "ff"
      example_tx_map example_heap
    = Ok ([(9, 10)], [], h1)
    ∧ pair_tagged h1 CONCORDANT_TX (9, 10).
Proof.
  assert (∃ h1,
            @pairing_stages example_collaborators ([0], [6]) "ff"
              example_tx_map example_heap
            = Ok ([(9, 10)], [], [], [], h1)) as [h1 Hst]
    by (eexists; vm_compute; reflexivity).
  destruct (@selection_returns_first_nonempty_class example_collaborators
              ([0], [6]) 0%Z "ff" example_tx_map example_heap
              [(9, 10)] [] [] [] h1 Hst)
    as ((Htag & _) & Hctx & _).
  exists h1. split; [apply Hctx; discriminate|].
  by apply Forall_cons in Htag as [Htag _].
Defined.

(** C6: objects 0 and 1 lie on different transcripts of one gene and project
    to the same genome interval; object 2 lies on another gene; object 4 is
    unmapped. *)
Lemma multimap_count_is_number_of_distinct_loci_example :
  tid (deref example_heap 0) ≠ tid (deref example_heap 1)
  ∧ @count_transcriptome_multimaps example_collaborators example_heap [0; 1]
      example_genome_map
    = Ok 1
  ∧ @count_transcriptome_multimaps example_collaborators example_heap [0; 2]
      example_genome_map
    = Ok 2
  ∧ @count_transcriptome_multimaps example_collaborators example_heap
      [0; 4; 2] example_genome_map
    = Ok 0.
Proof.
  destruct (@multimap_count_is_number_of_distinct_loci example_collaborators
              example_heap example_genome_map)
    as (_ & _ & Hpair & Hzero).
  split; [discriminate|]. split; [|split].
  - apply (Hpair 0 1); (split; [reflexivity | by eexists]).
  - apply (Hpair 0 2); (split; [reflexivity | by eexists]).
  - apply (Hzero [0; 4; 2]).
    + repeat apply Forall_cons_2; try constructor; intros Hm; try done;
        by eexists.
    + apply Exists_cons_tl, Exists_cons_hd. reflexivity.
Defined.

(** C7: object 0 is 5' and object 3 is 3'; they lie on different genes. *)
Lemma cross_gene_stage_pairs_opposite_orientations_example :
  ∃ hf,
    @classify_read_pairs example_collaborators ([0], [3]) 0%Z "ff"
      example_tx_map example_heap
    = Ok ([(9, 10)], [], hf)
    ∧ DiscordantTag DISCORDANT_GENE ∈ tags (deref hf 9)
    ∧ DiscordantTag DISCORDANT_GENE ∈ tags (deref hf 10).
Proof.
  assert (fragment_wf example_heap ([0], [3])) as Hwf.
  { split; simpl.
    - apply NoDup_cons. split; [by intros ?%list_elem_of_singleton|].
      apply NoDup_singleton.
    - repeat apply Forall_cons_2; simpl; lia || constructor. }
  destruct (@cross_gene_stage_pairs_opposite_orientations
              example_collaborators ([0], [3]) 0%Z "ff" example_tx_map
              example_heap example_heap Hwf eq_refl)
    as (gp & hf & _ & Hfd & _ & Htags & Hbest).
  assert (gp = [(9, 10)]) as ->
    by (vm_compute in Hfd; by injection Hfd as <- _).
  destruct Hbest as (best & Hsel & _ & _ & Hrun); [discriminate|].
  assert (best = [(9, 10)]) as ->.
  { assert (hf = hf ∧ best = [(9, 10)]) as [_ ?]; [|done].
    vm_compute in Hfd. injection Hfd as <-.
    vm_compute in Hsel. by injection Hsel as <-. }
  exists hf. split; [exact Hrun|].
  destruct (Htags (9, 10)) as (c & _ & _ & _ & _ & H1 & H2);
    [apply list_elem_of_here | by split].
Defined.

(** C8: the same fragment: a pair is returned and the residual is empty. *)
Lemma classifier_output_is_exclusive_example :
  match @classify_read_pairs example_collaborators ([0], [3]) 0%Z "ff"
          example_tx_map example_heap with
  | Ok (gene_pairs, unpaired, _) => gene_pairs ≠ [] ∧ unpaired = []
  | Raise _ => False
  end.
Proof.
  pose proof (@classifier_output_is_exclusive example_collaborators
                ([0], [3]) 0%Z "ff" example_tx_map example_heap) as Hex.
  destruct (@classify_read_pairs example_collaborators ([0], [3]) 0%Z "ff"
              example_tx_map example_heap) as [[[gp unpaired] hf]|e] eqn:Hrun;
    [|by vm_compute in Hrun].
  destruct Hex as ([[Hne ->]|[-> _]] & _); [done|].
  by vm_compute in Hrun.
Defined.

(** C9: object 5 has a reference id that is in neither table. *)
Lemma missing_reference_raises_when_reached_example :
  @map_reads_to_references ([0], [5]) example_tx_map example_heap
  = Raise AssertionError
  ∧ @count_transcriptome_multimaps example_collaborators example_heap [0; 5; 4]
      example_genome_map
    = Raise AssertionError.
Proof.
  destruct (@missing_reference_raises_when_reached example_collaborators
              example_heap example_genome_map example_tx_map)
    as (Hbin & Hcount & _).
  split.
  - apply (Hbin ([0], [5]) 0%Z "ff"). simpl.
    apply Exists_cons_tl, Exists_cons_hd. by split.
  - apply (Hcount [0] 5 [4]); [by repeat constructor | by split].
Defined.

(** C10: mate 2 holds the mapped object 1 and the unmapped object 4. *)
Lemma unmapped_record_gives_zero_count_example :
  @count_transcriptome_multimaps example_collaborators example_heap [1; 4; 2]
    example_genome_map
  = Ok 0
  ∧ @dispatch_fragment example_collaborators example_tx_map
      example_genome_map 0%Z 2%Z "ff" ([0], [1; 4]) example_world
    = @write_pe_reads example_collaborators (PySamfile unpairedfh)
        (PyReads [[0]; [1; 4]]) example_world.
Proof.
  destruct (@unmapped_record_gives_zero_count example_collaborators
              example_heap example_genome_map example_tx_map 0%Z 2%Z "ff")
    as (Hcount & Hdispatch).
  split.
  - apply (Hcount [1] 4 [2]); [|reflexivity].
    apply Forall_cons_2; [|constructor]. intros _. by eexists.
  - apply (Hdispatch ([0], [1; 4]) example_world eq_refl).
    + repeat apply Forall_cons_2; try constructor; intros Hm; try done;
        by eexists.
    + simpl. apply Exists_cons_tl, Exists_cons_tl, Exists_cons_hd. reflexivity.
Defined.

End Examples.

(** * Further properties of the code *)

Section CounterProperties.
Context {collab : Collaborators}.

Implicit Types (h : heap) (r : ref) (reads : list ref).

Lemma size_list_to_set_le (l : list (Z * Z * Z)) :
  (size (list_to_set l : gset (Z * Z * Z)) ≤ length l)%nat.
Proof.
  induction l as [|x l IH]; [by rewrite list_to_set_nil, size_empty|].
  rewrite list_to_set_cons, size_union_alt, size_singleton. simpl.
  apply le_n_S. etransitivity; [|exact IH].
  apply subseteq_size. set_solver.
Qed.

Lemma covered_mapped_known {V} (m : gmap Z V) h reads :
  Forall (covered_by m h) reads →
  Forall (λ r, is_unmapped (deref h r) = false) reads →
  Forall (known_in m h) reads.
Proof.
  intros Hc Hm. induction Hc as [|r reads Hr _ IH]; [constructor|].
  apply Forall_cons in Hm as [Hr' Hm]. constructor; [|by apply IH].
  split; [done | by apply Hr].
Qed.

Lemma mapped_or_unmapped h reads :
  Forall (λ r, is_unmapped (deref h r) = false) reads
  ∨ Exists (λ r, is_unmapped (deref h r) = true) reads.
Proof.
  induction reads as [|r reads IH]; [left; constructor|].
  destruct (is_unmapped (deref h r)) eqn:E; [right; by left|].
  destruct IH as [IH|IH]; [left; by constructor | right; by right].
Qed.

(** The count of a mate is at most the number of its records, and it is 0
    exactly when the mate has no record or has an unmapped one. *)
Theorem multimap_count_bounds h (gm : gmap Z genome_entry) reads :
  Forall (covered_by gm h) reads →
  ∃ n, count_transcriptome_multimaps h reads gm = Ok n
       ∧ (n ≤ length reads)%nat
       ∧ (n = 0%nat
          ↔ reads = [] ∨ Exists (λ r, is_unmapped (deref h r) = true) reads).
Proof.
  intros Hcov. destruct (mapped_or_unmapped h reads) as [Hm|Hu].
  - pose proof (covered_mapped_known gm h reads Hcov Hm) as Hk.
    unfold count_transcriptome_multimaps.
    rewrite (count_loop_known h gm reads ∅ Hk), (right_id_L ∅ (∪)).
    eexists. split; [done|]. split.
    { etransitivity; [apply size_list_to_set_le|]. by rewrite length_fmap. }
    split.
    + intros Hz. left. destruct reads as [|r reads]; [done|].
      apply size_empty_iff in Hz. rewrite fmap_cons, list_to_set_cons in Hz.
      set_solver.
    + intros [->|Hex]; [by rewrite fmap_nil, list_to_set_nil, size_empty|].
      apply Exists_exists in Hex as (r & Hr & Hu).
      rewrite (proj1 (Forall_forall _ _) Hm r Hr) in Hu. discriminate.
  - exists 0%nat. split; [|split; [lia|]].
    + unfold count_transcriptome_multimaps.
      destruct (count_loop_covered h gm reads ∅ Hcov) as [n Hn].
      destruct (count_loop_zero_or_raise h gm reads ∅ Hu); congruence.
    + split; [by right | done].
Qed.

(** The count depends only on the set of locus keys: the order of the
    records, repeated records and the transcript a locus was reached through
    do not matter. *)
Theorem multimap_count_depends_on_locus_set h (gm : gmap Z genome_entry)
    reads reads' :
  Forall (covered_by gm h) reads →
  (Forall (known_in gm h) reads → Forall (known_in gm h) reads' →
   (∀ k, k ∈ (λ r, locus_key gm (deref h r)) <$> reads
         ↔ k ∈ (λ r, locus_key gm (deref h r)) <$> reads') →
   count_transcriptome_multimaps h reads gm
   = count_transcriptome_multimaps h reads' gm)
  ∧ (reads ≡ₚ reads' →
     count_transcriptome_multimaps h reads gm
     = count_transcriptome_multimaps h reads' gm).
Proof.
  intros Hcov.
  assert (∀ l l', Forall (known_in gm h) l → Forall (known_in gm h) l' →
            (∀ k, k ∈ (λ r, locus_key gm (deref h r)) <$> l
                  ↔ k ∈ (λ r, locus_key gm (deref h r)) <$> l') →
            count_transcriptome_multimaps h l gm
            = count_transcriptome_multimaps h l' gm) as Hset.
  { intros l l' Hk Hk' Hsame. unfold count_transcriptome_multimaps.
    rewrite !count_loop_known by done. f_equal. f_equal. f_equal.
    apply set_eq. intros k. rewrite !elem_of_list_to_set. apply Hsame. }
  split; [apply Hset|].
  intros Hperm.
  assert (Forall (covered_by gm h) reads') as Hcov' by by rewrite <- Hperm.
  destruct (mapped_or_unmapped h reads) as [Hm|Hu].
  - apply Hset.
    + by apply covered_mapped_known.
    + apply covered_mapped_known; [done | by rewrite <- Hperm].
    + intros k. by rewrite Hperm.
  - assert (Exists (λ r, is_unmapped (deref h r) = true) reads') as Hu'
      by by rewrite <- Hperm.
    unfold count_transcriptome_multimaps.
    destruct (count_loop_covered h gm reads ∅ Hcov) as [n Hn].
    destruct (count_loop_covered h gm reads' ∅ Hcov') as [n' Hn'].
    destruct (count_loop_zero_or_raise h gm reads ∅ Hu);
      destruct (count_loop_zero_or_raise h gm reads' ∅ Hu'); congruence.
Qed.

End CounterProperties.

Section BinnerProperties.

Implicit Types (h : heap) (r : ref) (reads : list ref) (pe : fragment)
  (d : bins).

Lemma bucket_bin_append key' key n r d :
  bucket key' (bin_append key n r d)
  = if decide (key = key') then append_mate n r (bucket key d)
    else bucket key' d.
Proof.
  induction d as [|[k p] d IH]; simpl.
  - destruct (decide (key = key')); done.
  - destruct (decide (k = key)) as [->|Hk]; simpl.
    + destruct (decide (key = key')); done.
    + rewrite IH. destruct (decide (k = key')) as [->|Hk'];
        destruct (decide (key = key')) as [->|Hkk]; done.
Qed.

Lemma keys_bin_append key n r d :
  (bin_append key n r d).*1
  = if decide (key ∈ d.*1) then d.*1 else d.*1 ++ [key].
Proof.
  induction d as [|[k p] d IH]; cbn [bin_append].
  - rewrite fmap_nil, fmap_cons.
    destruct (decide (key ∈ [])) as [Hin|_]; [by apply elem_of_nil in Hin|done].
  - destruct (decide (k = key)) as [->|Hk]; rewrite !fmap_cons; cbn [fst].
    + destruct (decide (key ∈ key :: d.*1)) as [_|Hn]; [done|].
      destruct Hn. apply list_elem_of_here.
    + rewrite IH.
      destruct (decide (key ∈ d.*1)) as [Hin|Hin];
        destruct (decide (key ∈ k :: d.*1)) as [Hin'|Hin']; try done.
      * destruct Hin'. by apply list_elem_of_further.
      * apply elem_of_cons in Hin' as [->|?]; done.
Qed.

Lemma append_mate_nonempty n r (p : list ref * list ref) :
  (append_mate n r p).1 ++ (append_mate n r p).2 ≠ [].
Proof.
  destruct n; simpl.
  - intros Heq. apply app_eq_nil in Heq as [Heq _].
    by apply app_eq_nil in Heq as [_ ?].
  - intros Heq. apply app_eq_nil in Heq as [_ Heq].
    by apply app_eq_nil in Heq as [_ ?].
Qed.

Lemma bins_wf_bin_append key n r d :
  bins_wf d → bins_wf (bin_append key n r d).
Proof.
  intros [Hnd Hne]. split.
  - rewrite keys_bin_append. destruct (decide (key ∈ d.*1)); [done|].
    apply NoDup_app. split; [done|]. split; [|apply NoDup_singleton].
    intros x Hx ->%list_elem_of_singleton. done.
  - clear Hnd. induction d as [|[k p] d IH]; simpl.
    + apply Forall_cons_2; [apply append_mate_nonempty | constructor].
    + apply Forall_cons in Hne as [Hp Hne].
      destruct (decide (k = key)); apply Forall_cons_2; auto.
      apply append_mate_nonempty.
Qed.

Lemma bucket_of_entry d k p :
  NoDup d.*1 → (k, p) ∈ d → bucket k d = p.
Proof.
  induction d as [|[k' p'] d IH]; intros Hnd Hin;
    [by apply elem_of_nil in Hin|].
  simpl in *. apply NoDup_cons in Hnd as [Hnin Hnd].
  apply elem_of_cons in Hin as [Heq|Hin].
  - injection Heq as -> ->. by destruct (decide (k' = k')).
  - destruct (decide (k' = k)) as [->|_]; [|by apply IH].
    destruct Hnin. apply list_elem_of_fmap. by exists (k, p).
Qed.

Lemma entry_of_bucket d k :
  bucket k d ≠ ([], []) → (k, bucket k d) ∈ d.
Proof.
  induction d as [|[k' p'] d IH]; intros Hne; [done|]. simpl in *.
  destruct (decide (k' = k)) as [->|_]; [apply list_elem_of_here|].
  by apply list_elem_of_further, IH.
Qed.

Lemma extend_mate_cons n r l p :
  extend_mate n (r :: l) p = extend_mate n l (append_mate n r p).
Proof. destruct n; simpl; by rewrite <- app_assoc. Qed.

(** What the inner loop of the binner does to the two dictionaries. *)
Lemma bin_loop_buckets (txm : gmap Z TranscriptFeature) n reads :
  ∀ rd cd h rd' cd' h',
    for_each reads (bin_read txm n) (rd, cd) h = Ok (rd', cd', h') →
    (bins_wf rd → bins_wf rd') ∧ (bins_wf cd → bins_wf cd')
    ∧ (∀ k, bucket k rd'
            = extend_mate n (filter (on_reference h k) reads) (bucket k rd))
    ∧ (∀ c, bucket c cd'
            = extend_mate n (filter (in_cluster txm h c) reads)
                          (bucket c cd)).
Proof.
  induction reads as [|r reads IH]; intros rd cd h rd' cd' h' Hrun.
  - injection Hrun as <- <- <-.
    split; [done|]. split; [done|]. split.
    + intros k. destruct n; simpl; by rewrite ?app_nil_r, <- surjective_pairing.
    + intros c. destruct n; simpl; by rewrite ?app_nil_r, <- surjective_pairing.
  - cbn [for_each] in Hrun.
    apply bind_ok_inv in Hrun as ([rd1 cd1] & h1 & Hstep & Hrun).
    unfold bin_read, bind, gets, ret, raise in Hstep.
    destruct (is_unmapped (deref h r)) eqn:Hu.
    + injection Hstep as <- <- <-.
      destruct (IH _ _ _ _ _ _ Hrun) as (Hw1 & Hw2 & Hb1 & Hb2).
      split; [done|]. split; [done|]. split.
      * intros k. rewrite Hb1, filter_cons.
        destruct (decide (on_reference h k r)) as [[Hm _]|_]; [congruence|done].
      * intros c. rewrite Hb2, filter_cons.
        destruct (decide (in_cluster txm h c r)) as [[Hm _]|_];
          [congruence|done].
    + destruct (txm !! tid (deref h r)) as [tx|] eqn:Htx; [|discriminate].
      injection Hstep as <- <- <-.
      destruct (IH _ _ _ _ _ _ Hrun) as (Hw1 & Hw2 & Hb1 & Hb2).
      split; [intros Hw; by apply Hw1, bins_wf_bin_append|].
      split; [intros Hw; by apply Hw2, bins_wf_bin_append|].
      split.
      * intros k. rewrite Hb1, bucket_bin_append, filter_cons.
        destruct (decide (tid (deref h r) = k)) as [Hk|Hk];
          destruct (decide (on_reference h k r)) as [Hon|Hon].
        -- by rewrite extend_mate_cons, Hk.
        -- destruct Hon. by split.
        -- by destruct Hon as [_ ?].
        -- done.
      * intros c. rewrite Hb2, bucket_bin_append, filter_cons.
        destruct (decide (cluster_id tx = c)) as [Hc|Hc];
          destruct (decide (in_cluster txm h c r)) as [Hon|Hon].
        -- by rewrite extend_mate_cons, Hc.
        -- destruct Hon. split; [done|]. rewrite Htx. simpl. by rewrite Hc.
        -- destruct Hon as [_ Hon]. rewrite Htx in Hon. simpl in Hon.
           congruence.
        -- done.
Qed.

Lemma bins_wf_nil : bins_wf [].
Proof. split; constructor. Qed.

(** The dictionaries of the binner, bucket by bucket. *)
Lemma map_reads_buckets pe (txm : gmap Z TranscriptFeature) h
    refdict clusterdict h' :
  map_reads_to_references pe txm h = Ok (refdict, clusterdict, h') →
  h' = h ∧ bins_wf refdict ∧ bins_wf clusterdict
  ∧ (∀ k, bucket k refdict
          = (filter (on_reference h k) pe.1, filter (on_reference h k) pe.2))
  ∧ (∀ c, bucket c clusterdict
          = (filter (in_cluster txm h c) pe.1,
             filter (in_cluster txm h c) pe.2)).
Proof.
  intros Hrun. pose proof (map_reads_store _ _ _ _ _ Hrun) as ->.
  rewrite map_reads_unfold in Hrun.
  apply bind_ok_inv in Hrun as ([rd1 cd1] & h1 & Hrun1 & Hrun2).
  assert (h1 = h) as ->.
  { destruct (Forall_covered_or_Exists_missing txm h pe.1) as [Hc|Hm].
    - destruct (bin_loop_covered txm 0%nat h pe.1 ([], []) Hc) as [d Hd].
      congruence.
    - rewrite (bin_loop_missing txm 0%nat h pe.1 _ Hm) in Hrun1.
      discriminate. }
  destruct (bin_loop_buckets _ _ _ _ _ _ _ _ _ Hrun1)
    as (Hw1 & Hw2 & Hb1 & Hb2).
  destruct (bin_loop_buckets _ _ _ _ _ _ _ _ _ Hrun2)
    as (Hw1' & Hw2' & Hb1' & Hb2').
  split; [done|].
  split; [apply Hw1', Hw1, bins_wf_nil|].
  split; [apply Hw2', Hw2, bins_wf_nil|].
  split.
  - intros k. by rewrite Hb1', Hb1.
  - intros c. by rewrite Hb2', Hb2.
Qed.

(** The binner files every mapped record once under its reference id and
    once under the cluster of its transcript, mate 1 in the first list and
    mate 2 in the second, in the order of the input; unmapped records are in
    no bucket, no key occurs twice, and no bucket is empty. *)
Theorem binner_files_each_mapped_record_once
    pe (txm : gmap Z TranscriptFeature) h refdict clusterdict h' :
  map_reads_to_references pe txm h = Ok (refdict, clusterdict, h') →
  h' = h
  ∧ NoDup refdict.*1 ∧ NoDup clusterdict.*1
  ∧ (∀ k l1 l2,
       (k, (l1, l2)) ∈ refdict
       ↔ l1 = filter (on_reference h k) pe.1
         ∧ l2 = filter (on_reference h k) pe.2
         ∧ l1 ++ l2 ≠ [])
  ∧ (∀ c l1 l2,
       (c, (l1, l2)) ∈ clusterdict
       ↔ l1 = filter (in_cluster txm h c) pe.1
         ∧ l2 = filter (in_cluster txm h c) pe.2
         ∧ l1 ++ l2 ≠ []).
Proof.
  intros (-> & [Hnd1 Hne1] & [Hnd2 Hne2] & Hb1 & Hb2)%map_reads_buckets.
  split; [done|]. split; [done|]. split; [done|].
  assert (∀ d (f1 f2 : Z → list ref),
            NoDup d.*1 →
            Forall (λ e : Z * (list ref * list ref), e.2.1 ++ e.2.2 ≠ []) d →
            (∀ k, bucket k d = (f1 k, f2 k)) →
            ∀ k l1 l2, (k, (l1, l2)) ∈ d
                       ↔ l1 = f1 k ∧ l2 = f2 k ∧ l1 ++ l2 ≠ []) as Hchar.
  { intros d f1 f2 Hnd Hne Hb k l1 l2. split.
    - intros Hin. pose proof (bucket_of_entry d k _ Hnd Hin) as Hbk.
      rewrite Hb in Hbk. injection Hbk as <- <-.
      repeat split. apply (proj1 (Forall_forall _ _) Hne _ Hin).
    - intros (-> & -> & Hn). rewrite <- Hb. apply entry_of_bucket.
      rewrite Hb. intros Heq. injection Heq as E1 E2.
      rewrite E1, E2 in Hn. done. }
  split; [by apply Hchar | by apply Hchar].
Qed.

End BinnerProperties.

Section StageProperties.
Context {collab : Collaborators}.

Implicit Types (h : heap) (r : ref) (reads : list ref) (pe : fragment)
  (d : bins).

(** After a loop over a non-empty list, what every iteration establishes
    holds. *)
Lemma for_each_post {S A B} (P : B → Prop) (l : list A)
    (body : B → A → M S B) :
  l ≠ [] →
  (∀ acc x s, ∃ acc' s', body acc x s = Ok (acc', s') ∧ P acc') →
  ∀ acc s, ∃ acc' s', for_each l body acc s = Ok (acc', s') ∧ P acc'.
Proof.
  intros Hne Hbody acc s. destruct l as [|x l]; [done|].
  destruct (Hbody acc x s) as (acc1 & s1 & Hstep & HP).
  cbn [for_each]. rewrite (bind_ok _ _ _ _ _ Hstep).
  apply (for_each_invariant (λ acc _, P acc)); [|done].
  intros acc2 y s2 _ _. apply Hbody.
Qed.

Lemma pair_candidate_sets_found s c t st r1 r2 h :
  ∃ st' h', pair_candidate s c t st r1 r2 h = Ok (st', h') ∧ st'.1.1 = true.
Proof.
  destruct st as [[f cl] dl]. rewrite pair_candidate_run.
  eexists _, _. split; [done|]. by destruct (strand_compatible _ _ _).
Qed.

(** The test of a stage on one bucket. *)
Lemma pair_stage_cons s c t k (l1 l2 : list ref) d st h :
  pair_stage s c t ((k, (l1, l2)) :: d) st h
  = bind (if (length l1 =? 0)%nat || (length l2 =? 0)%nat then ret st
          else for_each l1
                 (λ st r1, for_each l2
                             (λ st r2, pair_candidate s c t st r1 r2) st) st)
         (pair_stage s c t d) h.
Proof. reflexivity. Qed.

Lemma pair_stage_keeps_found s c t d st h :
  st.1.1 = true →
  ∃ st' h', pair_stage s c t d st h = Ok (st', h') ∧ st'.1.1 = true.
Proof.
  unfold pair_stage.
  apply (for_each_invariant (λ (st : stage_state) _, st.1.1 = true)).
  intros st1 [k [l1 l2]] h1 _ Hf. simpl.
  destruct ((length l1 =? 0)%nat || (length l2 =? 0)%nat);
    [by eexists _, _|].
  revert st1 h1 Hf.
  apply (for_each_invariant (λ (st : stage_state) _, st.1.1 = true)).
  intros st2 r1 h2 _ Hf. revert st2 h2 Hf.
  apply (for_each_invariant (λ (st : stage_state) _, st.1.1 = true)).
  intros st3 r2 h3 _ _. apply pair_candidate_sets_found.
Qed.

(** [found_pair] is set by a stage exactly when some bucket holds a record
    of each mate. *)
Lemma pair_stage_found s c t d :
  ∀ st h, ∃ st' h',
    pair_stage s c t d st h = Ok (st', h')
    ∧ (st'.1.1 = true ↔ st.1.1 = true ∨ pairable d).
Proof.
  induction d as [|[k [l1 l2]] d IH]; intros st h.
  - exists st, h. split; [done|]. split; [by left|].
    intros [?|Hp]; [done | by inversion Hp].
  - rewrite pair_stage_cons.
    destruct l1 as [|r1 l1]; [|destruct l2 as [|r2 l2]].
    + simpl. rewrite (bind_ok (ret st) _ h st h eq_refl).
      destruct (IH st h) as (st' & h' & Hrun & Hiff).
      exists st', h'. split; [done|]. rewrite Hiff. unfold pairable.
      rewrite Exists_cons. simpl. tauto.
    + simpl. rewrite (bind_ok (ret st) _ h st h eq_refl).
      destruct (IH st h) as (st' & h' & Hrun & Hiff).
      exists st', h'. split; [done|]. rewrite Hiff. unfold pairable.
      rewrite Exists_cons. simpl. tauto.
    + cbn [length Nat.eqb orb].
      destruct (for_each_post (λ st : stage_state, st.1.1 = true)
                  (r1 :: l1)
                  (λ st r1, for_each (r2 :: l2)
                     (λ st r2, pair_candidate s c t st r1 r2) st))
        with (acc := st) (s := h) as (st1 & h1 & Hrun1 & Hf1); [done| |].
      { intros acc x s0.
        apply (for_each_post (λ st : stage_state, st.1.1 = true)); [done|].
        intros acc' y s1. apply pair_candidate_sets_found. }
      rewrite (bind_ok _ _ _ _ _ Hrun1).
      destruct (pair_stage_keeps_found s c t d st1 h1 Hf1)
        as (st' & h' & Hrun & Hf).
      exists st', h'. split; [done|]. split; [|done].
      intros _. right. apply Exists_cons_hd. by split.
Qed.

Lemma filter_nonempty_iff {A} (P : A → Prop) `{!∀ x, Decision (P x)}
    (l : list A) :
  filter P l ≠ [] ↔ ∃ x, x ∈ l ∧ P x.
Proof.
  split.
  - intros Hne. destruct (filter P l) as [|x l'] eqn:E; [done|].
    exists x. assert (x ∈ filter P l) as Hx by (rewrite E; apply list_elem_of_here).
    apply list_elem_of_filter in Hx as [? ?]. done.
  - intros (x & Hx & HP) Hnil.
    by apply (filter_nil_not_elem_of _ _ x Hnil HP).
Qed.

(** Seen through its buckets, a dictionary is pairable exactly when a
    record of mate 1 and a record of mate 2 have a key in common. *)
Lemma pairable_iff_shared_key d (P : Z → ref → Prop)
    `{!∀ k r, Decision (P k r)} (m1 m2 : list ref) :
  bins_wf d →
  (∀ k, bucket k d = (filter (P k) m1, filter (P k) m2)) →
  pairable d ↔ ∃ r1 r2 k, r1 ∈ m1 ∧ r2 ∈ m2 ∧ P k r1 ∧ P k r2.
Proof.
  intros [Hnd _] Hb. unfold pairable. rewrite Exists_exists. split.
  - intros ([k [l1 l2]] & Hin & Hl1 & Hl2). simpl in *.
    pose proof (bucket_of_entry d k _ Hnd Hin) as Hbk. rewrite Hb in Hbk.
    injection Hbk as <- <-.
    apply filter_nonempty_iff in Hl1 as (r1 & Hr1 & HP1).
    apply filter_nonempty_iff in Hl2 as (r2 & Hr2 & HP2).
    by exists r1, r2, k.
  - intros (r1 & r2 & k & Hr1 & Hr2 & HP1 & HP2).
    assert (filter (P k) m1 ≠ []) as Hn1
      by (apply filter_nonempty_iff; by exists r1).
    assert (filter (P k) m2 ≠ []) as Hn2
      by (apply filter_nonempty_iff; by exists r2).
    exists (k, bucket k d). split.
    + apply entry_of_bucket. rewrite Hb. intros Heq. by injection Heq.
    + rewrite Hb. done.
Qed.

Lemma stage_found_iff_filed s c t d h st' h' :
  pair_stage s c t d (false, [], []) h = Ok (st', h') →
  (st'.1.2 ++ st'.2 ≠ [] ↔ pairable d).
Proof.
  intros Hrun.
  destruct (pair_stage_invariant h s c t d (false, [], []) h)
    as (st1 & h1 & Hrun1 & _ & Hfound & _); [by apply stage_invariant_start|].
  destruct (pair_stage_found s c t d (false, [], []) h)
    as (st2 & h2 & Hrun2 & Hiff).
  rewrite Hrun in Hrun1, Hrun2.
  injection Hrun1 as <- <-. injection Hrun2 as <- <-.
  rewrite <- Hfound, Hiff. simpl. split; [intros [?|?]; done | by right].
Qed.

Lemma pairing_stages_filed_iff
    pe lt (txm : gmap Z TranscriptFeature) h ctx dtx ccl dcl h1 :
  pairing_stages pe lt txm h = Ok (ctx, dtx, ccl, dcl, h1) →
  let share_reference :=
    ∃ r1 r2 k, r1 ∈ pe.1 ∧ r2 ∈ pe.2
               ∧ on_reference h k r1 ∧ on_reference h k r2 in
  let share_cluster :=
    ∃ r1 r2 c, r1 ∈ pe.1 ∧ r2 ∈ pe.2
               ∧ in_cluster txm h c r1 ∧ in_cluster txm h c r2 in
  (ctx ++ dtx ≠ [] ↔ share_reference)
  ∧ (ccl ++ dcl ≠ [] ↔ ¬ share_reference ∧ share_cluster)
  ∧ (ctx = [] ∧ dtx = [] ∧ ccl = [] ∧ dcl = [] ↔ ¬ share_cluster).
Proof.
  intros Hrun share_reference share_cluster.
  apply pairing_stages_inv in Hrun
    as (refdict & clusterdict & h0 & found & h1' & Hbin & Hst1 & Hcase).
  assert (Forall (covered_by txm h) (pe.1 ++ pe.2)) as Hcov.
  { destruct (Forall_covered_or_Exists_missing txm h (pe.1 ++ pe.2))
      as [Hc|Hm]; [done|].
    rewrite (map_reads_missing pe txm h Hm) in Hbin. discriminate. }
  apply map_reads_buckets in Hbin as (-> & Hw1 & Hw2 & Hb1 & Hb2).
  pose proof (stage_found_iff_filed _ _ _ _ _ _ _ Hst1) as Hfiled1.
  simpl in Hfiled1.
  rewrite (pairable_iff_shared_key refdict (on_reference h) pe.1 pe.2 Hw1 Hb1)
    in Hfiled1.
  pose proof (pairable_iff_shared_key clusterdict (in_cluster txm h)
                pe.1 pe.2 Hw2 Hb2) as Hpc.
  destruct (pair_stage_invariant h (same_strand lt) CONCORDANT_TX
              DISCORDANT_STRAND_TX refdict (false, [], []) h)
    as (st1 & h1'' & Hrun1 & _ & Hfound & _); [by apply stage_invariant_start|].
  rewrite Hst1 in Hrun1. injection Hrun1 as <- <-. simpl in Hfound.
  assert (share_reference → share_cluster) as Hsub.
  { intros (r1 & r2 & k & Hr1 & Hr2 & [Hm1 Hk1] & [Hm2 Hk2]).
    assert (covered_by txm h r1) as Hc1.
    { apply (proj1 (Forall_forall _ _) Hcov). apply elem_of_app. by left. }
    destruct (Hc1 Hm1) as [tx Htx].
    exists r1, r2, (cluster_id tx).
    repeat split; try done.
    - by rewrite Htx.
    - rewrite Hk2, <- Hk1. by rewrite Htx. }
  split; [exact Hfiled1|].
  destruct Hcase as [(-> & -> & -> & _)|(-> & found2 & Hst2)].
  - assert (share_reference) as Hsr by by apply Hfiled1, Hfound.
    split.
    + split; [done | intros [Hn _]; done].
    + split.
      * intros (-> & -> & _). by destruct (proj1 Hfound eq_refl).
      * intros Hn. destruct Hn. by apply Hsub.
  - pose proof (stage_found_iff_filed _ _ _ _ _ _ _ Hst2) as Hfiled2.
    simpl in Hfiled2. rewrite Hpc in Hfiled2.
    assert (ctx ++ dtx = []) as Hempty.
    { destruct (ctx ++ dtx) eqn:E; [done|].
      by discriminate (proj2 Hfound). }
    assert (¬ share_reference) as Hnsr.
    { intros Hsr. by apply Hfiled1 in Hsr. }
    split.
    + split; [intros Hne; split; [done | by apply Hfiled2]|].
      intros [_ Hsc]. by apply Hfiled2.
    + apply app_eq_nil in Hempty as [-> ->]. split.
      * intros (_ & _ & -> & ->) Hsc. by apply Hfiled2 in Hsc.
      * intros Hn. split; [done|]. split; [done|].
        destruct ccl; [|destruct Hn; by apply Hfiled2].
        destruct dcl; [done|]. destruct Hn. by apply Hfiled2.
Qed.

(** The same-reference stage files a candidate exactly when a mapped record
    of mate 1 and a mapped record of mate 2 have the same reference id.  The
    same-cluster stage files one exactly when no two such records exist but
    the transcripts of two of them are in the same cluster.  So the
    cross-gene stage is reached exactly when no record of mate 1 shares a
    cluster with a record of mate 2. *)
Theorem stages_file_candidates_iff_mates_share_key
    pe lt (txm : gmap Z TranscriptFeature) h ctx dtx ccl dcl h1 :
  pairing_stages pe lt txm h = Ok (ctx, dtx, ccl, dcl, h1) →
  let share_reference :=
    ∃ r1 r2 k, r1 ∈ pe.1 ∧ r2 ∈ pe.2
               ∧ on_reference h k r1 ∧ on_reference h k r2 in
  let share_cluster :=
    ∃ r1 r2 c, r1 ∈ pe.1 ∧ r2 ∈ pe.2
               ∧ in_cluster txm h c r1 ∧ in_cluster txm h c r2 in
  (ctx ++ dtx ≠ [] ↔ share_reference)
  ∧ (ccl ++ dcl ≠ [] ↔ ¬ share_reference ∧ share_cluster)
  ∧ (ctx = [] ∧ dtx = [] ∧ ccl = [] ∧ dcl = [] ↔ ¬ share_cluster).
Proof. apply pairing_stages_filed_iff. Qed.

End StageProperties.

Section CopyProperties.
Context {collab : Collaborators}.

Implicit Types (h : heap) (r : ref) (reads : list ref) (pe : fragment)
  (d : bins).

Lemma stage_copy_ext h0 h e s t b cand p :
  stage_copy h0 h s t b cand p → stage_copy h0 (h ++ e) s t b cand p.
Proof.
  intros (Hs & [Hl1 Hu1] & [Hl2 Hu2] & Hd1 & Hd2). unfold stage_copy.
  rewrite length_app, !deref_app_l by done.
  repeat split; try done; by apply Nat.lt_lt_add_r.
Qed.

Lemma stage_copy_fresh h0 ext s t r1 r2 :
  (r1 < length h0)%nat → (r2 < length h0)%nat →
  let h := h0 ++ ext in
  stage_copy h0
    (h ++ [add_tags [DiscordantTag t] (deref h r1);
           add_tags [DiscordantTag t] (deref (h ++ [deref h r1]) r2)])
    s t (strand_compatible s (deref h r1) (deref h r2))
    (r1, r2) (length h, S (length h)).
Proof.
  intros Hr1 Hr2 h. subst h. unfold stage_copy. cbn [fst snd].
  rewrite deref_app_length, deref_app_second.
  rewrite <- (app_assoc h0 ext [deref (h0 ++ ext) r1]).
  rewrite !(deref_app_l h0) by done.
  rewrite !length_app. simpl. repeat split; lia.
Qed.

Lemma pair_stage_copies h0 s c t d :
  Forall (λ e : Z * (list ref * list ref),
            Forall (λ r, (r < length h0)%nat) (e.2.1 ++ e.2.2)) d →
  ∀ st h,
    stage_copies_invariant h0 d s c t st h →
    ∃ st' h', pair_stage s c t d st h = Ok (st', h')
              ∧ stage_copies_invariant h0 d s c t st' h'.
Proof.
  intros Hvalid. unfold pair_stage.
  apply (for_each_invariant (stage_copies_invariant h0 d s c t)).
  intros st1 [k [l1 l2]] h1 Hin Hinv. simpl.
  destruct ((length l1 =? 0)%nat || (length l2 =? 0)%nat);
    [by eexists _, _|].
  pose proof (proj1 (Forall_forall _ _) Hvalid _ Hin) as Hv. simpl in Hv.
  apply Forall_app in Hv as [Hv1 Hv2].
  revert st1 h1 Hinv.
  apply (for_each_invariant (stage_copies_invariant h0 d s c t)).
  intros st2 r1 h2 Hr1 Hinv. revert st2 h2 Hinv.
  apply (for_each_invariant (stage_copies_invariant h0 d s c t)).
  intros [[f cl] dl] r2 h3 Hr2 ([ext ->] & Hc & Hd). simpl in Hc, Hd.
  rewrite pair_candidate_run. eexists _, _. split; [done|].
  pose proof (proj1 (Forall_forall _ _) Hv1 _ Hr1) as Hlt1.
  pose proof (proj1 (Forall_forall _ _) Hv2 _ Hr2) as Hlt2.
  pose proof (stage_copy_fresh h0 ext s c r1 r2 Hlt1 Hlt2) as Hnewc.
  pose proof (stage_copy_fresh h0 ext s t r1 r2 Hlt1 Hlt2) as Hnewt.
  simpl in Hnewc, Hnewt.
  assert (bin_candidate d (r1, r2)) as Hcand by by exists k, l1, l2.
  assert (∀ tag b (l : list (ref * ref)) e,
            Forall (λ p, ∃ cand, bin_candidate d cand
                                 ∧ stage_copy h0 (h0 ++ ext) s tag b cand p) l →
            Forall (λ p, ∃ cand, bin_candidate d cand
                                 ∧ stage_copy h0 ((h0 ++ ext) ++ e) s tag b
                                              cand p) l) as Hext.
  { intros tag b l e Hl. eapply Forall_impl; [exact Hl|].
    intros p (cand & Hbc & Hsc). exists cand. split; [done|].
    by apply stage_copy_ext. }
  destruct (strand_compatible s (deref (h0 ++ ext) r1) (deref (h0 ++ ext) r2))
    eqn:Hsm; unfold stage_copies_invariant; cbn [fst snd].
  - split; [eexists; by rewrite <- app_assoc|]. split; [|by apply Hext].
    apply Forall_app. split; [by apply Hext|].
    apply Forall_cons_2; [|constructor]. by exists (r1, r2).
  - split; [eexists; by rewrite <- app_assoc|]. split; [by apply Hext|].
    apply Forall_app. split; [by apply Hext|].
    apply Forall_cons_2; [|constructor]. by exists (r1, r2).
Qed.

Lemma stage_copies_invariant_start h0 ext d s c t f :
  stage_copies_invariant h0 d s c t (f, [], []) (h0 ++ ext).
Proof. split; [by exists ext|]. split; constructor. Qed.

Lemma bins_valid_of_buckets d (P : Z → ref → Prop)
    `{!∀ k r, Decision (P k r)} (m1 m2 : list ref) (n : nat) :
  bins_wf d →
  (∀ k, bucket k d = (filter (P k) m1, filter (P k) m2)) →
  Forall (λ r, (r < n)%nat) (m1 ++ m2) →
  Forall (λ e : Z * (list ref * list ref),
            Forall (λ r, (r < n)%nat) (e.2.1 ++ e.2.2)) d.
Proof.
  intros [Hnd _] Hb Hval. apply Forall_forall. intros [k [l1 l2]] Hin.
  pose proof (bucket_of_entry d k _ Hnd Hin) as Hbk. rewrite Hb in Hbk.
  injection Hbk as <- <-. simpl.
  apply Forall_app in Hval as [Hv1 Hv2].
  apply Forall_app. split; apply Forall_forall;
    intros r [_ Hr]%list_elem_of_filter.
  - by apply (proj1 (Forall_forall _ _) Hv1).
  - by apply (proj1 (Forall_forall _ _) Hv2).
Qed.

Lemma bin_candidate_of_buckets d (P : Z → ref → Prop)
    `{!∀ k r, Decision (P k r)} (m1 m2 : list ref) cand :
  bins_wf d →
  (∀ k, bucket k d = (filter (P k) m1, filter (P k) m2)) →
  bin_candidate d cand →
  ∃ k, cand.1 ∈ m1 ∧ cand.2 ∈ m2 ∧ P k cand.1 ∧ P k cand.2.
Proof.
  intros [Hnd _] Hb (k & l1 & l2 & Hin & H1 & H2).
  pose proof (bucket_of_entry d k _ Hnd Hin) as Hbk. rewrite Hb in Hbk.
  injection Hbk as <- <-.
  apply list_elem_of_filter in H1 as [? ?].
  apply list_elem_of_filter in H2 as [? ?]. by exists k.
Qed.

Lemma pair_from_of_candidates pe d (P : Z → ref → Prop)
    `{!∀ k r, Decision (P k r)} h hh s tag b (l : list (ref * ref)) :
  bins_wf d →
  (∀ k, bucket k d = (filter (P k) pe.1, filter (P k) pe.2)) →
  Forall (λ p, ∃ cand, bin_candidate d cand
                       ∧ stage_copy h hh s tag b cand p) l →
  Forall (pair_from pe P h hh s tag b) l.
Proof.
  intros Hw Hb Hl. eapply Forall_impl; [exact Hl|].
  intros p ([r1 r2] & Hbc & Hsc).
  destruct (bin_candidate_of_buckets d P pe.1 pe.2 _ Hw Hb Hbc)
    as (k & ? & ? & ? & ?).
  by exists r1, r2, k.
Qed.

Lemma pairing_stages_copies
    pe lt (txm : gmap Z TranscriptFeature) h ctx dtx ccl dcl h1 :
  Forall (λ r, (r < length h)%nat) (pe.1 ++ pe.2) →
  pairing_stages pe lt txm h = Ok (ctx, dtx, ccl, dcl, h1) →
  (∃ ext, h1 = h ++ ext)
  ∧ Forall (pair_from pe (on_reference h) h h1 (same_strand lt)
                      CONCORDANT_TX true) ctx
  ∧ Forall (pair_from pe (on_reference h) h h1 (same_strand lt)
                      DISCORDANT_STRAND_TX false) dtx
  ∧ Forall (pair_from pe (in_cluster txm h) h h1 (same_strand lt)
                      CONCORDANT_GENE true) ccl
  ∧ Forall (pair_from pe (in_cluster txm h) h h1 (same_strand lt)
                      DISCORDANT_STRAND_GENE false) dcl.
Proof.
  intros Hval Hrun.
  apply pairing_stages_inv in Hrun
    as (refdict & clusterdict & h0 & found & h1' & Hbin & Hst1 & Hcase).
  apply map_reads_buckets in Hbin as (-> & Hw1 & Hw2 & Hb1 & Hb2).
  pose proof (bins_valid_of_buckets refdict (on_reference h) pe.1 pe.2
                (length h) Hw1 Hb1 Hval) as Hv1.
  pose proof (bins_valid_of_buckets clusterdict (in_cluster txm h) pe.1 pe.2
                (length h) Hw2 Hb2 Hval) as Hv2.
  destruct (pair_stage_copies h (same_strand lt) CONCORDANT_TX
              DISCORDANT_STRAND_TX refdict Hv1 (false, [], []) h)
    as (st1 & h1'' & Hrun1 & [ext1 ->] & Hc1 & Hd1).
  { rewrite <- (app_nil_r h) at 2. apply stage_copies_invariant_start. }
  rewrite Hst1 in Hrun1. injection Hrun1 as <- ->. simpl in Hc1, Hd1.
  destruct Hcase as [(_ & -> & -> & ->)|(_ & found2 & Hst2)].
  - split; [by exists ext1|].
    split; [by apply (pair_from_of_candidates pe refdict (on_reference h))|].
    split; [by apply (pair_from_of_candidates pe refdict (on_reference h))|].
    split; constructor.
  - destruct (pair_stage_copies h (same_strand lt) CONCORDANT_GENE
                DISCORDANT_STRAND_GENE clusterdict Hv2 (false, [], [])
                (h ++ ext1))
      as (st2 & h2 & Hrun2 & [ext2 Hh2] & Hc2 & Hd2);
      [apply stage_copies_invariant_start|].
    rewrite Hst2 in Hrun2. injection Hrun2 as <- <-. simpl in Hc2, Hd2.
    assert (∃ e, h1 = (h ++ ext1) ++ e) as [e He].
    { destruct (pair_stage_invariant (h ++ ext1) (same_strand lt)
                  CONCORDANT_GENE DISCORDANT_STRAND_GENE clusterdict
                  (false, [], []) (h ++ ext1))
        as (st3 & h3 & Hrun3 & (e & -> & _) & _);
        [by apply stage_invariant_start|].
      rewrite Hst2 in Hrun3. injection Hrun3 as _ ->. by exists e. }
    split; [by exists ext2|].
    split; [|split; [|split]].
    + apply (pair_from_of_candidates pe refdict (on_reference h)); try done.
      rewrite He. eapply Forall_impl; [exact Hc1|].
      intros p (cand & ? & ?). exists cand. split; [done|].
      by apply stage_copy_ext.
    + apply (pair_from_of_candidates pe refdict (on_reference h)); try done.
      rewrite He. eapply Forall_impl; [exact Hd1|].
      intros p (cand & ? & ?). exists cand. split; [done|].
      by apply stage_copy_ext.
    + by apply (pair_from_of_candidates pe clusterdict (in_cluster txm h)).
    + by apply (pair_from_of_candidates pe clusterdict (in_cluster txm h)).
Qed.

(** The pairs of the two pairing stages are new objects: copies of a mate-1
    and a mate-2 record on the same reference (or in the same cluster), with
    CONCORDANT_* appended when the strand test succeeds on the two records
    and DISCORDANT_STRAND_* when it fails.  No object that existed before the
    call is changed. *)
Theorem stage_pairs_are_tagged_copies
    pe lt (txm : gmap Z TranscriptFeature) h ctx dtx ccl dcl h1 :
  Forall (λ r, (r < length h)%nat) (pe.1 ++ pe.2) →
  pairing_stages pe lt txm h = Ok (ctx, dtx, ccl, dcl, h1) →
  (∃ ext, h1 = h ++ ext)
  ∧ Forall (pair_from pe (on_reference h) h h1 (same_strand lt)
                      CONCORDANT_TX true) ctx
  ∧ Forall (pair_from pe (on_reference h) h h1 (same_strand lt)
                      DISCORDANT_STRAND_TX false) dtx
  ∧ Forall (pair_from pe (in_cluster txm h) h h1 (same_strand lt)
                      CONCORDANT_GENE true) ccl
  ∧ Forall (pair_from pe (in_cluster txm h) h h1 (same_strand lt)
                      DISCORDANT_STRAND_GENE false) dcl.
Proof. apply pairing_stages_copies. Qed.

End CopyProperties.

Section WriterProperties.
Context {collab : Collaborators}.

Implicit Types (h : heap) (r : ref) (w : world) (fh : samfile).

Lemma samfile_write_run fh r w :
  samfile_write fh r w = Ok (tt, write_records fh [deref (objects w) r] w).
Proof. by destruct fh. Qed.

Lemma write_records_nil fh w : write_records fh [] w = w.
Proof. destruct w, fh; simpl; by rewrite app_nil_r. Qed.

Lemma write_records_app fh a b w :
  write_records fh b (write_records fh a w) = write_records fh (a ++ b) w.
Proof. destruct fh; simpl; by rewrite <- app_assoc. Qed.

Lemma objects_write_records fh recs w :
  objects (write_records fh recs w) = objects w.
Proof. by destruct fh. Qed.

Lemma channel_write_records fh fh' recs w :
  channel fh' (write_records fh recs w)
  = if decide (fh = fh') then channel fh' w ++ recs else channel fh' w.
Proof. by destruct fh, fh'. Qed.

Lemma write_reads_loop fh (reads : list ref) w :
  for_each reads (λ _ r, samfile_write fh r) tt w
  = Ok (tt, write_records fh (deref (objects w) <$> reads) w).
Proof.
  revert w. induction reads as [|r reads IH]; intros w.
  - simpl. unfold ret. by rewrite write_records_nil.
  - cbn [for_each]. rewrite (bind_ok _ _ _ _ _ (samfile_write_run fh r w)).
    rewrite IH, objects_write_records, write_records_app. done.
Qed.

Lemma write_pe_reads_run fh (lists : list (list ref)) w :
  write_pe_reads (PyReads lists) (PySamfile fh) w
  = Ok (tt, write_records fh (deref (objects w) <$> concat lists) w).
Proof.
  unfold write_pe_reads. revert w.
  induction lists as [|reads lists IH]; intros w.
  - simpl. unfold ret. by rewrite write_records_nil.
  - cbn [for_each]. rewrite (bind_ok _ _ _ _ _ (write_reads_loop fh reads w)).
    rewrite IH, objects_write_records, write_records_app.
    by rewrite <- fmap_app.
Qed.

(** Called as it is defined, with the reads first and the handle second,
    [write_pe_reads] appends every record of every list, in order, to the
    file of that handle; it changes no other file and no object, and it does
    not raise. *)
Theorem write_pe_reads_appends_all_records fh (lists : list (list ref)) w :
  ∃ w',
    write_pe_reads (PyReads lists) (PySamfile fh) w = Ok (tt, w')
    ∧ channel fh w' = channel fh w ++ (deref (objects w) <$> concat lists)
    ∧ (∀ fh', fh' ≠ fh → channel fh' w' = channel fh' w)
    ∧ objects w' = objects w.
Proof.
  eexists. split; [apply write_pe_reads_run|].
  split; [|split; [|apply objects_write_records]].
  - rewrite channel_write_records. by destruct (decide (fh = fh)).
  - intros fh' Hne. rewrite channel_write_records.
    destruct (decide (fh = fh')); [congruence | done].
Qed.

(** In every other arrangement of its arguments [write_pe_reads] writes
    nothing: with a handle in the place of the reads it returns with the
    world as it was or raises, and with reads in the place of the handle it
    raises AttributeError at the first record. *)
Theorem write_pe_reads_misused_writes_nothing (a b : pyobj) w :
  (∀ lists fh, ¬ (a = PyReads lists ∧ b = PySamfile fh)) →
  write_pe_reads a b w = Ok (tt, w) ∨ ∃ e, write_pe_reads a b w = Raise e.
Proof.
  intros Hmis. destruct a as [lists|fh].
  - destruct b as [lists'|fh]; [|by destruct (Hmis lists fh)].
    unfold write_pe_reads. clear Hmis.
    induction lists as [|reads lists IH]; [by left|].
    cbn [for_each]. destruct reads as [|r reads].
    + simpl. by rewrite (bind_ok (ret tt) _ w tt w eq_refl).
    + right. exists AttributeError. reflexivity.
  - unfold write_pe_reads.
    destruct (iter_output_samfile fh) as [[|n]|e]; eauto.
Qed.

End WriterProperties.

Section PairWriterProperties.

Implicit Types (h : heap) (w : world) (fh : samfile) (p : ref * ref).

Lemma opt_discordant_cases ts :
  (∃ d, opt_discordant ts = Ok d) ∨ opt_discordant ts = Raise KeyError.
Proof.
  induction ts as [|[d|o|n v] ts IH]; simpl; eauto.
Qed.

Lemma write_pairs_body_run p pfh dfh w :
  pair_has_discordant_tags (objects w) p →
  write_pairs [p] pfh dfh w
  = Ok (tt, write_records
              (if decide (both_discordant_gene (objects w) p)
               then dfh else pfh)
              (pair_records (objects w) p) w).
Proof.
  destruct p as [r1 r2]. intros [[d1 H1] [d2 H2]]. simpl in H1, H2.
  unfold write_pairs. cbn [for_each].
  assert (∀ fh, (exec samfile_write fh r1; samfile_write fh r2) w
                = Ok (tt, write_records fh (pair_records (objects w) (r1, r2))
                            w)) as Hwrite.
  { intros fh. rewrite (bind_ok _ _ _ _ _ (samfile_write_run fh r1 w)).
    rewrite samfile_write_run, objects_write_records, write_records_app.
    done. }
  unfold bind at 1.
  rewrite (bind_ok _ _ w d1 w (reading_ok _ w d1 H1)).
  rewrite (bind_ok _ _ w d2 w (reading_ok _ w d2 H2)).
  destruct (decide (both_discordant_gene (objects w) (r1, r2)))
    as [[E1 E2]|Hn]; simpl in *.
  - assert (d1 = DISCORDANT_GENE) as -> by congruence.
    assert (d2 = DISCORDANT_GENE) as -> by congruence.
    rewrite bool_decide_eq_true_2 by done. cbn [negb orb].
    by rewrite Hwrite.
  - destruct (bool_decide_reflect (d1 = DISCORDANT_GENE)) as [->|?];
      destruct (bool_decide_reflect (d2 = DISCORDANT_GENE)) as [->|?];
      cbn [negb orb]; rewrite ?Hwrite; try done.
    destruct Hn. by split.
Qed.

Lemma write_pairs_cons p pairs pfh dfh w :
  write_pairs (p :: pairs) pfh dfh w
  = match write_pairs [p] pfh dfh w with
    | Ok (_, w1) => write_pairs pairs pfh dfh w1
    | Raise e => Raise e
    end.
Proof.
  unfold write_pairs.
  change (p :: pairs) with ([p] ++ pairs). rewrite for_each_app.
  unfold bind at 1.
  match goal with
  | |- match ?m with _ => _ end = _ => destruct m as [[[] w1]|e]
  end; done.
Qed.

Lemma concat_guarded_filter {A B} (P : A → Prop) `{∀ x, Decision (P x)}
    (f : A → list B) (l : list A) :
  concat ((λ x, if decide (P x) then f x else []) <$> l)
  = concat (f <$> filter P l).
Proof.
  induction l as [|x l IH]; [done|].
  rewrite fmap_cons, filter_cons. cbn [concat]. rewrite IH.
  destruct (decide (P x)); [by rewrite fmap_cons | done].
Qed.

Lemma write_pairs_run pairs pfh dfh w :
  Forall (pair_has_discordant_tags (objects w)) pairs →
  ∃ w',
    write_pairs pairs pfh dfh w = Ok (tt, w')
    ∧ objects w' = objects w
    ∧ ∀ fh,
        channel fh w'
        = channel fh w
          ++ concat ((λ p,
                        if decide (fh = if decide (both_discordant_gene
                                                     (objects w) p)
                                        then dfh else pfh)
                        then pair_records (objects w) p else []) <$> pairs).
Proof.
  revert w. induction pairs as [|p pairs IH]; intros w Htags.
  - exists w. split; [done|]. split; [done|]. intros fh.
    by rewrite fmap_nil, app_nil_r.
  - apply Forall_cons in Htags as [Hp Htags].
    rewrite write_pairs_cons, (write_pairs_body_run p pfh dfh w Hp).
    set (w1 := write_records _ _ w).
    assert (objects w1 = objects w) as Hobj by apply objects_write_records.
    destruct (IH w1) as (w' & Hrun & Hobj' & Hch); [by rewrite Hobj|].
    exists w'. split; [done|]. split; [congruence|].
    intros fh. rewrite Hch, Hobj. unfold w1.
    rewrite channel_write_records, fmap_cons. cbn [concat].
    destruct (decide (both_discordant_gene (objects w) p));
      destruct (decide (dfh = fh)); destruct (decide (pfh = fh));
      subst; repeat (destruct (decide _); try congruence);
      by rewrite ?app_nil_r, <- ?app_assoc.
Qed.

(** When every record of every pair has a discordant tag, [write_pairs]
    writes the two records of a pair to the discordant file if the first
    discordant tag of both is DISCORDANT_GENE, and to the paired file
    otherwise; the order of the pairs is kept in each file, no other file
    and no object is changed, and no record is written twice. *)
Theorem write_pairs_routes_by_discordant_tag pairs pfh dfh w :
  pfh ≠ dfh →
  Forall (pair_has_discordant_tags (objects w)) pairs →
  ∃ w',
    write_pairs pairs pfh dfh w = Ok (tt, w')
    ∧ objects w' = objects w
    ∧ channel dfh w'
      = channel dfh w
        ++ concat (pair_records (objects w)
                     <$> filter (both_discordant_gene (objects w)) pairs)
    ∧ channel pfh w'
      = channel pfh w
        ++ concat (pair_records (objects w)
                     <$> filter (λ p, ¬ both_discordant_gene (objects w) p)
                           pairs)
    ∧ ∀ fh, fh ≠ pfh → fh ≠ dfh → channel fh w' = channel fh w.
Proof.
  intros Hne Htags.
  destruct (write_pairs_run pairs pfh dfh w Htags) as (w' & Hrun & Hobj & Hch).
  exists w'. split; [done|]. split; [done|].
  split; [|split].
  - rewrite Hch, <- concat_guarded_filter. do 2 f_equal.
    apply list_fmap_ext. intros _ p _.
    destruct (decide (both_discordant_gene (objects w) p));
      repeat (destruct (decide _); try congruence).
  - rewrite Hch, <- concat_guarded_filter. do 2 f_equal.
    apply list_fmap_ext. intros _ p _.
    destruct (decide (both_discordant_gene (objects w) p));
      repeat (destruct (decide _); try congruence); tauto.
  - intros fh H1 H2. rewrite Hch. clear Hrun Hch Htags.
    induction pairs as [|p pairs IH]; [by rewrite fmap_nil, app_nil_r|].
    rewrite fmap_cons. cbn [concat].
    destruct (decide (both_discordant_gene (objects w) p));
      (destruct (decide _); [congruence | exact IH]).
Qed.

Lemma write_pairs_missing_run pairs pfh dfh w :
  Exists (λ p, ¬ pair_has_discordant_tags (objects w) p) pairs →
  write_pairs pairs pfh dfh w = Raise KeyError.
Proof.
  revert w. induction pairs as [|p pairs IH]; intros w Hex;
    [by apply Exists_nil in Hex|].
  rewrite write_pairs_cons.
  destruct (opt_discordant_cases (tags (deref (objects w) p.1)))
    as [[d1 H1]|H1];
    [destruct (opt_discordant_cases (tags (deref (objects w) p.2)))
       as [[d2 H2]|H2]|].
  - assert (pair_has_discordant_tags (objects w) p) as Hp
      by (split; eauto).
    rewrite (write_pairs_body_run p pfh dfh w Hp). apply IH.
    rewrite objects_write_records.
    apply Exists_cons in Hex as [Hex|Hex]; [done | exact Hex].
  - destruct p as [r1 r2]. simpl in H1, H2.
    unfold write_pairs. cbn [for_each]. unfold bind at 1.
    rewrite (bind_ok _ _ w d1 w (reading_ok _ w d1 H1)).
    unfold bind at 1. unfold reading. by rewrite H2.
  - destruct p as [r1 r2]. simpl in H1.
    unfold write_pairs. cbn [for_each]. unfold bind at 1.
    unfold bind at 1. unfold reading at 1. by rewrite H1.
Qed.

(** [write_pairs] raises KeyError as soon as the list holds a pair with a
    record that has no discordant tag, whatever the other pairs are. *)
Theorem write_pairs_raises_on_missing_tag pairs pfh dfh w :
  Exists (λ p, ¬ pair_has_discordant_tags (objects w) p) pairs →
  write_pairs pairs pfh dfh w = Raise KeyError.
Proof. apply write_pairs_missing_run. Qed.

End PairWriterProperties.

Section DispatcherProperties.
Context {collab : Collaborators}.

Implicit Types (h : heap) (w : world) (fh : samfile) (pe : fragment).

Lemma opt_discordant_app ts ts' :
  opt_discordant ts = Raise KeyError →
  opt_discordant (ts ++ ts') = opt_discordant ts'.
Proof.
  induction ts as [|[d|o|n v] ts IH]; simpl; try done; exact IH.
Qed.

Lemma on_objects_run {A} (m : M heap A) w a h' :
  m (objects w) = Ok (a, h') →
  on_objects m w
  = Ok (a, mkWorld h' (paired_bam w) (discordant_bam w) (unpaired_bam w)
             (multimap_bam w)).
Proof. unfold on_objects. by intros ->. Qed.

(** The fragments that reach the classifier: both counts are positive and
    neither exceeds the ceiling. *)
Lemma dispatch_classified (txm : gmap Z TranscriptFeature)
    (gm : gmap Z genome_entry) max_isize max_multihits lt pe w n0 n1 :
  count_transcriptome_multimaps (objects w) pe.1 gm = Ok n0 →
  count_transcriptome_multimaps (objects w) pe.2 gm = Ok n1 →
  (0 < Nat.min n0 n1)%nat →
  Z.of_nat (Nat.max n0 n1) ≤ max_multihits →
  dispatch_fragment txm gm max_isize max_multihits lt pe w
  = (do '(gene_pairs, unpaired_reads) <-
       on_objects (classify_read_pairs pe max_isize lt txm);
     if (0 <? length gene_pairs)%nat then
       write_pairs gene_pairs pairedfh discordantfh
     else
       write_pe_reads (PyReads unpaired_reads) (PySamfile unpairedfh)) w.
Proof.
  intros Hc0 Hc1 Hmin Hmax. unfold dispatch_fragment.
  rewrite (bind_ok _ _ w n0 w (reading_ok _ w n0 Hc0)).
  rewrite (bind_ok _ _ w n1 w (reading_ok _ w n1 Hc1)).
  destruct (Nat.eqb_spec (Nat.min n0 n1) 0) as [E|_]; [lia|].
  destruct (Z.ltb_spec max_multihits (Z.of_nat (Nat.max n0 n1))) as [E|_];
    [lia | done].
Qed.

Lemma classify_nothing_shared (txm : gmap Z TranscriptFeature)
    max_isize lt pe h :
  fragment_wf h pe →
  Forall (covered_by txm h) (pe.1 ++ pe.2) →
  ¬ mates_share (in_cluster txm h) pe →
  ∃ gp ht e,
    find_discordant_pairs pe lt h = Ok (gp, ht ++ e)
    ∧ fragment_tagged lt h pe ht
    ∧ length e = (2 * length gp)%nat
    ∧ Forall2 (copy_of lt (ht ++ e) h)
              (opposite_orientation_candidates lt h pe) gp
    ∧ classify_read_pairs pe max_isize lt txm h
      = (if (0 <? length gp)%nat then
           do gene_pairs <- select_best_scoring_pairs gp;
           ret (gene_pairs, [])
         else ret ([], mates pe)) (ht ++ e).
Proof.
  intros Hwf Hcov Hns.
  destruct (pairing_stages_total pe lt txm h Hcov)
    as (ctx & dtx & ccl & dcl & h1 & Hst).
  pose proof (pairing_stages_filed_iff pe lt txm h ctx dtx ccl dcl h1 Hst)
    as Hfiled.
  simpl in Hfiled. destruct Hfiled as (_ & _ & Hnone).
  destruct (proj2 Hnone Hns) as (E1 & E2 & E3 & E4). subst ctx dtx ccl dcl.
  pose proof (pairing_stages_empty_store _ _ _ _ _ Hst) as ->.
  destruct (find_discordant_pairs_run pe lt h Hwf)
    as (gp & ht & e & Hfd & Htag & Hlen & Hall).
  exists gp, ht, e. repeat (split; [done|]).
  unfold classify_read_pairs. rewrite (bind_ok _ _ _ _ _ Hst).
  cbn [first_nonempty length Nat.ltb Nat.leb].
  by rewrite (bind_ok _ _ _ _ _ Hfd).
Qed.

Lemma write_pairs_all_to fh pairs pfh dfh w :
  Forall (λ p, pair_has_discordant_tags (objects w) p
               ∧ (if decide (both_discordant_gene (objects w) p)
                  then dfh else pfh) = fh) pairs →
  write_pairs pairs pfh dfh w
  = Ok (tt, write_records fh (concat (pair_records (objects w) <$> pairs)) w).
Proof.
  revert w. induction pairs as [|p pairs IH]; intros w Hall.
  - by rewrite fmap_nil, write_records_nil.
  - apply Forall_cons in Hall as [[Hp Hfh] Hall].
    rewrite write_pairs_cons, (write_pairs_body_run p pfh dfh w Hp), Hfh.
    rewrite IH by (by rewrite objects_write_records).
    rewrite objects_write_records, write_records_app, fmap_cons. done.
Qed.

Lemma Forall_exists_Forall2 {A B} (R : A → B → Prop) (l : list B) :
  Forall (λ y, ∃ x, R x y) l → ∃ k, Forall2 R k l.
Proof.
  induction 1 as [|y l [x Hx] _ [k IH]]; [by exists []|].
  exists (x :: k). by constructor.
Qed.

Lemma Forall2_elem_of_l {A B} (R : A → B → Prop) l k x :
  Forall2 R l k → x ∈ l → ∃ y, y ∈ k ∧ R x y.
Proof.
  induction 1 as [|a b l k Hab _ IH]; intros Hx;
    [by apply elem_of_nil in Hx|].
  apply elem_of_cons in Hx as [->|Hx].
  - exists b. split; [apply list_elem_of_here | done].
  - destruct (IH Hx) as (y & Hy & HR). exists y.
    split; [by apply list_elem_of_further | done].
Qed.

Lemma pair_records_of_copies (f : AlignedRead → AlignedRead) h0 h
    (kept pairs : list (ref * ref)) :
  Forall2 (λ c p, deref h p.1 = f (deref h0 c.1)
                  ∧ deref h p.2 = f (deref h0 c.2)) kept pairs →
  concat (pair_records h <$> pairs) = concat (changed_records f h0 <$> kept).
Proof.
  induction 1 as [|c p kept pairs [H1 H2] _ IH]; [done|].
  rewrite !fmap_cons. cbn [concat]. rewrite IH.
  unfold pair_records, changed_records. by rewrite H1, H2.
Qed.

Lemma opt_discordant_tag_unpaired lt rd :
  untagged rd → opt_discordant (tags (tag_unpaired lt rd)) = Ok DISCORDANT_GENE.
Proof.
  intros Hun. rewrite tag_unpaired_tags. by rewrite opt_discordant_app.
Qed.

Lemma opt_discordant_add_tag t rd :
  untagged rd → opt_discordant (tags (add_tags [DiscordantTag t] rd)) = Ok t.
Proof.
  intros Hun. unfold add_tags. simpl. by rewrite opt_discordant_app.
Qed.

(** A fragment that reaches the classifier, in which no record of mate 1
    shares a cluster with a record of mate 2 and no two records have
    opposite orientations, is written to the unpaired file: every record of
    mate 1 and then every record of mate 2, each with DISCORDANT_GENE and its
    orientation appended to its tags.  The other files are left as they
    were, and the objects of the fragment keep the new tags. *)
Theorem unpairable_fragment_goes_to_unpaired_file
    (txm : gmap Z TranscriptFeature) (gm : gmap Z genome_entry)
    max_isize max_multihits lt pe w n0 n1 :
  count_transcriptome_multimaps (objects w) pe.1 gm = Ok n0 →
  count_transcriptome_multimaps (objects w) pe.2 gm = Ok n1 →
  (0 < Nat.min n0 n1)%nat →
  Z.of_nat (Nat.max n0 n1) ≤ max_multihits →
  fragment_wf (objects w) pe →
  Forall (covered_by txm (objects w)) (pe.1 ++ pe.2) →
  ¬ mates_share (in_cluster txm (objects w)) pe →
  opposite_orientation_candidates lt (objects w) pe = [] →
  ∃ w',
    dispatch_fragment txm gm max_isize max_multihits lt pe w = Ok (tt, w')
    ∧ unpaired_bam w'
      = unpaired_bam w
        ++ ((λ r, tag_unpaired lt (deref (objects w) r)) <$> pe.1 ++ pe.2)
    ∧ paired_bam w' = paired_bam w
    ∧ discordant_bam w' = discordant_bam w
    ∧ multimap_bam w' = multimap_bam w
    ∧ fragment_tagged lt (objects w) pe (objects w').
Proof.
  intros Hc0 Hc1 Hmin Hmax Hwf Hcov Hns Hnil.
  rewrite (dispatch_classified txm gm max_isize max_multihits lt pe w n0 n1)
    by done.
  destruct (classify_nothing_shared txm max_isize lt pe (objects w)
              Hwf Hcov Hns) as (gp & ht & e & _ & Htag & Hlen & Hall & Hrun).
  rewrite Hnil in Hall. apply Forall2_nil_inv_l in Hall as ->.
  apply nil_length_inv in Hlen as ->. rewrite app_nil_r in Hrun.
  cbn [length Nat.ltb Nat.leb] in Hrun.
  rewrite (bind_ok _ _ _ _ _ (on_objects_run _ w _ _ Hrun)).
  cbn [length Nat.ltb Nat.leb]. rewrite write_pe_reads_run.
  eexists. split; [done|]. simpl. rewrite app_nil_r.
  split; [|done]. f_equal. apply Forall_fmap_ext_1, Forall_forall.
  intros r Hr. destruct Htag as [_ Htag]. rewrite Htag.
  destruct (decide (r ∈ pe.1 ++ pe.2)); done.
Qed.

(** A fragment of records without a discordant tag that reaches the
    classifier, in which no record of mate 1 shares a cluster with a record
    of mate 2 but some two records have opposite orientations, is written to
    the discordant file and to no other: the file receives copies of some of
    the (5', 3') candidates, at least one, both records of a candidate
    together and each with DISCORDANT_GENE and its orientation appended. *)
Theorem cross_gene_fragment_goes_to_discordant_file
    (txm : gmap Z TranscriptFeature) (gm : gmap Z genome_entry)
    max_isize max_multihits lt pe w n0 n1 :
  count_transcriptome_multimaps (objects w) pe.1 gm = Ok n0 →
  count_transcriptome_multimaps (objects w) pe.2 gm = Ok n1 →
  (0 < Nat.min n0 n1)%nat →
  Z.of_nat (Nat.max n0 n1) ≤ max_multihits →
  fragment_wf (objects w) pe →
  Forall (covered_by txm (objects w)) (pe.1 ++ pe.2) →
  Forall (λ r, untagged (deref (objects w) r)) (pe.1 ++ pe.2) →
  ¬ mates_share (in_cluster txm (objects w)) pe →
  opposite_orientation_candidates lt (objects w) pe ≠ [] →
  ∃ w' kept,
    dispatch_fragment txm gm max_isize max_multihits lt pe w = Ok (tt, w')
    ∧ kept ≠ []
    ∧ kept ⊆ opposite_orientation_candidates lt (objects w) pe
    ∧ discordant_bam w'
      = discordant_bam w
        ++ concat (changed_records (tag_unpaired lt) (objects w) <$> kept)
    ∧ paired_bam w' = paired_bam w
    ∧ unpaired_bam w' = unpaired_bam w
    ∧ multimap_bam w' = multimap_bam w.
Proof.
  intros Hc0 Hc1 Hmin Hmax Hwf Hcov Hun Hns Hne.
  rewrite (dispatch_classified txm gm max_isize max_multihits lt pe w n0 n1)
    by done.
  destruct (classify_nothing_shared txm max_isize lt pe (objects w)
              Hwf Hcov Hns) as (gp & ht & e & _ & _ & _ & Hall & Hrun).
  assert (gp ≠ []) as Hgp.
  { intros ->. by apply Forall2_nil_inv_r in Hall. }
  destruct (select_best_scoring_pairs_keeps_one gp (ht ++ e) Hgp)
    as (best & Hbest & Hbne & Hsub).
  destruct gp as [|p0 gp]; [done|]. cbn [length Nat.ltb Nat.leb] in Hrun.
  rewrite (bind_ok _ _ _ _ _ Hbest) in Hrun. unfold ret in Hrun.
  rewrite (bind_ok _ _ _ _ _ (on_objects_run _ w _ _ Hrun)).
  destruct best as [|b0 best]; [done|]. cbn [length Nat.ltb Nat.leb].
  set (hf := ht ++ e) in *. set (h := objects w) in *.
  assert (Forall (λ p, ∃ c, (c ∈ opposite_orientation_candidates lt h pe)
                            ∧ deref hf p.1 = tag_unpaired lt (deref h c.1)
                            ∧ deref hf p.2 = tag_unpaired lt (deref h c.2))
            (b0 :: best)) as Hfrom.
  { apply Forall_forall. intros p Hp.
    destruct (Forall2_elem_of_r _ _ _ _ Hall (Hsub p Hp))
      as (c & Hc & _ & _ & H1 & H2).
    by exists c. }
  assert (∀ c, c ∈ opposite_orientation_candidates lt h pe →
               untagged (deref h c.1) ∧ untagged (deref h c.2)) as Hunc.
  { intros c (H1 & H2 & _)%opposite_orientation_candidates_spec.
    split; apply (proj1 (Forall_forall _ _) Hun); apply elem_of_app; auto. }
  rewrite (write_pairs_all_to discordantfh).
  - destruct (Forall_exists_Forall2 _ _ Hfrom) as [kept Hkept].
    exists (write_records discordantfh
              (concat (pair_records hf <$> b0 :: best))
              (mkWorld hf (paired_bam w) (discordant_bam w) (unpaired_bam w)
                 (multimap_bam w))), kept.
    split; [done|]. split.
    { intros ->. by apply Forall2_nil_inv_l in Hkept. }
    split.
    { intros c Hc. apply (Forall2_elem_of_l _ _ _ _ Hkept) in Hc
        as (p & _ & Hc & _). exact Hc. }
    split; [|done].
    cbn [write_records discordant_bam]. f_equal.
    apply (pair_records_of_copies (tag_unpaired lt) h hf).
    eapply Forall2_impl; [exact Hkept|]. by intros c p (_ & H1 & H2).
  - simpl. eapply Forall_impl; [exact Hfrom|].
    intros p (c & Hc & H1 & H2). destruct (Hunc c Hc) as [U1 U2].
    assert (both_discordant_gene hf p) as Hboth.
    { split; [rewrite H1 | rewrite H2];
        by apply opt_discordant_tag_unpaired. }
    split; [destruct Hboth; split; eauto|].
    by destruct (decide (both_discordant_gene hf p)).
Qed.

Lemma classify_shared (txm : gmap Z TranscriptFeature) max_isize lt pe h :
  Forall (λ r, (r < length h)%nat) (pe.1 ++ pe.2) →
  Forall (covered_by txm h) (pe.1 ++ pe.2) →
  mates_share (in_cluster txm h) pe →
  ∃ gp h1 t,
    classify_read_pairs pe max_isize lt txm h = Ok (gp, [], h1)
    ∧ gp ≠ [] ∧ t ≠ DISCORDANT_GENE
    ∧ Forall (λ p, ∃ c, (c.1 ∈ pe.1 ∧ c.2 ∈ pe.2)
                        ∧ deref h1 p.1
                          = add_tags [DiscordantTag t] (deref h c.1)
                        ∧ deref h1 p.2
                          = add_tags [DiscordantTag t] (deref h c.2)) gp.
Proof.
  intros Hval Hcov Hshare.
  destruct (pairing_stages_total pe lt txm h Hcov)
    as (ctx & dtx & ccl & dcl & h1 & Hst).
  destruct (pairing_stages_copies pe lt txm h ctx dtx ccl dcl h1 Hval Hst)
    as (_ & Hctx & Hdtx & Hccl & Hdcl).
  pose proof (pairing_stages_filed_iff pe lt txm h ctx dtx ccl dcl h1 Hst)
    as Hfiled.
  simpl in Hfiled. destruct Hfiled as (_ & _ & Hnone).
  assert (∀ P s t b l,
            Forall (pair_from pe P h h1 s t b) l →
            Forall (λ p, ∃ c, (c.1 ∈ pe.1 ∧ c.2 ∈ pe.2)
                              ∧ deref h1 p.1
                                = add_tags [DiscordantTag t] (deref h c.1)
                              ∧ deref h1 p.2
                                = add_tags [DiscordantTag t] (deref h c.2)) l)
    as Hfrom.
  { intros P s t b l Hl. eapply Forall_impl; [exact Hl|].
    intros p (r1 & r2 & k & H1 & H2 & _ & _ & _ & _ & _ & E1 & E2).
    by exists (r1, r2). }
  unfold classify_read_pairs. rewrite (bind_ok _ _ _ _ _ Hst).
  destruct ctx as [|p ctx]; cbn [first_nonempty length Nat.ltb Nat.leb].
  2: { exists (p :: ctx), h1, CONCORDANT_TX. unfold ret.
       repeat (split; [done|]). by apply (Hfrom _ _ _ _ _ Hctx). }
  destruct ccl as [|p ccl]; cbn [first_nonempty length Nat.ltb Nat.leb].
  2: { exists (p :: ccl), h1, CONCORDANT_GENE. unfold ret.
       repeat (split; [done|]). by apply (Hfrom _ _ _ _ _ Hccl). }
  destruct dtx as [|p dtx]; cbn [first_nonempty length Nat.ltb Nat.leb].
  2: { exists (p :: dtx), h1, DISCORDANT_STRAND_TX. unfold ret.
       repeat (split; [done|]). by apply (Hfrom _ _ _ _ _ Hdtx). }
  destruct dcl as [|p dcl]; cbn [first_nonempty length Nat.ltb Nat.leb].
  2: { exists (p :: dcl), h1, DISCORDANT_STRAND_GENE. unfold ret.
       repeat (split; [done|]). by apply (Hfrom _ _ _ _ _ Hdcl). }
  destruct (proj1 Hnone); done.
Qed.

(** A fragment of records without a discordant tag that reaches the
    classifier, in which a record of mate 1 and a record of mate 2 have
    transcripts in the same cluster, is written to the paired file and to no
    other: the file receives copies of pairs of a mate-1 and a mate-2 record,
    at least one pair, every record with the same tag appended, which is not
    DISCORDANT_GENE. *)
Theorem same_gene_fragment_goes_to_paired_file
    (txm : gmap Z TranscriptFeature) (gm : gmap Z genome_entry)
    max_isize max_multihits lt pe w n0 n1 :
  count_transcriptome_multimaps (objects w) pe.1 gm = Ok n0 →
  count_transcriptome_multimaps (objects w) pe.2 gm = Ok n1 →
  (0 < Nat.min n0 n1)%nat →
  Z.of_nat (Nat.max n0 n1) ≤ max_multihits →
  Forall (λ r, (r < length (objects w))%nat) (pe.1 ++ pe.2) →
  Forall (covered_by txm (objects w)) (pe.1 ++ pe.2) →
  Forall (λ r, untagged (deref (objects w) r)) (pe.1 ++ pe.2) →
  mates_share (in_cluster txm (objects w)) pe →
  ∃ w' t kept,
    dispatch_fragment txm gm max_isize max_multihits lt pe w = Ok (tt, w')
    ∧ t ≠ DISCORDANT_GENE
    ∧ kept ≠ []
    ∧ Forall (λ c, c.1 ∈ pe.1 ∧ c.2 ∈ pe.2) kept
    ∧ paired_bam w'
      = paired_bam w
        ++ concat (changed_records (add_tags [DiscordantTag t]) (objects w)
                     <$> kept)
    ∧ discordant_bam w' = discordant_bam w
    ∧ unpaired_bam w' = unpaired_bam w
    ∧ multimap_bam w' = multimap_bam w.
Proof.
  intros Hc0 Hc1 Hmin Hmax Hval Hcov Hun Hshare.
  rewrite (dispatch_classified txm gm max_isize max_multihits lt pe w n0 n1)
    by done.
  destruct (classify_shared txm max_isize lt pe (objects w) Hval Hcov Hshare)
    as (gp & h1 & t & Hrun & Hgp & Ht & Hfrom).
  rewrite (bind_ok _ _ _ _ _ (on_objects_run _ w _ _ Hrun)).
  destruct gp as [|p0 gp]; [done|]. cbn [length Nat.ltb Nat.leb].
  set (h := objects w) in *.
  rewrite (write_pairs_all_to pairedfh).
  - destruct (Forall_exists_Forall2 _ _ Hfrom) as [kept Hkept].
    exists (write_records pairedfh (concat (pair_records h1 <$> p0 :: gp))
              (mkWorld h1 (paired_bam w) (discordant_bam w) (unpaired_bam w)
                 (multimap_bam w))), t, kept.
    split; [done|]. split; [done|]. split.
    { intros ->. by apply Forall2_nil_inv_l in Hkept. }
    split.
    { apply Forall_forall. intros c Hc.
      apply (Forall2_elem_of_l _ _ _ _ Hkept) in Hc as (p & _ & Hc & _).
      exact Hc. }
    split; [|done].
    cbn [write_records paired_bam]. f_equal.
    apply (pair_records_of_copies (add_tags [DiscordantTag t]) h h1).
    eapply Forall2_impl; [exact Hkept|]. by intros c p (_ & H1 & H2).
  - simpl. eapply Forall_impl; [exact Hfrom|].
    intros p (c & [Hc1' Hc2'] & H1 & H2).
    assert (untagged (deref h c.1) ∧ untagged (deref h c.2)) as [U1 U2].
    { split; apply (proj1 (Forall_forall _ _) Hun); apply elem_of_app; auto. }
    assert (opt_discordant (tags (deref h1 p.1)) = Ok t) as E1
      by (rewrite H1; by apply opt_discordant_add_tag).
    assert (opt_discordant (tags (deref h1 p.2)) = Ok t) as E2
      by (rewrite H2; by apply opt_discordant_add_tag).
    split; [split; eauto|].
    destruct (decide (both_discordant_gene h1 p)) as [[B1 _]|_]; [|done].
    rewrite E1 in B1. by injection B1 as ->.
Qed.

Lemma reading_inv {A} (f : heap → result A) w a w' :
  reading f w = Ok (a, w') → w' = w.
Proof.
  unfold reading. destruct (f (objects w)); [|done]. by intros [= _ <-].
Qed.

Lemma on_objects_inv {A} (m : M heap A) w a w' :
  on_objects m w = Ok (a, w') →
  ∀ fh, channel fh w' = channel fh w.
Proof.
  unfold on_objects. destruct (m (objects w)) as [[a' h']|e]; [|done].
  intros [= _ <-] fh. by destruct fh.
Qed.

Lemma write_pe_reads_handle_first fh (b : pyobj) w w' :
  write_pe_reads (PySamfile fh) b w = Ok (tt, w') → w' = w.
Proof.
  unfold write_pe_reads.
  destruct (iter_output_samfile fh) as [[|n]|e]; try done.
  by intros [= <-].
Qed.

Lemma Forall_tags_or_Exists_missing h (pairs : list (ref * ref)) :
  Forall (pair_has_discordant_tags h) pairs
  ∨ Exists (λ p, ¬ pair_has_discordant_tags h p) pairs.
Proof.
  induction pairs as [|p pairs [IH|IH]].
  - left. constructor.
  - destruct (opt_discordant_cases (tags (deref h p.1))) as [H1|H1];
      [destruct (opt_discordant_cases (tags (deref h p.2))) as [H2|H2]|].
    + left. by constructor.
    + right. apply Exists_cons_hd. intros [_ [d Hd]]. congruence.
    + right. apply Exists_cons_hd. intros [[d Hd] _]. congruence.
  - right. by apply Exists_cons_tl.
Qed.

Lemma write_pairs_other_channel pairs pfh dfh fh w w' :
  fh ≠ pfh → fh ≠ dfh →
  write_pairs pairs pfh dfh w = Ok (tt, w') →
  channel fh w' = channel fh w.
Proof.
  intros H1 H2 Hrun.
  destruct (Forall_tags_or_Exists_missing (objects w) pairs) as [Htags|Hex];
    [|by rewrite (write_pairs_missing_run pairs pfh dfh w Hex) in Hrun].
  destruct (write_pairs_run pairs pfh dfh w Htags) as (w'' & Hrun' & _ & Hch).
  rewrite Hrun in Hrun'. injection Hrun' as <-.
  rewrite Hch. clear Hrun Hch Htags.
  induction pairs as [|p pairs IH]; [by rewrite fmap_nil, app_nil_r|].
  rewrite fmap_cons. cbn [concat].
  destruct (decide (both_discordant_gene (objects w) p));
    (destruct (decide _); [congruence | exact IH]).
Qed.

Lemma dispatch_keeps_multimap (txm : gmap Z TranscriptFeature)
    (gm : gmap Z genome_entry) max_isize max_multihits lt pe w w' :
  dispatch_fragment txm gm max_isize max_multihits lt pe w = Ok (tt, w') →
  multimap_bam w' = multimap_bam w.
Proof.
  unfold dispatch_fragment. intros Hrun.
  apply bind_ok_inv in Hrun as (n0 & w0 & Hr0 & Hrun).
  apply reading_inv in Hr0 as ->.
  apply bind_ok_inv in Hrun as (n1 & w1 & Hr1 & Hrun).
  apply reading_inv in Hr1 as ->.
  destruct (Nat.min n0 n1 =? 0)%nat.
  { by apply write_pe_reads_handle_first in Hrun as ->. }
  destruct (max_multihits <? Z.of_nat (Nat.max n0 n1)).
  { by apply write_pe_reads_handle_first in Hrun as ->. }
  apply bind_ok_inv in Hrun as ([gp unp] & w1 & Hcls & Hrun).
  pose proof (on_objects_inv _ _ _ _ Hcls multimapfh) as Hm. simpl in Hm.
  rewrite <- Hm. destruct (0 <? length gp)%nat.
  - by apply (write_pairs_other_channel gp pairedfh discordantfh multimapfh).
  - rewrite write_pe_reads_run in Hrun. by injection Hrun as <-.
Qed.

(** [find_discordant_fragments] never writes to the multimap file: whatever
    the fragments, the counts and the ceiling are, if the loop runs to its
    end then the file holds what it held before. *)
Theorem multimap_file_is_never_written (txm : gmap Z TranscriptFeature)
    (gm : gmap Z genome_entry) max_isize max_multihits lt
    (fragments : list fragment) w w' :
  find_discordant_fragments txm gm max_isize max_multihits lt fragments w
  = Ok (tt, w') →
  multimap_bam w' = multimap_bam w.
Proof.
  unfold find_discordant_fragments. revert w.
  induction fragments as [|pe fragments IH]; intros w Hrun.
  - simpl in Hrun. unfold ret in Hrun. by injection Hrun as <-.
  - cbn [for_each] in Hrun.
    apply bind_ok_inv in Hrun as ([] & w1 & Hpe & Hrun).
    rewrite (IH w1 Hrun).
    by apply (dispatch_keeps_multimap txm gm max_isize max_multihits lt pe).
Qed.

End DispatcherProperties.

Section SamToBamProperties.

Implicit Types (r : AlignedRead) (samfh : list AlignedRead) (s : sam_state).

Lemma opt_tag_cases name ts :
  (∃ v, opt_tag name ts = Ok v) ∨ opt_tag name ts = Raise KeyError.
Proof.
  induction ts as [|[d|o|n v] ts IH]; simpl; eauto.
  destruct (decide (n = name)); eauto.
Qed.

Lemma xm_present_or_missing r : xm_present r ∨ xm_missing r.
Proof.
  unfold xm_present, xm_missing.
  destruct (is_unmapped r); [|by left].
  destruct (opt_tag_cases "XM" (tags r)) as [Hv|He]; [left | right]; done.
Qed.

Lemma Forall_xm_present_or_Exists_missing samfh :
  Forall xm_present samfh ∨ Exists xm_missing samfh.
Proof.
  induction samfh as [|r samfh [IH|IH]].
  - left. constructor.
  - destruct (xm_present_or_missing r); [left | right]; by constructor.
  - right. by constructor.
Qed.

Lemma sam_record_run m r s :
  xm_present r →
  sam_record m r s
  = Ok (tt, mkSam (bam_out s ++ filter (sam_kept m) [r])
                  (num_unmapped s + length (filter (sam_filtered m) [r]))
                  (num_multihits s + length (filter (sam_multihit m) [r]))).
Proof.
  intros Hxm. destruct (is_unmapped r) eqn:Hu.
  - destruct (Hxm Hu) as [v Hv].
    destruct (Z.lt_ge_cases v m) as [Hlt|Hge].
    + assert (¬ sam_kept m r) as Hk.
      { unfold sam_kept, xm_at_least. rewrite Hu, Hv. intros [?|?]; [done|lia]. }
      assert (sam_filtered m r) as Hf.
      { unfold sam_filtered, xm_below. by rewrite Hv. }
      assert (¬ sam_multihit m r) as Hm.
      { unfold sam_multihit, xm_at_least. rewrite Hv. intros [_ ?]. lia. }
      rewrite (filter_cons_False _ _ _ Hk), (filter_cons_True _ _ _ Hf),
        (filter_cons_False _ _ _ Hm), !filter_nil.
      unfold sam_record. rewrite Hu. unfold bind at 1. rewrite Hv.
      destruct (Z.ltb_spec v m) as [_|?]; [|lia].
      unfold modify. simpl. by rewrite app_nil_r, Nat.add_1_r, Nat.add_0_r.
    + assert (sam_kept m r) as Hk.
      { unfold sam_kept, xm_at_least. rewrite Hv. by right. }
      assert (¬ sam_filtered m r) as Hf.
      { unfold sam_filtered, xm_below. rewrite Hv. intros [_ ?]. lia. }
      assert (sam_multihit m r) as Hm.
      { unfold sam_multihit, xm_at_least. by rewrite Hv. }
      rewrite (filter_cons_True _ _ _ Hk), (filter_cons_False _ _ _ Hf),
        (filter_cons_True _ _ _ Hm), !filter_nil.
      unfold sam_record. rewrite Hu. unfold bind at 1. rewrite Hv.
      destruct (Z.ltb_spec v m) as [?|_]; [lia|].
      unfold bind, modify, bam_write. simpl.
      by rewrite Nat.add_1_r, Nat.add_0_r.
  - assert (sam_kept m r) as Hk by (by left).
    assert (¬ sam_filtered m r) as Hf.
    { unfold sam_filtered. rewrite Hu. by intros [? _]. }
    assert (¬ sam_multihit m r) as Hm.
    { unfold sam_multihit. rewrite Hu. by intros [? _]. }
    rewrite (filter_cons_True _ _ _ Hk), (filter_cons_False _ _ _ Hf),
      (filter_cons_False _ _ _ Hm), !filter_nil.
    unfold sam_record. rewrite Hu.
    unfold bam_write, modify. simpl. by rewrite !Nat.add_0_r.
Qed.

Lemma sam_loop_run m samfh s :
  Forall xm_present samfh →
  for_each samfh (λ _ r, sam_record m r) tt s
  = Ok (tt, mkSam (bam_out s ++ filter (sam_kept m) samfh)
                  (num_unmapped s + length (filter (sam_filtered m) samfh))
                  (num_multihits s + length (filter (sam_multihit m) samfh))).
Proof.
  intros Hall. revert s. induction Hall as [|r samfh Hr _ IH]; intros s.
  - simpl. unfold ret. rewrite !filter_nil. simpl.
    rewrite app_nil_r, !Nat.add_0_r. by destruct s.
  - cbn [for_each]. rewrite (bind_ok _ _ _ _ _ (sam_record_run m r s Hr)).
    rewrite IH. cbn [bam_out num_unmapped num_multihits].
    rewrite !(filter_cons _ r samfh), !filter_cons, !filter_nil.
    destruct (decide (sam_kept m r)); destruct (decide (sam_filtered m r));
      destruct (decide (sam_multihit m r)); cbn [length app];
      rewrite <- ?app_assoc, ?app_nil_r, <- ?Nat.add_assoc; done.
Qed.

Lemma sam_loop_missing m samfh s :
  Exists xm_missing samfh →
  for_each samfh (λ _ r, sam_record m r) tt s = Raise KeyError.
Proof.
  intros Hex. revert s. induction samfh as [|r samfh IH]; intros s;
    [by apply Exists_nil in Hex|].
  cbn [for_each].
  destruct (xm_present_or_missing r) as [Hr|[Hu He]].
  - rewrite (bind_ok _ _ _ _ _ (sam_record_run m r s Hr)). apply IH.
    apply Exists_cons in Hex as [[Hu He]|Hex]; [|done].
    destruct (Hr Hu) as [v Hv]. congruence.
  - unfold bind at 1. unfold sam_record. rewrite Hu.
    unfold bind at 1. by rewrite He.
Qed.

Lemma kept_or_filtered m r :
  xm_present r →
  (sam_kept m r ∧ ¬ sam_filtered m r) ∨ (sam_filtered m r ∧ ¬ sam_kept m r).
Proof.
  unfold xm_present, sam_kept, sam_filtered, xm_at_least, xm_below.
  intros Hxm. destruct (is_unmapped r) eqn:Hu;
    [|left; split; [by left | by intros []]].
  destruct (Hxm eq_refl) as [v ->].
  destruct (Z.lt_ge_cases v m); [right | left]; split; try done;
    try (by right); intros H'; destruct H'; try done; lia.
Qed.

Lemma filter_all {A} (P : A → Prop) `{∀ x, Decision (P x)} (l : list A) :
  Forall P l → filter P l = l.
Proof.
  induction 1 as [|x l Hx _ IH]; [done|].
  by rewrite filter_cons_True, IH.
Qed.

Lemma filter_none {A} (P : A → Prop) `{∀ x, Decision (P x)} (l : list A) :
  Forall (λ x, ¬ P x) l → filter P l = [].
Proof.
  induction 1 as [|x l Hx _ IH]; [done|].
  by rewrite filter_cons_False, IH.
Qed.

Lemma sam_run m samfh :
  Forall xm_present samfh →
  sam_stdin_to_bam samfh m
  = Ok (mkSam (filter (sam_kept m) samfh)
              (length (filter (sam_filtered m) samfh))
              (length (filter (sam_multihit m) samfh))).
Proof.
  intros Hall. unfold sam_stdin_to_bam.
  by rewrite (sam_loop_run m samfh (mkSam [] 0 0) Hall).
Qed.

(** When every unmapped record has an XM tag, [sam_stdin_to_bam] writes the
    mapped records and the unmapped records whose XM value is at least
    [multihits], in the order of the input; the first counter is the number
    of records left out, the second the number of unmapped records written,
    and the records written and the records left out add up to the input. *)
Theorem sam_stdin_to_bam_keeps_mapped_and_multihits m samfh :
  Forall xm_present samfh →
  ∃ st,
    sam_stdin_to_bam samfh m = Ok st
    ∧ bam_out st = filter (sam_kept m) samfh
    ∧ num_unmapped st = length (filter (sam_filtered m) samfh)
    ∧ num_multihits st = length (filter (sam_multihit m) samfh)
    ∧ filter (λ r, is_unmapped r = false) (bam_out st)
      = filter (λ r, is_unmapped r = false) samfh
    ∧ length samfh = (length (bam_out st) + num_unmapped st)%nat.
Proof.
  intros Hall. eexists. split; [by apply sam_run|].
  cbn [bam_out num_unmapped num_multihits].
  repeat (split; [done|]). split.
  - rewrite list_filter_filter. apply list_filter_iff.
    intros r. unfold sam_kept. tauto.
  - induction Hall as [|r samfh Hr _ IH]; [done|].
    rewrite !filter_cons. cbn [length]. rewrite IH.
    destruct (kept_or_filtered m r Hr) as [[Hk Hf]|[Hf Hk]].
    + rewrite decide_True, decide_False by done. done.
    + rewrite decide_False, decide_True by done. cbn [length]. lia.
Qed.

(** [sam_stdin_to_bam] raises KeyError whenever the input has an unmapped
    record without an XM tag; a mapped record needs no such tag. *)
Theorem sam_stdin_to_bam_raises_without_xm m samfh :
  Exists xm_missing samfh → sam_stdin_to_bam samfh m = Raise KeyError.
Proof.
  intros Hex. unfold sam_stdin_to_bam.
  by rewrite (sam_loop_missing m samfh (mkSam [] 0 0) Hex).
Qed.

(** Filtering is idempotent: run on its own output with the same threshold,
    [sam_stdin_to_bam] writes that output again, leaves nothing out and
    counts the same number of multihit records. *)
Theorem sam_stdin_to_bam_idempotent m samfh st :
  sam_stdin_to_bam samfh m = Ok st →
  sam_stdin_to_bam (bam_out st) m
  = Ok (mkSam (bam_out st) 0 (num_multihits st)).
Proof.
  intros Hrun.
  destruct (Forall_xm_present_or_Exists_missing samfh) as [Hall|Hex].
  2: { unfold sam_stdin_to_bam in Hrun.
       by rewrite (sam_loop_missing m samfh (mkSam [] 0 0) Hex) in Hrun. }
  rewrite (sam_run m samfh Hall) in Hrun. injection Hrun as <-.
  cbn [bam_out num_multihits].
  assert (Forall xm_present (filter (sam_kept m) samfh)) as Hall'.
  { apply Forall_forall. intros r [_ Hr]%list_elem_of_filter.
    by apply (proj1 (Forall_forall _ _) Hall). }
  rewrite (sam_run m _ Hall'). f_equal. f_equal.
  - apply filter_all, Forall_forall. by intros r [Hk _]%list_elem_of_filter.
  - rewrite filter_none; [done|]. apply Forall_forall.
    intros r [Hk Hr]%list_elem_of_filter.
    destruct (kept_or_filtered m r (proj1 (Forall_forall _ _) Hall r Hr))
      as [[_ Hf]|[_ Hnk]]; done.
  - f_equal. rewrite list_filter_filter. apply list_filter_iff.
    intros r. unfold sam_multihit, sam_kept. tauto.
Qed.

(** Raising the threshold only removes records: what is written for a
    threshold is what filtering the output of a lower threshold with it
    writes. *)
Theorem sam_stdin_to_bam_thresholds_compose m m' samfh st :
  m ≤ m' →
  sam_stdin_to_bam samfh m = Ok st →
  ∃ st' st'',
    sam_stdin_to_bam samfh m' = Ok st'
    ∧ sam_stdin_to_bam (bam_out st) m' = Ok st''
    ∧ bam_out st'' = bam_out st'
    ∧ bam_out st' `sublist_of` bam_out st.
Proof.
  intros Hle Hrun.
  destruct (Forall_xm_present_or_Exists_missing samfh) as [Hall|Hex].
  2: { unfold sam_stdin_to_bam in Hrun.
       by rewrite (sam_loop_missing m samfh (mkSam [] 0 0) Hex) in Hrun. }
  rewrite (sam_run m samfh Hall) in Hrun. injection Hrun as <-.
  cbn [bam_out].
  assert (Forall xm_present (filter (sam_kept m) samfh)) as Hall'.
  { apply Forall_forall. intros r [_ Hr]%list_elem_of_filter.
    by apply (proj1 (Forall_forall _ _) Hall). }
  assert (filter (sam_kept m') (filter (sam_kept m) samfh)
          = filter (sam_kept m') samfh) as Hcomp.
  { rewrite list_filter_filter. apply list_filter_iff. intros r.
    unfold sam_kept, xm_at_least.
    destruct (opt_tag "XM" (tags r)); [|tauto].
    split; [tauto|]. intros [?|?]; split; auto. right. lia. }
  eexists _, _. split; [by apply sam_run|]. split; [by apply sam_run|].
  cbn [bam_out]. split; [done|].
  rewrite <- Hcomp. apply sublist_filter.
Qed.

End SamToBamProperties.

(** * Further examples *)

Section MoreExamples.

Local Open Scope nat_scope.

(** Objects 0 and 1 share a locus and object 2 has its own: the count of the
    three records exists and is at most 3. *)
Lemma multimap_count_bounds_example :
  ∃ n, @count_transcriptome_multimaps example_collaborators example_heap
         [0; 1; 2] example_genome_map = Ok n
       ∧ n ≤ 3
       ∧ (n = 0
          ↔ [0; 1; 2] = []
            ∨ Exists (λ r, is_unmapped (deref example_heap r) = true)
                [0; 1; 2]).
Proof.
  apply (@multimap_count_bounds example_collaborators example_heap
           example_genome_map [0; 1; 2]).
  repeat apply Forall_cons_2; try constructor; intros Hm; try done;
    by eexists.
Defined.

(** The records of a mate in another order give the same count. *)
Lemma multimap_count_depends_on_locus_set_example :
  @count_transcriptome_multimaps example_collaborators example_heap [0; 2]
    example_genome_map
  = @count_transcriptome_multimaps example_collaborators example_heap [2; 0]
      example_genome_map.
Proof.
  apply (@multimap_count_depends_on_locus_set example_collaborators
           example_heap example_genome_map [0; 2] [2; 0]).
  - repeat apply Forall_cons_2; try constructor; intros Hm; try done;
      by eexists.
  - apply perm_swap.
Defined.

(** Mate 1 has objects 0 and 8 (transcripts 0 and 1 of cluster 10), mate 2
    has object 7 (transcript 0). *)
Lemma binner_files_each_mapped_record_once_example :
  (∀ k l1 l2,
     (k, (l1, l2)) ∈ [(0%Z, ([0], [7])); (1%Z, ([8], []))]
     ↔ l1 = filter (on_reference example_heap k) [0; 8]
       ∧ l2 = filter (on_reference example_heap k) [7]
       ∧ l1 ++ l2 ≠ [])
  ∧ (∀ c l1 l2,
       (c, (l1, l2)) ∈ [(10%Z, ([0; 8], [7]))]
       ↔ l1 = filter (in_cluster example_tx_map example_heap c) [0; 8]
         ∧ l2 = filter (in_cluster example_tx_map example_heap c) [7]
         ∧ l1 ++ l2 ≠ []).
Proof.
  apply (binner_files_each_mapped_record_once ([0; 8], [7]) example_tx_map
           example_heap [(0%Z, ([0], [7])); (1%Z, ([8], []))]
           [(10%Z, ([0; 8], [7]))] example_heap).
  vm_compute. reflexivity.
Defined.

(** The same fragment: objects 0 and 7 are on transcript 0, so the
    same-reference stage files a candidate. *)
Lemma stages_file_candidates_iff_mates_share_key_example :
  ∃ h1,
    @pairing_stages example_collaborators ([0; 8], [7]) "ff" example_tx_map
      example_heap
    = Ok ([], [(9, 10)], [], [], h1)
    ∧ ([] ++ [(9, 10)] ≠ []
       ↔ ∃ r1 r2 k, r1 ∈ [0; 8] ∧ r2 ∈ [7]
                    ∧ on_reference example_heap k r1
                    ∧ on_reference example_heap k r2).
Proof.
  assert (∃ h1,
            @pairing_stages example_collaborators ([0; 8], [7]) "ff"
              example_tx_map example_heap
            = Ok ([], [(9, 10)], [], [], h1)) as [h1 Hst]
    by (eexists; vm_compute; reflexivity).
  exists h1. split; [exact Hst|].
  apply (@stages_file_candidates_iff_mates_share_key example_collaborators
           ([0; 8], [7]) "ff" example_tx_map example_heap
           [] [(9, 10)] [] [] h1 Hst).
Defined.

(** The same fragment: the pair (9, 10) is made of copies of objects 0 and
    7, tagged DISCORDANT_STRAND_TX. *)
Lemma stage_pairs_are_tagged_copies_example :
  ∃ h1,
    @pairing_stages example_collaborators ([0; 8], [7]) "ff" example_tx_map
      example_heap
    = Ok ([], [(9, 10)], [], [], h1)
    ∧ Forall (pair_from ([0; 8], [7]) (on_reference example_heap)
                example_heap h1 (@same_strand example_collaborators "ff")
                DISCORDANT_STRAND_TX false) [(9, 10)].
Proof.
  assert (∃ h1,
            @pairing_stages example_collaborators ([0; 8], [7]) "ff"
              example_tx_map example_heap
            = Ok ([], [(9, 10)], [], [], h1)) as [h1 Hst]
    by (eexists; vm_compute; reflexivity).
  exists h1. split; [exact Hst|].
  refine (proj1 (proj2 (proj2
            (@stage_pairs_are_tagged_copies example_collaborators
               ([0; 8], [7]) "ff" example_tx_map example_heap
               [] [(9, 10)] [] [] h1 _ Hst)))).
  repeat apply Forall_cons_2; simpl; lia || constructor.
Defined.

(** The call of line 270: the handle is in the place of the reads. *)
Lemma write_pe_reads_misused_writes_nothing_example :
  @write_pe_reads example_collaborators (PySamfile unpairedfh)
    (PyReads [[0]; [4]]) example_world
  = Ok (tt, example_world)
  ∨ ∃ e, @write_pe_reads example_collaborators (PySamfile unpairedfh)
           (PyReads [[0]; [4]]) example_world
         = Raise e.
Proof.
  apply (@write_pe_reads_misused_writes_nothing example_collaborators).
  intros lists fh [Hreads _]. discriminate.
Defined.

(** The cross-gene pair (0, 1) goes to the discordant file and the
    concordant pair (2, 3) to the paired file, after what is there. *)
Lemma write_pairs_routes_by_discordant_tag_example :
  ∃ w',
    write_pairs [(2, 3); (0, 1)] pairedfh discordantfh example_tagged_world
    = Ok (tt, w')
    ∧ discordant_bam w'
      = [deref (objects example_tagged_world) 0;
         deref (objects example_tagged_world) 1]
    ∧ paired_bam w'
      = paired_bam example_tagged_world
        ++ [deref (objects example_tagged_world) 2;
            deref (objects example_tagged_world) 3]
    ∧ unpaired_bam w' = [] ∧ multimap_bam w' = [].
Proof.
  destruct (write_pairs_routes_by_discordant_tag [(2, 3); (0, 1)]
              pairedfh discordantfh example_tagged_world)
    as (w' & Hrun & _ & Hd & Hp & Hother).
  - discriminate.
  - repeat apply Forall_cons_2; try constructor; by eexists.
  - exists w'. split; [exact Hrun|].
    split; [exact Hd|]. split; [exact Hp|].
    split; [apply (Hother unpairedfh) | apply (Hother multimapfh)];
      discriminate.
Defined.

(** Object 4 has no discordant tag. *)
Lemma write_pairs_raises_on_missing_tag_example :
  write_pairs [(2, 3); (0, 4)] pairedfh discordantfh example_tagged_world
  = Raise KeyError.
Proof.
  apply write_pairs_raises_on_missing_tag.
  apply Exists_cons_tl, Exists_cons_hd.
  intros [_ [d Hd]]. discriminate.
Defined.

(** Objects 0 and 2 are forward reads on transcripts of different genes:
    both are 5', so nothing can be paired. *)
Lemma unpairable_fragment_goes_to_unpaired_file_example :
  ∃ w',
    @dispatch_fragment example_collaborators example_tx_map
      example_genome_map 0%Z 2%Z "ff" ([0], [2]) example_world
    = Ok (tt, w')
    ∧ unpaired_bam w'
      = [@tag_unpaired example_collaborators "ff" (deref example_heap 0);
         @tag_unpaired example_collaborators "ff" (deref example_heap 2)]
    ∧ paired_bam w' = [] ∧ discordant_bam w' = [] ∧ multimap_bam w' = [].
Proof.
  destruct (@unpairable_fragment_goes_to_unpaired_file example_collaborators
              example_tx_map example_genome_map 0%Z 2%Z "ff" ([0], [2])
              example_world 1 1)
    as (w' & Hrun & Hu & Hp & Hd & Hm & _).
  - vm_compute. reflexivity.
  - vm_compute. reflexivity.
  - simpl. lia.
  - simpl. lia.
  - split; simpl.
    + apply NoDup_cons. split; [by intros ?%list_elem_of_singleton|].
      apply NoDup_singleton.
    + repeat apply Forall_cons_2; simpl; lia || constructor.
  - repeat apply Forall_cons_2; try constructor; intros Hm; by eexists.
  - intros (r1 & r2 & c & ->%list_elem_of_singleton
            & ->%list_elem_of_singleton & [_ H1] & [_ H2]).
    vm_compute in H1, H2. congruence.
  - vm_compute. reflexivity.
  - exists w'. split; [exact Hrun|]. split; [exact Hu|].
    split; [exact Hp|]. split; [exact Hd | exact Hm].
Defined.

(** Object 0 is a forward read of one gene and object 3 a reverse read of
    another: the pair of their copies goes to the discordant file. *)
Lemma cross_gene_fragment_goes_to_discordant_file_example :
  ∃ w' kept,
    @dispatch_fragment example_collaborators example_tx_map
      example_genome_map 0%Z 2%Z "ff" ([0], [3]) example_world
    = Ok (tt, w')
    ∧ kept ≠ []
    ∧ kept ⊆ [(0, 3)]
    ∧ discordant_bam w'
      = concat (changed_records (@tag_unpaired example_collaborators "ff")
                  example_heap <$> kept)
    ∧ paired_bam w' = [] ∧ unpaired_bam w' = [] ∧ multimap_bam w' = [].
Proof.
  apply (@cross_gene_fragment_goes_to_discordant_file
           example_collaborators example_tx_map example_genome_map
           0%Z 2%Z "ff" ([0], [3]) example_world 1 1).
  - vm_compute. reflexivity.
  - vm_compute. reflexivity.
  - simpl. lia.
  - simpl. lia.
  - split; simpl.
    + apply NoDup_cons. split; [by intros ?%list_elem_of_singleton|].
      apply NoDup_singleton.
    + repeat apply Forall_cons_2; simpl; lia || constructor.
  - repeat apply Forall_cons_2; try constructor; intros Hm; by eexists.
  - repeat apply Forall_cons_2; try constructor; reflexivity.
  - intros (r1 & r2 & c & ->%list_elem_of_singleton
            & ->%list_elem_of_singleton & [_ H1] & [_ H2]).
    vm_compute in H1, H2. congruence.
  - vm_compute. discriminate.
Defined.

(** Objects 0 and 6 are forward reads on transcript 0: the pair of their
    copies goes to the paired file. *)
Lemma same_gene_fragment_goes_to_paired_file_example :
  ∃ w' t kept,
    @dispatch_fragment example_collaborators example_tx_map
      example_genome_map 0%Z 2%Z "ff" ([0], [6]) example_world
    = Ok (tt, w')
    ∧ t ≠ DISCORDANT_GENE
    ∧ kept ≠ []
    ∧ Forall (λ c, c.1 ∈ [0] ∧ c.2 ∈ [6]) kept
    ∧ paired_bam w'
      = concat (changed_records (add_tags [DiscordantTag t]) example_heap
                  <$> kept)
    ∧ discordant_bam w' = [] ∧ unpaired_bam w' = [] ∧ multimap_bam w' = [].
Proof.
  apply (@same_gene_fragment_goes_to_paired_file example_collaborators
           example_tx_map example_genome_map 0%Z 2%Z "ff" ([0], [6])
           example_world 1 1).
  - vm_compute. reflexivity.
  - vm_compute. reflexivity.
  - simpl. lia.
  - simpl. lia.
  - repeat apply Forall_cons_2; simpl; lia || constructor.
  - repeat apply Forall_cons_2; try constructor; intros Hm; by eexists.
  - by repeat apply Forall_cons_2; try constructor.
  - exists 0, 6, 10%Z. repeat split; try apply list_elem_of_here.
Defined.

(** The first four records of the example, with threshold 10: the read with
    3 hits is left out and the read with 40 hits is written. *)
Lemma sam_stdin_to_bam_keeps_mapped_and_multihits_example :
  ∃ st,
    sam_stdin_to_bam (take 4 example_sam) 10%Z = Ok st
    ∧ bam_out st = filter (sam_kept 10%Z) (take 4 example_sam)
    ∧ num_unmapped st
      = length (filter (sam_filtered 10%Z) (take 4 example_sam))
    ∧ num_multihits st
      = length (filter (sam_multihit 10%Z) (take 4 example_sam))
    ∧ filter (λ r, is_unmapped r = false) (bam_out st)
      = filter (λ r, is_unmapped r = false) (take 4 example_sam)
    ∧ length (take 4 example_sam) = length (bam_out st) + num_unmapped st.
Proof.
  apply (sam_stdin_to_bam_keeps_mapped_and_multihits 10%Z
           (take 4 example_sam)).
  repeat apply Forall_cons_2; try constructor; intros Hu;
    try discriminate; by eexists.
Defined.

(** The fifth record is unmapped and has no XM tag. *)
Lemma sam_stdin_to_bam_raises_without_xm_example :
  sam_stdin_to_bam example_sam 10%Z = Raise KeyError.
Proof.
  apply sam_stdin_to_bam_raises_without_xm.
  do 4 apply Exists_cons_tl. apply Exists_cons_hd. by split.
Defined.

(** A second pass over the three records that the first pass wrote. *)
Lemma sam_stdin_to_bam_idempotent_example :
  sam_stdin_to_bam (filter (sam_kept 10%Z) (take 4 example_sam)) 10%Z
  = Ok (mkSam (filter (sam_kept 10%Z) (take 4 example_sam)) 0 1).
Proof.
  apply (sam_stdin_to_bam_idempotent 10%Z (take 4 example_sam)
           (mkSam (filter (sam_kept 10%Z) (take 4 example_sam)) 1 1)).
  vm_compute. reflexivity.
Defined.

(** Threshold 10 keeps the read with 40 hits, threshold 50 neither of the
    unmapped reads. *)
Lemma sam_stdin_to_bam_thresholds_compose_example :
  ∃ st' st'',
    sam_stdin_to_bam (take 4 example_sam) 50%Z = Ok st'
    ∧ sam_stdin_to_bam (filter (sam_kept 10%Z) (take 4 example_sam)) 50%Z
      = Ok st''
    ∧ bam_out st'' = bam_out st'
    ∧ bam_out st' `sublist_of` filter (sam_kept 10%Z) (take 4 example_sam).
Proof.
  apply (sam_stdin_to_bam_thresholds_compose 10%Z 50%Z (take 4 example_sam)
           (mkSam (filter (sam_kept 10%Z) (take 4 example_sam)) 1 1)).
  - lia.
  - vm_compute. reflexivity.
Defined.

(** With ceiling 1, the first fragment has a mate with two loci and takes
    the multimapping branch; the second is classified. *)
Lemma multimap_file_is_never_written_example :
  ∃ w',
    @find_discordant_fragments example_collaborators example_tx_map
      example_genome_map 0%Z 1%Z "ff" [([0; 2], [3]); ([0], [6])]
      example_world
    = Ok (tt, w')
    ∧ multimap_bam w' = [].
Proof.
  assert (∃ w',
            @find_discordant_fragments example_collaborators example_tx_map
              example_genome_map 0%Z 1%Z "ff" [([0; 2], [3]); ([0], [6])]
              example_world
            = Ok (tt, w')) as [w' Hrun]
    by (eexists; vm_compute; reflexivity).
  exists w'. split; [exact Hrun|].
  exact (@multimap_file_is_never_written example_collaborators
           example_tx_map example_genome_map 0%Z 1%Z "ff"
           [([0; 2], [3]); ([0], [6])] example_world w' Hrun).
Defined.

End MoreExamples.
